(** * Graph partitioning, pass pipeline and kernel dispatch of the oneDNN
      graph component: a shallow embedding and its properties.

    The development follows the C++ sources
      - [interface/graph.hpp]                       ([dnnl_graph_graph])
      - [backend/graph_compiler/patterns/pattern_utils.hpp]
      - [backend/dnnl/passes/utils.hpp]             ([pass_pipeline_t])
      - [backend/dnnl/kernels/matmul.hpp]           ([matmul_t])
      - [backend/dnnl/dnnl_backend.hpp]             ([layout_id_manager_t])
      - [core/src/compiler/ir/transform/buffer_schedule.hpp]

    Objects reached through [std::shared_ptr] or raw pointers live in an
    explicit store: an [op_t *] is an address into [ops_mem], a [value_t *]
    an address into [vals_mem], a [partition_impl_t *] an address into
    [parts_mem].  Functions that mutate through a pointer take the store
    and return the new one. *)

From Stdlib Require Import ZArith Lia.
From stdpp Require Import base option list strings sorting gmap.


(** ** Status codes *)

(** Modelled from the spec: [interface/c_types_map.hpp] (the declaration of
    [status_t]) is missing; the taxonomy of the error-handling section is
    [success], [invalid_op], [invalid_shape], [unsupported] and the
    pass-specific failure statuses, kept here as [failure code]. *)
Inductive status_t : Type :=
  | success
  | invalid_op
  | invalid_shape
  | unsupported
  | failure (code : N).

#[global] Instance status_eq_dec : EqDecision status_t.
Proof. solve_decision. Defined.

Definition is_success (s : status_t) : bool :=
  match s with success => true | _ => false end.

(** ** Data model *)

Definition op_ptr := nat.
Definition val_ptr := nat.
Definition part_ptr := nat.

(** [op_kind_t] is an enumeration; only equality of kinds is used. *)
Definition op_kind_t := N.

Inductive layout_type_t : Type :=
  | lt_undef
  | lt_any
  | lt_strided
  | lt_opaque.

#[global] Instance layout_type_eq_dec : EqDecision layout_type_t.
Proof. solve_decision. Defined.

(** [logical_tensor_t]: the fixed-size arrays [dims] and [layout.strides]
    are lists read by index; only the first [ndims] entries are read. *)
Record logical_tensor_t : Type := mk_lt {
  lt_id : N;
  lt_ndims : Z;
  lt_dims : list Z;
  lt_layout_type : layout_type_t;
  lt_strides : list Z;
}.

#[global] Instance logical_tensor_inhabited : Inhabited logical_tensor_t :=
  populate (mk_lt 0%N (-1)%Z [] lt_undef []).

(** [value_t]: a logical tensor, at most one producer and the list of
    consumers, each an op and the input slot it reads the value at. *)
Record value_t : Type := mk_value {
  val_lt : logical_tensor_t;
  val_producer : option op_ptr;
  val_consumers : list (op_ptr * nat);
}.

#[global] Instance value_inhabited : Inhabited value_t :=
  populate (mk_value inhabitant None []).

(** [op_t]: identity is the id; inputs and outputs are shared values. *)
Record op_t : Type := mk_op {
  op_id : N;
  op_kind : op_kind_t;
  op_attrs : list (N * Z);
  op_inputs : list val_ptr;
  op_outputs : list val_ptr;
  op_partition : option part_ptr;
}.

#[global] Instance op_inhabited : Inhabited op_t :=
  populate (mk_op 0%N 0%N [] [] [] None).

(** Modelled from the spec: [compiler_partition_impl.hpp] is missing; a
    partition records its engine kind, the ops transferred to it and the
    boundary values added by [add_input_tensor] and [add_output_tensor];
    [get_inputs] and [get_outputs] are the logical tensors of those. *)
Record partition_impl_t : Type := mk_partition {
  part_engine_kind : N;
  part_ops : list op_ptr;
  part_inputs : list val_ptr;
  part_outputs : list val_ptr;
}.

#[global] Instance partition_inhabited : Inhabited partition_impl_t :=
  populate (mk_partition 0%N [] [] []).

Record heap : Type := mk_heap {
  ops_mem : gmap op_ptr op_t;
  vals_mem : gmap val_ptr value_t;
  parts_mem : gmap part_ptr partition_impl_t;
}.

(** [dnnl_graph_graph]: the added ops, the engine kind and the partitions. *)
Record graph_t : Type := mk_graph {
  ops_ : list op_ptr;
  engine_kind_ : N;
  partition_impls_ : list part_ptr;
}.

Definition get_op (h : heap) (p : op_ptr) : op_t := ops_mem h !!! p.
Definition get_value (h : heap) (v : val_ptr) : value_t := vals_mem h !!! v.
Definition get_part (h : heap) (q : part_ptr) : partition_impl_t :=
  parts_mem h !!! q.

Definition has_producer (h : heap) (v : val_ptr) : bool :=
  bool_decide (is_Some (val_producer (get_value h v))).

Definition set_producer (v : val_ptr) (p : op_ptr) (h : heap) : heap :=
  mk_heap (ops_mem h)
          (alter (λ x, mk_value (val_lt x) (Some p) (val_consumers x)) v
                 (vals_mem h))
          (parts_mem h).

Definition set_logical_tensor (v : val_ptr) (lt : logical_tensor_t)
    (h : heap) : heap :=
  mk_heap (ops_mem h)
          (alter (λ x, mk_value lt (val_producer x) (val_consumers x)) v
                 (vals_mem h))
          (parts_mem h).

Definition set_partition (p : op_ptr) (q : part_ptr) (h : heap) : heap :=
  mk_heap (alter (λ o, mk_op (op_id o) (op_kind o) (op_attrs o) (op_inputs o)
                             (op_outputs o) (Some q)) p (ops_mem h))
          (vals_mem h)
          (parts_mem h).

(** [std::none_of] *)
Definition none_of {A} (f : A → bool) (l : list A) : bool :=
  negb (existsb f l).

(** ** The op schema registry *)

(** Modelled from the spec: [interface/op_schema.hpp] is missing; a schema
    exposes [verify(op) -> bool], [set_default_attribute(op)] and
    [shape_infer(op, inputs, outputs) -> status].  The shape function
    writes its result through the output logical-tensor pointers, so it
    returns the new contents of the output temporaries. *)
Record op_schema_t : Type := mk_schema {
  set_default_attribute : op_t → op_t;
  verify : op_t → bool;
  shape_infer : op_t → list logical_tensor_t → list logical_tensor_t →
                status_t * list logical_tensor_t;
}.

Module Graph.

Section WithRegistry.

(** [op_schema_registry_t::get_op_schema]: [None] is the null pointer. *)
Variable get_op_schema : op_kind_t → option op_schema_t.

(** [logical_tensor_wrapper_t::is_shape_unknown] (declared in the missing
    [interface/logical_tensor.hpp]). *)
Variable is_shape_unknown : logical_tensor_t → bool.

(** The order in which [topo_order_visit] (declared in the missing
    [interface/op.hpp]) reaches the ops from the given roots. *)
Variable topo_order : heap → list op_ptr → list op_ptr.

(** *** [add_op] *)

Definition push_back_op (tmp_ln : op_t) (g : graph_t) (h : heap)
    : graph_t * heap :=
  let back_op := fresh (dom (ops_mem h)) in
  let h1 := mk_heap (<[back_op := tmp_ln]> (ops_mem h)) (vals_mem h)
                    (parts_mem h) in
  let h2 := foldl (λ acc v, set_producer v back_op acc) h1
                  (op_outputs tmp_ln) in
  (mk_graph (ops_ g ++ [back_op]) (engine_kind_ g) (partition_impls_ g), h2).

Definition add_op (l_n : option op_t) (g : graph_t) (h : heap)
    : status_t * (graph_t * heap) :=
  match l_n with
  | None => (invalid_op, (g, h))
  | Some n =>
      if none_of (λ op, N.eqb (op_id (get_op h op)) (op_id n)) (ops_ g)
      then
        match get_op_schema (op_kind n) with
        | Some opm =>
            let tmp_ln := set_default_attribute opm n in
            if negb (verify opm tmp_ln) then (invalid_op, (g, h))
            else (success, push_back_op tmp_ln g h)
        | None => (success, push_back_op n g h)
        end
      else (success, (g, h))
  end.

(** *** Derived views *)

Definition num_output_consumers (h : heap) (v : val_ptr) : nat :=
  length (val_consumers (get_value h v)).

Definition get_output_ops (g : graph_t) (h : heap) : list op_ptr :=
  List.filter (λ n, Nat.eqb (sum_list (map (num_output_consumers h)
                                           (op_outputs (get_op h n)))) 0)
              (ops_ g).

Definition is_graph_input (g : graph_t) (h : heap) (v : val_ptr) : bool :=
  if has_producer h v
  then match val_producer (get_value h v) with
       | Some producer => none_of (λ op, Nat.eqb op producer) (ops_ g)
       | None => true
       end
  else true.

Definition get_input_values (g : graph_t) (h : heap) : list val_ptr :=
  flat_map (λ n, List.filter (is_graph_input g h) (op_inputs (get_op h n)))
           (ops_ g).

Definition is_graph_output (g : graph_t) (h : heap) (v : val_ptr) : bool :=
  let consumers := val_consumers (get_value h v) in
  let has_outer_consumer :=
    existsb (λ csm, none_of (λ op, Nat.eqb op (fst csm)) (ops_ g))
            consumers in
  bool_decide (consumers = []) || has_outer_consumer.

Definition get_output_values (g : graph_t) (h : heap) : list val_ptr :=
  flat_map (λ n, List.filter (is_graph_output g h)
                             (op_outputs (get_op h n)))
           (ops_ g).

(** *** [infer_shape] *)

(** The visit applies [f] to the ops in order and stops at the first
    status that is not [success], which it returns. *)
Fixpoint visit_ops (f : op_ptr → heap → status_t * heap)
    (l : list op_ptr) (h : heap) : status_t * heap :=
  match l with
  | [] => (success, h)
  | op :: rest =>
      let '(ret, h') := f op h in
      if is_success ret then visit_ops f rest h' else (ret, h')
  end.

Definition topo_order_visit (roots : list op_ptr)
    (f : op_ptr → heap → status_t * heap) (h : heap) : status_t * heap :=
  visit_ops f (topo_order h roots) h.

(** The loop [for i < num_outputs: get_output_value(i)->
    set_logical_tensor(tmp_outputs[i])]. *)
Fixpoint write_outputs (outs : list val_ptr)
    (tmp_outputs : list logical_tensor_t) (h : heap) : heap :=
  match outs, tmp_outputs with
  | v :: outs', lt :: tmp' =>
      write_outputs outs' tmp' (set_logical_tensor v lt h)
  | _, _ => h
  end.

(** The lambda passed to [topo_order_visit]. *)
Definition infer_shape_op (op : op_ptr) (h : heap) : status_t * heap :=
  let o := get_op h op in
  let tmp_inputs := map (λ v, val_lt (get_value h v)) (op_inputs o) in
  let tmp_outputs := map (λ v, val_lt (get_value h v)) (op_outputs o) in
  match get_op_schema (op_kind o) with
  | None => (invalid_op, h)
  | Some opm =>
      let '(ret, tmp_outputs') := shape_infer opm o tmp_inputs tmp_outputs in
      if is_success ret
      then (success, write_outputs (op_outputs o) tmp_outputs' h)
      else (invalid_shape, h)
  end.

Definition infer_shape (g : graph_t) (h : heap) : status_t * heap :=
  if existsb (λ v, is_shape_unknown (val_lt (get_value h v)))
             (get_input_values g h)
  then (invalid_shape, h)
  else topo_order_visit (get_output_ops g h) infer_shape_op h.

End WithRegistry.

End Graph.

(** ** The partitioner of the graph-compiler backend *)

Module Partitioner.

Local Open Scope Z_scope.

(** Reading the C arrays [lt.dims] and [lt.layout.strides]. *)
Definition array_prefix (n : nat) (a : list Z) : list Z :=
  map (λ i, nth i a 0) (seq 0 n).

(** The comparator handed to [std::sort]: by stride, then by size. *)
Definition index_less (strides size : list Z) (i j : nat) : bool :=
  if Z.eqb (nth i strides 0) (nth j strides 0)
  then Z.ltb (nth i size 0) (nth j size 0)
  else Z.ltb (nth i strides 0) (nth j strides 0).

(** [std::sort] on the index vector, as an insertion sort.  [std::sort]
    leaves the relative order of equivalent indices unspecified; two
    equivalent indices carry the same stride and the same size, and the
    checks after the sort read nothing else. *)
Fixpoint insert_index (less : nat → nat → bool) (x : nat) (l : list nat)
    : list nat :=
  match l with
  | [] => [x]
  | y :: l' => if less x y then x :: y :: l' else y :: insert_index less x l'
  end.

Definition sort_indices (less : nat → nat → bool) (l : list nat)
    : list nat :=
  foldr (insert_index less) [] l.

(** What an [int64_t] operation keeps of its mathematical result: the
    low 64 bits, read as a signed number.  The entries of [dims] and
    [strides] are [int64_t] values. *)
Definition wrap_int64 (z : Z) : Z := (z + 2 ^ 63) mod 2 ^ 64 - 2 ^ 63.

Definition int64_mul (a b : Z) : Z := wrap_int64 (a * b).

(** The loop [for (i = 1; i < ndims; ++i)] over the sorted indices;
    [prev] is [indices[i - 1]].  The product is the [int64_t] product
    of the compiled code, which wraps around. *)
Fixpoint check_chain (strides size : list Z) (prev : nat)
    (rest : list nat) : bool :=
  match rest with
  | [] => true
  | cur :: rest' =>
      if negb (Z.eqb (nth cur strides 0)
                     (int64_mul (nth prev strides 0) (nth prev size 0)))
      then false
      else check_chain strides size cur rest'
  end.

(** The checks after the sort: [strides[indices[0]] != 1] and the loop.
    With [ndims > 0] the index vector is not empty. *)
Definition check_dense (strides size : list Z) (indices : list nat) : bool :=
  match indices with
  | [] => false
  | i0 :: rest =>
      if negb (Z.eqb (nth i0 strides 0) 1) then false
      else check_chain strides size i0 rest
  end.

Definition check_logical_tensor_validity (lt : logical_tensor_t) : bool :=
  if negb (bool_decide (lt_layout_type lt = lt_strided)) then false
  else if Z.leb (lt_ndims lt) 0 then false
  else
    let n := Z.to_nat (lt_ndims lt) in
    let size := array_prefix n (lt_dims lt) in
    let strides := array_prefix n (lt_strides lt) in
    let indices := sort_indices (index_less strides size) (seq 0 n) in
    check_dense strides size indices.

(** What [std::sort] guarantees of its result, whatever algorithm it
    runs: no element is less than one that stands before it. *)
Definition sorted_by (less : nat → nat → bool) (indices : list nat) : Prop :=
  StronglySorted (λ i j, less j i = false) indices.

(** The stride and the size an index stands for, ordered
    lexicographically. *)
Definition key (strides size : list Z) (i : nat) : Z * Z :=
  (nth i strides 0, nth i size 0).

Definition key_le (a b : Z * Z) : Prop :=
  fst a < fst b ∨ (fst a = fst b ∧ snd a ≤ snd b).

Definition check_inputs_outputs_validity
    (inputs outputs : list logical_tensor_t) : bool :=
  forallb check_logical_tensor_validity inputs
  && forallb check_logical_tensor_validity outputs.

(** Modelled from the spec: [compiler_partition_impl_t::add_input_tensor]
    (the class is missing) records the value at the end of the partition's
    inputs. *)
Definition add_input_tensor (v : val_ptr) (p : partition_impl_t)
    : partition_impl_t :=
  mk_partition (part_engine_kind p) (part_ops p) (part_inputs p ++ [v])
               (part_outputs p).

(** Modelled from the spec: [compiler_partition_impl_t::add_output_tensor]
    (the class is missing) records the value at the end of the partition's
    outputs. *)
Definition add_output_tensor (v : val_ptr) (p : partition_impl_t)
    : partition_impl_t :=
  mk_partition (part_engine_kind p) (part_ops p) (part_inputs p)
               (part_outputs p ++ [v]).

(** Modelled from the spec: [compiler_partition_impl_t::add_op] (the class
    is missing) records the op at the end of the partition's ops. *)
Definition partition_add_op (op : op_ptr) (p : partition_impl_t)
    : partition_impl_t :=
  mk_partition (part_engine_kind p) (part_ops p ++ [op]) (part_inputs p)
               (part_outputs p).

(** Modelled from the spec: [compiler_partition_impl_t::get_inputs] (the
    class is missing) returns the logical tensors of the recorded
    inputs. *)
Definition get_inputs (h : heap) (p : partition_impl_t)
    : list logical_tensor_t :=
  map (λ v, val_lt (get_value h v)) (part_inputs p).

(** Modelled from the spec: [compiler_partition_impl_t::get_outputs] (the
    class is missing) returns the logical tensors of the recorded
    outputs. *)
Definition get_outputs (h : heap) (p : partition_impl_t)
    : list logical_tensor_t :=
  map (λ v, val_lt (get_value h v)) (part_outputs p).

(** The test guarding [pimpl->add_input_tensor(in_value)]. *)
Definition is_partition_input (h : heap) (visit : gset op_ptr)
    (in_value : val_ptr) : bool :=
  negb (has_producer h in_value)
  || match val_producer (get_value h in_value) with
     | Some producer => negb (bool_decide (producer ∈ visit))
     | None => true
     end.

(** The flag [is_output] at the end of the loop over the consumers. *)
Definition is_partition_output (h : heap) (visit : gset op_ptr)
    (out_value : val_ptr) : bool :=
  let consumers := val_consumers (get_value h out_value) in
  bool_decide (consumers = [])
  || existsb (λ consumer, negb (bool_decide (fst consumer ∈ visit)))
             consumers.

(** The body of [for (auto &cur_op : fusion_ops_set)]: the loop over the
    inputs of [cur_op], then the loop over its outputs. *)
Definition scan_op (h : heap) (visit : gset op_ptr)
    (pimpl : partition_impl_t) (cur_op : op_ptr) : partition_impl_t :=
  let pimpl1 :=
    foldl (λ p in_value,
             if is_partition_input h visit in_value
             then add_input_tensor in_value p else p)
          pimpl (op_inputs (get_op h cur_op)) in
  foldl (λ p out_value,
           if is_partition_output h visit out_value
           then add_output_tensor out_value p else p)
        pimpl1 (op_outputs (get_op h cur_op)).

(** [pimpl->add_op(...)] on the partition object at address [pimpl]. *)
Definition add_op_at (pimpl : part_ptr) (op : op_ptr) (h : heap) : heap :=
  mk_heap (ops_mem h) (vals_mem h)
          (alter (partition_add_op op) pimpl (parts_mem h)).

(** One iteration of [for (auto &pairs : fusion_ops)].  [visit] and
    [fusion_ops_set] are filled from [pairs].  The partition object made
    by [std::make_shared] is kept as a value while the boundary is
    scanned; when the check fails the iteration [continue]s and the object
    dies with its only [shared_ptr], otherwise it gets an address no live
    partition has, the ops are transferred and the graph records it. *)
Definition set_partition_of (pairs : list op_ptr) (st : graph_t * heap)
    : graph_t * heap :=
  let '(g, h) := st in
  let visit : gset op_ptr := list_to_set pairs in
  let fusion_ops_set := pairs in
  let pimpl_obj :=
    foldl (scan_op h visit) (mk_partition (engine_kind_ g) [] [] [])
          fusion_ops_set in
  if negb (check_inputs_outputs_validity (get_inputs h pimpl_obj)
                                         (get_outputs h pimpl_obj))
  then (g, h)
  else
    let pimpl := fresh (dom (parts_mem h)) in
    let h1 := mk_heap (ops_mem h) (vals_mem h)
                      (<[pimpl := pimpl_obj]> (parts_mem h)) in
    let h2 := foldl (λ acc op, set_partition op pimpl (add_op_at pimpl op acc))
                    h1 pairs in
    (mk_graph (ops_ g) (engine_kind_ g) (partition_impls_ g ++ [pimpl]), h2).

Definition set_partitions (g : graph_t) (h : heap)
    (fusion_ops : list (list op_ptr)) : graph_t * heap :=
  foldl (λ st pairs, set_partition_of pairs st) (g, h) fusion_ops.

(** *** Vocabulary of the properties *)

(** The values the boundary scan of a match records as inputs and as
    outputs. *)
Definition scan_inputs (h : heap) (visit : gset op_ptr)
    (fusion_ops_set : list op_ptr) : list val_ptr :=
  flat_map (λ cur_op, List.filter (is_partition_input h visit)
                                  (op_inputs (get_op h cur_op)))
           fusion_ops_set.

Definition scan_outputs (h : heap) (visit : gset op_ptr)
    (fusion_ops_set : list op_ptr) : list val_ptr :=
  flat_map (λ cur_op, List.filter (is_partition_output h visit)
                                  (op_outputs (get_op h cur_op)))
           fusion_ops_set.

Definition get_lts (h : heap) (vs : list val_ptr) : list logical_tensor_t :=
  map (λ v, val_lt (get_value h v)) vs.

(** The boundary check of a match, as [set_partitions] evaluates it. *)
Definition match_valid (h : heap) (pairs : list op_ptr) : bool :=
  let visit : gset op_ptr := list_to_set pairs in
  check_inputs_outputs_validity (get_lts h (scan_inputs h visit pairs))
                                (get_lts h (scan_outputs h visit pairs)).

(** The op-sets of the partitions of a graph, in the order of
    [partition_impls_]. *)
Definition partition_op_sets (g : graph_t) (h : heap)
    : list (list op_ptr) :=
  map (λ q, part_ops (get_part h q)) (partition_impls_ g).

(** No op occurs in two entries of a list of op-sets. *)
Definition in_one_partition (sets : list (list op_ptr)) : Prop :=
  ∀ i j a b op, sets !! i = Some a → sets !! j = Some b →
                op ∈ a → op ∈ b → i = j.

(** Every partition pointer of the graph is a live partition object. *)
Definition partitions_live (g : graph_t) (h : heap) : Prop :=
  ∀ q, q ∈ partition_impls_ g → q ∈ dom (parts_mem h).

(** The recorded inputs have no producer or one outside [part_ops]; the
    recorded outputs have no consumer or one outside [part_ops]. *)
Definition boundary_correct (h : heap) (P : partition_impl_t) : Prop :=
  (∀ v, v ∈ part_inputs P →
        val_producer (get_value h v) = None
        ∨ ∃ producer, val_producer (get_value h v) = Some producer
                      ∧ producer ∉ part_ops P)
  ∧ (∀ v, v ∈ part_outputs P →
          val_consumers (get_value h v) = []
          ∨ ∃ consumer, consumer ∈ val_consumers (get_value h v)
                        ∧ fst consumer ∉ part_ops P).

(** Two stores agree on the values and on the inputs and outputs of
    every op. *)
Definition same_topology (h1 h2 : heap) : Prop :=
  vals_mem h1 = vals_mem h2
  ∧ ∀ op, op_inputs (get_op h1 op) = op_inputs (get_op h2 op)
          ∧ op_outputs (get_op h1 op) = op_outputs (get_op h2 op).





End Partitioner.

(** ** The pass pipeline of the DNNL backend *)

Module Pipeline.

(** What [run] calls, in the order it calls it: the [i]-th pass, the
    visualizer on it, the validator after it. *)
Inductive event : Type :=
  | EvPass (i : nat)
  | EvVisualize (i : nat) (name_suffix : string)
      (is_layout_sensitive is_memory_sensitive : bool)
  | EvValidate (i : nat).

#[global] Instance event_eq_dec : EqDecision event.
Proof. solve_decision. Defined.

Section WithSubgraph.

(** Everything a pass can change through [std::shared_ptr<subgraph_t> &]
    and the references it captured. *)
Variable subgraph_t : Type.

Definition pass_signature : Type := subgraph_t → status_t * subgraph_t.

(** [subgraph_visualizer_t::run] and [subgraph_validator_t::run] are only
    declared in the header; both take the subgraph by const reference.
    The visualizer's status is dropped by [run]. *)
Record pass_pipeline_t : Type := mk_pipeline {
  passes_ : list pass_signature;
  names_ : list string;
  is_layout_sensitives_ : list bool;
  is_memory_sensitives_ : list bool;
  validator_ : subgraph_t → status_t;
  is_layout_sensitive_ : bool;
  is_memory_sensitive_ : bool;
}.

Definition new_pipeline (validator : subgraph_t → status_t)
    : pass_pipeline_t :=
  mk_pipeline [] [] [] [] validator false false.

Definition reset_visualize_arg (is_layout_sensitive is_memory_sensitive : bool)
    (p : pass_pipeline_t) : pass_pipeline_t :=
  mk_pipeline (passes_ p) (names_ p) (is_layout_sensitives_ p)
              (is_memory_sensitives_ p) (validator_ p)
              is_layout_sensitive is_memory_sensitive.

Definition add_pass (apass : pass_signature) (name : string)
    (p : pass_pipeline_t) : pass_pipeline_t :=
  mk_pipeline (passes_ p ++ [apass]) (names_ p ++ [name])
              (is_layout_sensitives_ p ++ [is_layout_sensitive_ p])
              (is_memory_sensitives_ p ++ [is_memory_sensitive_ p])
              (validator_ p) (is_layout_sensitive_ p)
              (is_memory_sensitive_ p).

(** The loop of [run] from index [i] on; [rest] is [passes_[i..]]. *)
Fixpoint run_from (p : pass_pipeline_t) (i : nat)
    (rest : list pass_signature) (sg : subgraph_t) (tr : list event)
    : status_t * subgraph_t * list event :=
  match rest with
  | [] => (success, sg, tr)
  | apass :: rest' =>
      let '(ret, sg1) := apass sg in
      let tr1 := tr ++ [EvPass i] in
      if negb (is_success ret) then (ret, sg1, tr1)
      else
        let tr2 := tr1 ++ [EvVisualize i (nth i (names_ p) EmptyString)
                             (nth i (is_layout_sensitives_ p) false)
                             (nth i (is_memory_sensitives_ p) false)] in
        let ret' := validator_ p sg1 in
        let tr3 := tr2 ++ [EvValidate i] in
        if negb (is_success ret') then (ret', sg1, tr3)
        else run_from p (S i) rest' sg1 tr3
  end.

Definition run (p : pass_pipeline_t) (sg : subgraph_t)
    : status_t * subgraph_t * list event :=
  run_from p 0 (passes_ p) sg [].

(** The subgraph after the first [k] passes of [passes] ran on [sg]. *)
Fixpoint sg_after (passes : list pass_signature) (sg : subgraph_t)
    (k : nat) : subgraph_t :=
  match k, passes with
  | S k', apass :: rest => sg_after rest (snd (apass sg)) k'
  | _, _ => sg
  end.

(** The status pass [k] returns when it runs after passes [0..k-1]. *)
Definition pass_status (passes : list pass_signature) (sg : subgraph_t)
    (k : nat) : status_t :=
  match passes !! k with
  | Some apass => fst (apass (sg_after passes sg k))
  | None => success
  end.

(** The status the validator returns after pass [k]. *)
Definition validation_status (p : pass_pipeline_t) (sg : subgraph_t)
    (k : nat) : status_t :=
  validator_ p (sg_after (passes_ p) sg (S k)).

(** The events of the complete rounds [i, i+1, ..., i+k-1]. *)
Definition rounds (p : pass_pipeline_t) (i k : nat) : list event :=
  flat_map (λ j, [EvPass j;
                  EvVisualize j (nth j (names_ p) EmptyString)
                                (nth j (is_layout_sensitives_ p) false)
                                (nth j (is_memory_sensitives_ p) false);
                  EvValidate j])
           (seq i k).

End WithSubgraph.

End Pipeline.

(** ** The layout-id manager *)

Module LayoutIdManager.

Section WithMemDesc.

(** [impl::utils::any_t] holding a backend memory descriptor. *)
Variable mem_desc : Type.

(** The pure virtual [is_mem_desc_equal]. *)
Variable is_mem_desc_equal : mem_desc → mem_desc → bool.

(** [std::distance(begin, std::find_if(begin, end, f))]; the length of
    the list when no element satisfies [f]. *)
Fixpoint find_if (f : mem_desc → bool) (l : list mem_desc) : nat :=
  match l with
  | [] => 0
  | m :: l' => if f m then 0 else S (find_if f l')
  end.

(** Both functions hold the mutex for their whole body; the state is the
    vector [mem_descs_.data_]. *)
Definition set_mem_desc (md : mem_desc) (data_ : list mem_desc)
    : option nat * list mem_desc :=
  let pos := find_if (λ m, is_mem_desc_equal m md) data_ in
  if negb (Nat.eqb pos (length data_)) then (Some pos, data_)
  else
    let data' := data_ ++ [md] in
    (Some (length data' - 1)%nat, data').

Definition get_mem_desc (layout_id : nat) (data_ : list mem_desc)
    : option mem_desc :=
  if Nat.leb (length data_) layout_id then None
  else data_ !! layout_id.

End WithMemDesc.

End LayoutIdManager.

(** ** The matmul kernel: [execute_impl] *)

Module Kernel.

(** [execs_[i]->execute(p_stream, res->get_exec_args()[i])] was called. *)
Inductive event : Type :=
  | EvExec (i : nat).

#[global] Instance event_eq_dec : EqDecision event.
Proof. solve_decision. Defined.

Section WithWorld.

(** The memory the bound argument sets and the stream give access to. *)
Variable world : Type.
(** [constant_cache_t::cached_t], a shared constant buffer. *)
Variable cached_t : Type.
(** [std::vector<impl::tensor_t>] *)
Variable tensors : Type.

(** Modelled from the spec: [op_executable_t] is only forward-declared
    ([passes/utils.hpp]) and [op_executable.hpp] is missing.  The two
    call sites in [execute_impl] use [execute] as a statement, so it
    hands no status back: an execution completes, or it fails and
    leaves by an exception, which carries the non-success status of the
    failure.  Either way it may have written to the memory. *)
Inductive exec_result : Type :=
  | Done (w : world)
  | Raised (s : status_t) (w : world).

Definition op_executable_t : Type := world → exec_result.

Record matmul_t : Type := mk_matmul {
  enable_constant_cache_ : bool;
  is_constant_ : list bool;
  execs_ : list op_executable_t;
  (** the loops over [get_mems_use_external_inputs/outputs] *)
  bind_external : tensors → tensors → world → world;
  (** the scratchpad, its grantor and [get_mems_use_internal_temporary] *)
  bind_temporary : world → world;
  (** [std::make_shared<constant_buffer_t>(...)] *)
  new_constant_buffer : world → cached_t * world;
  (** the grantor over a constant buffer and
      [get_mems_use_internal_persistent] *)
  bind_persistent : cached_t → world → world;
}.

(** The two loops over [execs_]: an index whose constant bit equals
    [skipped] is passed over by [continue], the others are executed.
    Neither loop has a handler, so an exception leaves the loop at once;
    the result tells the status it carries, [None] when the loop ran to
    its end. *)
Fixpoint run_execs (skipped : bool) (is_constant : list bool) (i : nat)
    (execs : list op_executable_t) (w : world) (tr : list event)
    : option status_t * world * list event :=
  match execs with
  | [] => (None, w, tr)
  | e :: rest =>
      if Bool.eqb (nth i is_constant false) skipped
      then run_execs skipped is_constant (S i) rest w tr
      else
        match e w with
        | Done w' =>
            run_execs skipped is_constant (S i) rest w' (tr ++ [EvExec i])
        | Raised s w' => (Some s, w', tr ++ [EvExec i])
        end
  end.

(** Modelled from the spec: [constant_cache_t::get_or_add] (the class is
    missing) returns the cached value when the key has one and otherwise
    installs the caller's future and returns an invalid value.  Seen from
    one thread, an installed future is resolved before that call of
    [execute_impl] returns, so the entry of the kernel's key is absent or
    holds a buffer; the result is valid exactly when it is [Some]. *)
Definition get_or_add (cache : option cached_t) : option cached_t := cache.

(** How a call of [execute_impl] ends: it returns a status, leaving the
    memory, the entry of [constant_key_] and the calls made; or an
    exception of an executable leaves it, [execute_impl] having no
    handler.  The entry an interrupted fold leaves behind, a future whose
    promise is destroyed unset, is not followed. *)
Inductive outcome : Type :=
  | Returned (s : status_t) (w : world) (cache : option cached_t)
      (tr : list event)
  | Thrown (s : status_t) (w : world) (tr : list event).

(** The loop over the non-constant ops and [return
    impl::status::success]. *)
Definition run_rest (k : matmul_t) (w : world) (cache : option cached_t)
    (tr : list event) : outcome :=
  match run_execs true (is_constant_ k) 0 (execs_ k) w tr with
  | (None, w4, tr4) => Returned success w4 cache tr4
  | (Some s, w4, tr4) => Thrown s w4 tr4
  end.

(** [execute_impl] of one caller; [cache] is the entry of [constant_key_]
    in the global constant cache, and the last step of the branch that
    folds, [c_promise.set_value(c_buffer)], leaves the buffer in it. *)
Definition execute_impl (k : matmul_t) (inputs outputs : tensors)
    (w : world) (cache : option cached_t) (tr : list event) : outcome :=
  let w1 := bind_external k inputs outputs w in
  let w2 := bind_temporary k w1 in
  if enable_constant_cache_ k then
    match get_or_add cache with
    | Some c_buffer => run_rest k (bind_persistent k c_buffer w2) cache tr
    | None =>
        let '(c_buffer, wa) := new_constant_buffer k w2 in
        let wb := bind_persistent k c_buffer wa in
        match run_execs false (is_constant_ k) 0 (execs_ k) wb tr with
        | (None, wc, trc) => run_rest k wc (Some c_buffer) trc
        | (Some s, wc, trc) => Thrown s wc trc
        end
    end
  else run_rest k w2 cache tr.

(** *** Vocabulary of the properties *)

(** The indices of [execs_] whose constant bit is [b], in schedule
    order. *)
Definition scheduled (b : bool) (is_constant : list bool) (i n : nat)
    : list nat :=
  List.filter (λ j, Bool.eqb (nth j is_constant false) b) (seq i n).

(** The executables a call of [execute_impl] is to call, in order: the
    constant ones first when the cache is enabled and holds no buffer,
    then the others. *)
Definition schedule (k : matmul_t) (cache : option cached_t) : list nat :=
  (if enable_constant_cache_ k
   then match get_or_add cache with
        | Some _ => []
        | None => scheduled true (is_constant_ k) 0 (length (execs_ k))
        end
   else [])
  ++ scheduled false (is_constant_ k) 0 (length (execs_ k)).



Definition result_world (r : exec_result) : world :=
  match r with Done w | Raised _ w => w end.

(** The memory after the first [m] calls of [order], made from [w]. *)
Fixpoint world_after (execs : list op_executable_t) (order : list nat)
    (w : world) (m : nat) : world :=
  match m, order with
  | S m', i :: rest =>
      match execs !! i with
      | Some e => world_after execs rest (result_world (e w)) m'
      | None => world_after execs rest w m'
      end
  | _, _ => w
  end.

(** What call number [m] of [order] does when the calls before it were
    made from [w]. *)
Definition call_result (execs : list op_executable_t) (order : list nat)
    (w : world) (m : nat) : option exec_result :=
  match order !! m with
  | Some i =>
      match execs !! i with
      | Some e => Some (e (world_after execs order w m))
      | None => None
      end
  | None => None
  end.

(** The calls of [order] made from [w], with the trace [tr] before them,
    end in [res]: [m] calls complete; then the list is at its end, or
    call [m] fails with a status and no further call is made. *)
Definition runs_to (execs : list op_executable_t) (order : list nat)
    (w : world) (tr : list event)
    (res : option status_t * world * list event) : Prop :=
  ∃ m, m ≤ length order
    ∧ (∀ j, j < m → ∃ w', call_result execs order w j = Some (Done w'))
    ∧ ((m = length order
        ∧ res = (None, world_after execs order w m,
                 tr ++ map EvExec order))
       ∨ (m < length order
          ∧ ∃ s w', call_result execs order w m = Some (Raised s w')
                    ∧ res = (Some s, w',
                             tr ++ map EvExec (take (S m) order)))).

End WithWorld.

End Kernel.

(** ** Concurrent callers of [execute_impl] and the constant cache *)

Module ConstantCache.

Definition tid := nat.
Definition buffer_id := nat.

(** The state of the [std::shared_future] stored under the kernel's key. *)
Inductive future_t : Type :=
  | Pending
  | Ready (c_buffer : buffer_id).

(** Where a thread stands in [execute_impl]: outside or before
    [get_or_add]; holding a valid future and blocked in
    [cached_value.get()]; in the loop over the constant ops at index
    [i] with its own new buffer; in the loop over the other ops. *)
Inductive pc_t : Type :=
  | Idle
  | Waiting
  | Folding (c_buffer : buffer_id) (i : nat)
  | Running (c_buffer : buffer_id) (i : nat).

#[global] Instance pc_inhabited : Inhabited pc_t := populate Idle.

Inductive event : Type :=
  | Install (t : tid)
  | Bind (t : tid) (c_buffer : buffer_id)
  | ConstExec (t : tid) (i : nat)
  | Exec (t : tid) (i : nat).

#[global] Instance event_eq_dec : EqDecision event.
Proof. solve_decision. Defined.

(** [contents] maps a constant buffer to the constant ops that have
    written their result into it, in the order they ran. *)
Record state : Type := mk_state {
  cache : option future_t;
  pcs : gmap tid pc_t;
  next_buffer : buffer_id;
  contents : gmap buffer_id (list nat);
  log : list event;
}.

Definition init : state := mk_state None ∅ 0 ∅ [].

Definition set_pc (t : tid) (pc : pc_t) (s : state) : state :=
  mk_state (cache s) (<[t := pc]> (pcs s)) (next_buffer s) (contents s)
           (log s).

Definition add_log (es : list event) (s : state) : state :=
  mk_state (cache s) (pcs s) (next_buffer s) (contents s) (log s ++ es).

(** Modelled from the spec: [constant_cache_t::get_or_add] (the class is
    missing) runs under the cache mutex; the first thread to ask for the
    key installs its pending future and gets an invalid value back, every
    later one gets the stored future.  The result is the validity of the
    returned value and the entry afterwards. *)
Definition get_or_add (entry : option future_t) : bool * option future_t :=
  match entry with
  | None => (false, Some Pending)
  | Some f => (true, Some f)
  end.

(** One atomic step of thread [t] in [execute_impl]; a thread blocked in
    [cached_value.get()] does not move until the installer's
    [c_promise.set_value] has resolved the future.  The schedule has
    [length is_constant_] executables, and each of them is taken to
    complete: what a failing one does to its call is the matter of
    [Kernel.execute_impl]. *)
Definition thread_step (is_constant_ : list bool) (t : tid) (s : state)
    : state :=
  let n := length is_constant_ in
  match pcs s !!! t with
  | Idle =>
      let '(is_from_cache, entry) := get_or_add (cache s) in
      if is_from_cache then
        mk_state entry (<[t := Waiting]> (pcs s)) (next_buffer s)
                 (contents s) (log s)
      else
        let c_buffer := next_buffer s in
        mk_state entry (<[t := Folding c_buffer 0]> (pcs s))
                 (S c_buffer) (<[c_buffer := []]> (contents s))
                 (log s ++ [Install t; Bind t c_buffer])
  | Waiting =>
      match cache s with
      | Some (Ready c_buffer) =>
          add_log [Bind t c_buffer] (set_pc t (Running c_buffer 0) s)
      | _ => s
      end
  | Folding c_buffer i =>
      if Nat.ltb i n then
        if nth i is_constant_ false then
          mk_state (cache s) (<[t := Folding c_buffer (S i)]> (pcs s))
                   (next_buffer s)
                   (<[c_buffer := contents s !!! c_buffer ++ [i]]>
                      (contents s))
                   (log s ++ [ConstExec t i])
        else set_pc t (Folding c_buffer (S i)) s
      else
        mk_state (Some (Ready c_buffer)) (<[t := Running c_buffer 0]> (pcs s))
                 (next_buffer s) (contents s) (log s)
  | Running c_buffer i =>
      if Nat.ltb i n then
        if nth i is_constant_ false
        then set_pc t (Running c_buffer (S i)) s
        else add_log [Exec t i] (set_pc t (Running c_buffer (S i)) s)
      else set_pc t Idle s
  end.

(** An interleaving is the list of the threads that move, in order. *)
Definition run_schedule (is_constant_ : list bool) (sched : list tid)
    (s : state) : state :=
  foldl (λ acc t, thread_step is_constant_ t acc) s sched.

(** The executions of constant ops: who ran which. *)
Definition const_execs (l : list event) : list (tid * nat) :=
  omap (λ e, match e with ConstExec t i => Some (t, i) | _ => None end) l.


Definition installers (l : list event) : list tid :=
  omap (λ e, match e with Install t => Some t | _ => None end) l.

Definition bound_buffers (l : list event) : list buffer_id :=
  omap (λ e, match e with Bind _ b => Some b | _ => None end) l.

(** The constant-marked indices in schedule order. *)
Definition constant_ops (is_constant_ : list bool) (k : nat) : list nat :=
  List.filter (λ j, nth j is_constant_ false) (seq 0 k).

(** The executables thread [t] has called, constant or not, in order. *)
Definition execs_of (t : tid) (l : list event) : list nat :=
  omap (λ e, match e with
             | ConstExec t' i | Exec t' i =>
                 if Nat.eqb t t' then Some i else None
             | _ => None
             end) l.

(** The invariant of the rendezvous, by the state of the cache entry:
    - no entry: no thread is inside [execute_impl] and nothing has run;
    - pending: exactly one thread, the installer, is in the loop over the
      constant ops, at index [i]; it has run the constant ops below [i]
      into its buffer, and everyone else is outside or blocked;
    - ready with buffer [b]: nobody is in the loop over the constant ops,
      the installer has run all of them once into [b], and every buffer
      bound so far is [b]. *)
Definition fold_invariant (is_constant_ : list bool) (s : state) : Prop :=
  let n := length is_constant_ in
  match cache s with
  | None => (∀ t, pcs s !!! t = Idle) ∧ log s = []
  | Some Pending =>
      ∃ t0 b i,
        pcs s !!! t0 = Folding b i ∧ i ≤ n
        ∧ (∀ t, t ≠ t0 → pcs s !!! t = Idle ∨ pcs s !!! t = Waiting)
        ∧ installers (log s) = [t0]
        ∧ const_execs (log s) = map (pair t0) (constant_ops is_constant_ i)
        ∧ contents s !!! b = constant_ops is_constant_ i
        ∧ bound_buffers (log s) = [b]
  | Some (Ready b) =>
      (∀ t, pcs s !!! t = Idle ∨ pcs s !!! t = Waiting
            ∨ ∃ i, pcs s !!! t = Running b i)
      ∧ ∃ t0,
          installers (log s) = [t0]
          ∧ const_execs (log s) = map (pair t0) (constant_ops is_constant_ n)
          ∧ contents s !!! b = constant_ops is_constant_ n
          ∧ (∀ b', b' ∈ bound_buffers (log s) → b' = b)
  end.


End ConstantCache.

(** ** The tick-based buffer scheduler *)

Module BufferSchedule.

Local Open Scope Z_scope.

(** A temporary buffer with its size in bytes, its first-access tick and
    its last-read tick. *)
Record buffer_t : Type := mk_buffer {
  buf_size : N;
  first_access : Z;
  last_read : Z;
}.

(** A storage area handed out so far: its size and the last-read tick of
    the buffers placed in it. *)
Record slot_t : Type := mk_slot {
  slot_size : N;
  slot_last_read : Z;
}.

#[global] Instance slot_inhabited : Inhabited slot_t :=
  populate (mk_slot 0%N 0).

(** Modelled from the spec: the implementation of [buffer_scheduler_t]
    is missing.  Every op gets a tick by its position in the schedule;
    the first-use and last-use tick of a buffer are the first and the
    last position that names it. *)
Definition uses (schedule : list (list nat)) (b : nat) : list Z :=
  omap (λ p, if bool_decide (b ∈ snd p) then Some (Z.of_nat (fst p))
             else None)
       (imap (λ i bs, (i, bs)) schedule).

Definition first_use (schedule : list (list nat)) (b : nat) : Z :=
  default 0 (head (uses schedule b)).

Definition last_use (schedule : list (list nat)) (b : nat) : Z :=
  default 0 (last (uses schedule b)).

(** The buffers of a schedule: buffer [b] has the size [sizes[b]] and
    lives from its first to its last use. *)
Definition buffers_of (schedule : list (list nat)) (sizes : list N)
    : list buffer_t :=
  imap (λ b sz, mk_buffer sz (first_use schedule b) (last_use schedule b))
       sizes.

(** Modelled from the spec: the candidate of step 4 of the header
    comment, [cur.FAT > candidate.LRT]; the first storage area that
    qualifies is taken. *)
Fixpoint find_candidate (cur : buffer_t) (slots : list slot_t)
    : option nat :=
  match slots with
  | [] => None
  | c :: rest =>
      if Z.ltb (slot_last_read c) (first_access cur) then Some 0%nat
      else S <$> find_candidate cur rest
  end.

(** Modelled from the spec: "replace cur with the candidate" and, step 5,
    "if cur is larger than candidate in size, extend candidate".  The
    candidate then stands for both buffers and is read until the later of
    the two last-read ticks.  Without a candidate the buffer gets a
    storage area of its own. *)
Definition schedule_buffer (st : list slot_t * list nat) (cur : buffer_t)
    : list slot_t * list nat :=
  let '(slots, assigned) := st in
  match find_candidate cur slots with
  | Some k =>
      let c := slots !!! k in
      (<[k := mk_slot (N.max (slot_size c) (buf_size cur))
                      (Z.max (slot_last_read c) (last_read cur))]> slots,
       assigned ++ [k])
  | None =>
      (slots ++ [mk_slot (buf_size cur) (last_read cur)],
       assigned ++ [length slots])
  end.

(** The buffers are scheduled one after the other, in the order they are
    given; the result is the storage areas and, for every buffer, the
    index of its area. *)
Definition schedule_buffers (bufs : list buffer_t)
    : list slot_t * list nat :=
  foldl schedule_buffer ([], []) bufs.

(** Modelled from the spec: the storage areas are packed one after the
    other into the temporary arena; the grantor maps a buffer to the
    offset of its area, and the arena is as large as all areas. *)
Definition slot_offset (slots : list slot_t) (k : nat) : N :=
  foldr N.add 0%N (map slot_size (take k slots)).

Definition offsets (bufs : list buffer_t) : list N :=
  let '(slots, assigned) := schedule_buffers bufs in
  map (slot_offset slots) assigned.

Definition total_size (bufs : list buffer_t) : N :=
  let '(slots, _) := schedule_buffers bufs in
  slot_offset slots (length slots).

(** The liveness intervals [first_access, last_read] of two buffers
    share a tick. *)
Definition lifetimes_overlap (a b : buffer_t) : Prop :=
  first_access a ≤ last_read b ∧ first_access b ≤ last_read a.

(** The byte ranges [[o1, o1 + s1)] and [[o2, o2 + s2)] share a byte. *)
Definition ranges_overlap (o1 s1 o2 s2 : N) : Prop :=
  ∃ x, (o1 ≤ x < o1 + s1 ∧ o2 ≤ x < o2 + s2)%N.

(** What holds after the buffers [bs] have been scheduled: every buffer
    fits the storage area it was given, and of two buffers in one area the
    later one is first accessed after the last read of the earlier. *)
Definition plan_invariant (bs : list buffer_t) (slots : list slot_t)
    (assigned : list nat) : Prop :=
  length assigned = length bs
  ∧ (∀ i b k, bs !! i = Some b → assigned !! i = Some k →
       (k < length slots)%nat
       ∧ (buf_size b ≤ slot_size (slots !!! k))%N
       ∧ last_read b ≤ slot_last_read (slots !!! k))
  ∧ (∀ i j bi bj k, (i < j)%nat →
       bs !! i = Some bi → bs !! j = Some bj →
       assigned !! i = Some k → assigned !! j = Some k →
       last_read bi < first_access bj).

(** The scenario of the spec: 100 bytes used in ticks 0-2, 50 bytes used
    in ticks 3-5; and a third buffer alive across both. *)
Definition scenario : list buffer_t :=
  [mk_buffer 100 0 2; mk_buffer 50 3 5].

Definition scenario_with_long_buffer : list buffer_t :=
  [mk_buffer 100 0 2; mk_buffer 50 3 5; mk_buffer 10 1 4].

End BufferSchedule.

(** ** A small graph used in the examples

    [op 1] reads value [10] and writes value [11]; [op 2] reads [11] and
    writes [12].  All three tensors are dense [2 x 3] row-major. *)

Module Examples.

Definition dense_2x3 (id : N) : logical_tensor_t :=
  mk_lt id 2%Z [2; 3]%Z lt_strided [3; 1]%Z.

Definition ex_ops : gmap op_ptr op_t :=
  <[1 := mk_op 101%N 7%N [] [10] [11] None]>
    (<[2 := mk_op 102%N 8%N [] [11] [12] None]> ∅).

Definition ex_vals : gmap val_ptr value_t :=
  <[10 := mk_value (dense_2x3 10%N) None [(1, 0)]]>
    (<[11 := mk_value (dense_2x3 11%N) (Some 1) [(2, 0)]]>
       (<[12 := mk_value (dense_2x3 12%N) (Some 2) []]> ∅)).

Definition ex_heap : heap := mk_heap ex_ops ex_vals ∅.

Definition ex_graph : graph_t := mk_graph [1; 2] 0%N [].

(** A registry without any schema. *)
Definition no_schema : op_kind_t → option op_schema_t := λ _, None.

(** A registry whose only schema accepts every op and infers nothing. *)
Definition lax_schema : op_schema_t :=
  mk_schema (λ o, o) (λ _, true) (λ _ _ outs, (success, outs)).

Definition lax_registry : op_kind_t → option op_schema_t :=
  λ _, Some lax_schema.

Definition negative_ndims (lt : logical_tensor_t) : bool :=
  Z.ltb (lt_ndims lt) 0.

(** The producer [1] is visited before its consumer [2]. *)
Definition ex_topo_order : heap → list op_ptr → list op_ptr :=
  λ _ _, [1; 2].





(** A framework op carrying the id of [op 1]. *)
Definition ex_new_op : op_t := mk_op 101%N 9%N [] [12] [13] None.

(** A kernel over a counter: op [0] fails with [unsupported], op [1]
    counts; neither is constant and the constant cache is off. *)
Definition declining_kernel : Kernel.matmul_t nat unit unit :=
  Kernel.mk_matmul nat unit unit false [false; false]
    [λ w, Kernel.Raised nat unsupported w; λ w, Kernel.Done nat (S w)]
    (λ _ _ w, w) (λ w, w) (λ w, (tt, w)) (λ _ w, w).

(** A kernel over a counter with the constant cache on and the schedule
    [constant; not constant; constant]. *)
Definition caching_kernel : Kernel.matmul_t nat unit unit :=
  Kernel.mk_matmul nat unit unit true [true; false; true]
    [λ w, Kernel.Done nat (S w); λ w, Kernel.Done nat (S w);
     λ w, Kernel.Done nat (S w)]
    (λ _ _ w, w) (λ w, w) (λ w, (tt, w)) (λ _ w, w).

End Examples.

(** ** The encoded data format kind of the graph compiler *)

Module DataFormat.

Local Open Scope Z_scope.

Definition NUM_SLOTS : Z := 16.
Definition MAX_DIMS : Z := NUM_SLOTS - 1.
(** [sizeof(uint64_t) * 8 / NUM_SLOTS] *)
Definition BITS_PER_SLOT : Z := 8 * 8 / NUM_SLOTS.
Definition UNDEF_DIM : Z := Z.shiftl 1 BITS_PER_SLOT - 1.

(** The conversion to [uint64_t], and what a [uint64_t] operation keeps
    of its mathematical result. *)
Definition uint64 (z : Z) : Z := z mod 2 ^ 64.

Record sc_data_format_kind_t : Type := mk_kind {
  storage_ : Z;
}.

(** The default constructor. *)
Definition default_kind : sc_data_format_kind_t :=
  mk_kind 0xffffffffffffffff.

Definition get (k : sc_data_format_kind_t) (idx : Z) : Z :=
  Z.land 0xf (Z.shiftr (storage_ k) (idx * BITS_PER_SLOT)).

Definition get_control_block (k : sc_data_format_kind_t) : Z :=
  get k MAX_DIMS.

Definition is_batch_format (k : sc_data_format_kind_t) : bool :=
  Z.eqb (get_control_block k) 1.

(** [data] is an [int]; [uint64_t(data)] extends its sign. *)
Definition set_ith_int (oldv idx data : Z) : Z :=
  Z.lor
    (Z.land oldv
       (uint64 (Z.lnot (uint64 (Z.shiftl (uint64 UNDEF_DIM)
                                          (idx * BITS_PER_SLOT))))))
    (uint64 (Z.shiftl (uint64 data) (idx * BITS_PER_SLOT))).

Definition set (k : sc_data_format_kind_t) (idx data : Z)
    : sc_data_format_kind_t :=
  mk_kind (set_ith_int (storage_ k) idx data).

(** The two overloads of [make_storage<start>]: the pack [v, args...]
    is never empty. *)
Fixpoint make_storage (start : Z) (oldv : Z) (v : Z) (args : list Z) : Z :=
  match args with
  | [] => set_ith_int oldv start v
  | v' :: args' => make_storage (start + 1) (set_ith_int oldv start v) v' args'
  end.

(** The constructor [sc_data_format_kind_t(bool is_batch, Args... args)],
    used with at least one axis. *)
Definition make_kind (is_batch : bool) (v : Z) (args : list Z)
    : sc_data_format_kind_t :=
  mk_kind (make_storage 0
             (set_ith_int 0xffffffffffffffff MAX_DIMS (Z.b2z is_batch))
             v args).

Definition kind_eqb (k other : sc_data_format_kind_t) : bool :=
  Z.eqb (storage_ k) (storage_ other).

(** Entries of [format_kinds]. *)
Definition any : sc_data_format_kind_t := mk_kind 0xffffffffffffffff.
Definition ABCD : sc_data_format_kind_t := make_kind false 0 [1; 2; 3].
Definition ABCDb : sc_data_format_kind_t := make_kind false 0 [1; 2; 3; 1].
Definition X_YZyz : sc_data_format_kind_t := make_kind true 0 [1; 0; 1].
Definition NCHWc : sc_data_format_kind_t := ABCDb.

(** The storage is a 64-bit value. *)
Definition in_range (k : sc_data_format_kind_t) : Prop :=
  0 ≤ storage_ k < 2 ^ 64.

End DataFormat.

(** ** Utilities of the DNNL backend ([backend/dnnl/utils.hpp]) *)

Module DnnlUtils.

(** [std::swap(a[j], a[j + 1])]; both positions lie inside the array in
    every call the sort makes on arrays of [size] elements. *)
Definition swap_adjacent {A} (j : nat) (a : list A) : list A :=
  match a !! j, a !! S j with
  | Some x, Some y => <[S j := x]> (<[j := y]> a)
  | _, _ => a
  end.

Section SimultaneousSort.

Context {T U : Type} `{!Inhabited T}.

(** The comparator returns a signed number; only its sign is read. *)
Variable comparator : T → T → Z.

(** The body of the loop over [j]; [keys] is [None] for a null
    pointer. *)
Definition sort_step (st : list T * option (list U) * bool) (j : nat)
    : list T * option (list U) * bool :=
  let '(vals, keys, swapped) := st in
  if (0 <? comparator (vals !!! j) (vals !!! S j))%Z
  then (swap_adjacent j vals, swap_adjacent j <$> keys, true)
  else (vals, keys, swapped).

(** The loop over [j] of round [i]; [swapped] starts as [false]. *)
Definition sort_round (size i : nat) (vals : list T)
    (keys : option (list U)) : list T * option (list U) * bool :=
  foldl sort_step (vals, keys, false) (seq 0 (size - i - 1)).

(** The loop over [i], from round [i] on; [n] rounds are left before
    [i] reaches [size - 1]. *)
Fixpoint sort_rounds (size i n : nat) (vals : list T)
    (keys : option (list U)) : list T * option (list U) :=
  match n with
  | O => (vals, keys)
  | S n' =>
      let '(vals', keys', swapped) := sort_round size i vals keys in
      if negb swapped then (vals', keys')
      else sort_rounds size (S i) n' vals' keys'
  end.

(** [simultaneous_sort(vals, keys, size, comparator)].  With
    [size != 0] the unsigned [size - 1] does not wrap. *)
Definition simultaneous_sort (vals : list T) (keys : option (list U))
    (size : nat) : list T * option (list U) :=
  if Nat.eqb size 0 then (vals, keys)
  else sort_rounds size 0 (size - 1) vals keys.

(** The overload with a second level of comparison. *)
Definition sort_step_2nd (st : list T * list T * list U * bool) (j : nat)
    : list T * list T * list U * bool :=
  let '(vals, vals_2nd_level, keys, swapped) := st in
  let res := comparator (vals !!! j) (vals !!! S j) in
  let res := if (res =? 0)%Z
             then comparator (vals_2nd_level !!! j) (vals_2nd_level !!! S j)
             else res in
  if (0 <? res)%Z
  then (swap_adjacent j vals, swap_adjacent j vals_2nd_level,
        swap_adjacent j keys, true)
  else (vals, vals_2nd_level, keys, swapped).

Definition sort_round_2nd (size i : nat) (vals vals_2nd_level : list T)
    (keys : list U) : list T * list T * list U * bool :=
  foldl sort_step_2nd (vals, vals_2nd_level, keys, false)
        (seq 0 (size - i - 1)).

Fixpoint sort_rounds_2nd (size i n : nat) (vals vals_2nd_level : list T)
    (keys : list U) : list T * list T * list U :=
  match n with
  | O => (vals, vals_2nd_level, keys)
  | S n' =>
      let '(vals', vals_2nd', keys', swapped) :=
        sort_round_2nd size i vals vals_2nd_level keys in
      if negb swapped then (vals', vals_2nd', keys')
      else sort_rounds_2nd size (S i) n' vals' vals_2nd' keys'
  end.

Definition simultaneous_sort_2nd (vals vals_2nd_level : list T)
    (keys : list U) (size : nat) : list T * list T * list U :=
  if Nat.eqb size 0 then (vals, vals_2nd_level, keys)
  else sort_rounds_2nd size 0 (size - 1) vals vals_2nd_level keys.

End SimultaneousSort.

(** *** Vocabulary of the properties of the sort *)

(** The same loops on one array of records, [swap] telling whether two
    neighbours are exchanged. *)
Section Bubble.

Context {X : Type}.
Variable swap : X → X → bool.

Definition bubble_step (st : list X * bool) (j : nat) : list X * bool :=
  match st.1 !! j, st.1 !! S j with
  | Some a, Some b => if swap a b then (swap_adjacent j st.1, true) else st
  | _, _ => st
  end.

Definition bubble_round (size i : nat) (l : list X) : list X * bool :=
  foldl bubble_step (l, false) (seq 0 (size - i - 1)).

Fixpoint bubble_rounds (size i n : nat) (l : list X) : list X :=
  match n with
  | O => l
  | S n' =>
      let '(l', swapped) := bubble_round size i l in
      if negb swapped then l' else bubble_rounds size (S i) n' l'
  end.

Definition bubble (size : nat) (l : list X) : list X :=
  if Nat.eqb size 0 then l else bubble_rounds size 0 (size - 1) l.

(** No element is exchanged with one that stands after it. *)
Definition in_order (l : list X) : Prop :=
  ∀ a b x y, (a < b)%nat → l !! a = Some x → l !! b = Some y →
             swap x y = false.

End Bubble.

(** The decisions the two overloads take on a pair of neighbours. *)
Definition swap_by {T U} (comparator : T → T → Z) (x y : T * U) : bool :=
  (0 <? comparator x.1 y.1)%Z.

Definition swap_by_2nd {T U} (comparator : T → T → Z) (x y : T * T * U)
    : bool :=
  let res := comparator x.1.1 y.1.1 in
  (0 <? (if (res =? 0)%Z then comparator x.1.2 y.1.2 else res))%Z.

(** The order of the second overload: by the first level, and by the
    second level where the first level compares equal. *)
Definition lex_le {T} (comparator : T → T → Z) (x y : T * T) : Prop :=
  (comparator x.1 y.1 < 0
   ∨ (comparator x.1 y.1 = 0 ∧ comparator x.2 y.2 ≤ 0))%Z.

(** The comparator of [dnnl_layout_id_manager_t::set_mem_desc]. *)
Definition descending (a b : Z) : Z := (b - a)%Z.

Local Open Scope Z_scope.


(** [uintptr_t] and [size_t] are 64-bit and unsigned: [bytes - 1]
    wraps for [bytes = 0]. *)
Definition mod_ptr (ptr bytes : Z) : Z :=
  Z.land ptr ((bytes - 1) mod 2 ^ 64).

Definition is_aligned_ptr (ptr bytes : Z) : bool :=
  Z.eqb (mod_ptr ptr bytes) 0.

(** [axis] is an [int64_t], [rank] an [int32_t] widened for the sum and
    for the comparison. *)
Definition try_reverse_axis (axis rank : Z) : bool * Z :=
  let new_axis := if axis <? 0 then rank + axis else axis in
  if (new_axis <? 0) || (new_axis >=? rank) then (false, axis)
  else (true, new_axis).

Definition op_scale_mask (scale_size : Z) : Z :=
  if 1 <? scale_size then 2 else 0.

Definition tensor_scale_mask (scale_size : Z) (grouped : bool) : Z :=
  if 1 <? scale_size then (if grouped then 3 else 1) else 0.

Definition tensor_zp_mask (zp_size : Z) : Z :=
  if 1 <? zp_size then 1 else 0.

(** Example arrays: strides, outer blocks and dimension letters. *)
Definition ex_strides : list Z := [1; 12; 4; 12].
Definition ex_ou_blocks : list Z := [4; 2; 3; 5].
Definition ex_dim_chars : list string := ["a"; "b"; "c"; "d"]%string.

End DnnlUtils.

(** ** Invariants of the op list of a graph *)

Module GraphInvariants.

(** No two ops of the graph carry the same id. *)
Definition ids_unique (g : graph_t) (h : heap) : Prop :=
  NoDup (map (λ op, op_id (get_op h op)) (ops_ g)).

(** Every op pointer of the graph is a live op object, and no pointer
    occurs twice in [ops_]. *)
Definition ops_live (g : graph_t) (h : heap) : Prop :=
  NoDup (ops_ g) ∧ ∀ op, op ∈ ops_ g → op ∈ dom (ops_mem h).

(** The schema's default attributes leave the id of an op alone. *)
Definition defaults_keep_id (get_op_schema : op_kind_t → option op_schema_t)
    : Prop :=
  ∀ kind opm o, get_op_schema kind = Some opm →
                op_id (set_default_attribute opm o) = op_id o.

(** The copy [tmp_ln] that [add_op] stores for [n]. *)
Definition stored_copy (get_op_schema : op_kind_t → option op_schema_t)
    (n : op_t) : op_t :=
  match get_op_schema (op_kind n) with
  | Some opm => set_default_attribute opm n
  | None => n
  end.

(** [add_op] accepts [n]: it has no schema, or its copy verifies. *)
Definition accepted (get_op_schema : op_kind_t → option op_schema_t)
    (n : op_t) : bool :=
  match get_op_schema (op_kind n) with
  | Some opm => verify opm (set_default_attribute opm n)
  | None => true
  end.

(** A framework op with a new id whose output is the value [12]. *)
Definition ex_fresh_op : op_t := mk_op 103%N 9%N [] [12] [12] None.

End GraphInvariants.

(** ** Helpers of the DNNL passes ([backend/dnnl/passes/utils.hpp]) *)

Module PassUtils.

Local Open Scope Z_scope.

(** The conversion of an [int64_t] to [int]: the low 32 bits, read as a
    signed number. *)
Definition to_int (z : Z) : Z := (z + 2 ^ 31) mod 2 ^ 32 - 2 ^ 31.

(** [std::accumulate(first, last, 1, std::multiplies<dim_t>())]: the
    initial value [1] is an [int], so the accumulator is an [int] and
    each 64-bit product is converted back to [int]. *)
Definition accumulate_int (l : list Z) : Z :=
  foldl (λ acc x, to_int (acc * x)) 1 l.

(** [get_dense_strides]: [strides[dist]] is the accumulated product of
    the dimensions after position [dist]. *)
Definition get_dense_strides (shape : list Z) : list Z :=
  map (λ dist, accumulate_int (drop (S dist) shape))
      (seq 0 (length shape)).

(** The product of the dimensions, without any wrap-around. *)
Definition product (l : list Z) : Z := foldr Z.mul 1 l.

(** A strided logical tensor of shape [shape] whose strides are the
    dense ones. *)
Definition dense_tensor (id : N) (shape : list Z) : logical_tensor_t :=
  mk_lt id (Z.of_nat (length shape)) shape lt_strided
        (get_dense_strides shape).

End PassUtils.

(** ** The kernel registry of the DNNL backend *)

Module KernelRegistry.

Section WithKernel.

(** [kernel_ptr], a shared pointer to a kernel; [null] is the empty
    one. *)
Variable kernel_ptr : Type.
Variable null : kernel_ptr.

(** [kernel_creator_f], a function without arguments. *)
Definition kernel_creator_f : Type := unit → kernel_ptr.

Record kernel_registry_t : Type := mk_registry {
  kernel_creator_f_map_ : gmap op_kind_t kernel_creator_f;
}.

(** [kernel_registry_t()] *)
Definition new_registry : kernel_registry_t := mk_registry ∅.

(** [unordered_map::insert] leaves an entry that exists as it is. *)
Definition register_kernel (op_kind : op_kind_t) (fn : kernel_creator_f)
    (r : kernel_registry_t) : bool * kernel_registry_t :=
  (true,
   mk_registry (match kernel_creator_f_map_ r !! op_kind with
                | Some _ => kernel_creator_f_map_ r
                | None => <[op_kind := fn]> (kernel_creator_f_map_ r)
                end)).

Definition create_kernel (r : kernel_registry_t) (aop : op_t)
    : kernel_ptr :=
  match kernel_creator_f_map_ r !! op_kind aop with
  | None => null
  | Some create_fn => create_fn tt
  end.

Definition get_register_kernels_num (r : kernel_registry_t) : nat :=
  size (kernel_creator_f_map_ r).

(** *** Vocabulary of the properties *)

(** The registry after the registrations [regs], made in order. *)
Definition register_all (regs : list (op_kind_t * kernel_creator_f))
    (r : kernel_registry_t) : kernel_registry_t :=
  foldl (λ r p, (register_kernel p.1 p.2 r).2) r regs.

(** The creator of the first registration of [kind] in [regs]. *)
Fixpoint first_creator (kind : op_kind_t)
    (regs : list (op_kind_t * kernel_creator_f))
    : option kernel_creator_f :=
  match regs with
  | [] => None
  | p :: rest =>
      if decide (p.1 = kind) then Some p.2 else first_creator kind rest
  end.

End WithKernel.

End KernelRegistry.

(** ** The manager of primitive attributes *)

Module PrimitiveAttrMgr.

Local Open Scope Z_scope.

Section WithAttr.

(** [dnnl::primitive_attr] and the default constructed one. *)
Variable primitive_attr : Type.
Variable default_attr : primitive_attr.

Record primitive_attr_mgr_t : Type := mk_mgr {
  data_ : gmap Z primitive_attr;
  counter : Z;
}.

Definition new_mgr : primitive_attr_mgr_t := mk_mgr ∅ 0.

(** [data_.insert({counter++, dnnl::primitive_attr()})] leaves an entry
    that exists as it is, and [ret.first->first] is the key either way;
    [counter] is an [int64_t]. *)
Definition init_attr (m : primitive_attr_mgr_t)
    : Z * primitive_attr_mgr_t :=
  let key := counter m in
  (key,
   mk_mgr (match data_ m !! key with
           | Some _ => data_ m
           | None => <[key := default_attr]> (data_ m)
           end)
          (Partitioner.wrap_int64 (key + 1))).

(** [get_attr]: the assertion rejects the key [-1] ([None]); otherwise
    [data_[key]] makes a default entry for a key that has none, and a
    reference to the entry is returned: the result is the attribute
    the reference gives and the manager afterwards. *)
Definition get_attr (key : Z) (m : primitive_attr_mgr_t)
    : option (primitive_attr * primitive_attr_mgr_t) :=
  if decide (key = -1) then None
  else
    match data_ m !! key with
    | Some a => Some (a, m)
    | None =>
        Some (default_attr,
              mk_mgr (<[key := default_attr]> (data_ m)) (counter m))
    end.

(** A write through the reference that [get_attr key] returned. *)
Definition write_attr (key : Z) (a : primitive_attr)
    (m : primitive_attr_mgr_t) : primitive_attr_mgr_t :=
  mk_mgr (<[key := a]> (data_ m)) (counter m).

(** *** Vocabulary of the properties *)

(** Every key in use was handed out by [init_attr]. *)
Definition keys_below (m : primitive_attr_mgr_t) : Prop :=
  0 ≤ counter m
  ∧ ∀ k, k ∈ dom (data_ m) → 0 ≤ k < counter m.

End WithAttr.

End PrimitiveAttrMgr.

(** ** The reduce ops of c10d ([torch/csrc/distributed/c10d/Types.hpp]) *)

Module ReduceOps.

Inductive Kind : Type :=
  | SUM | AVG | PRODUCT | MIN | MAX | BAND | BOR | BXOR | PREMUL_SUM
  | UNUSED.

#[global] Instance Kind_eq_dec : EqDecision Kind.
Proof. solve_decision. Defined.

(** The [uint8_t] value of the enumerator. *)
Definition kind_value (k : Kind) : N :=
  match k with
  | SUM => 0 | AVG => 1 | PRODUCT => 2 | MIN => 3 | MAX => 4
  | BAND => 5 | BOR => 6 | BXOR => 7 | PREMUL_SUM => 8 | UNUSED => 9
  end%N.

Section WithSupplement.

(** The objects derived from [_SupplementBase]; a
    [std::shared_ptr<_SupplementBase>] is such an object or null. *)
Variable supplement : Type.

Record ReduceOp : Type := mk_ReduceOp {
  op_ : Kind;
  supplement_ : option supplement;
}.

(** [ReduceOp()], with the default member initializers. *)
Definition ReduceOp_default : ReduceOp := mk_ReduceOp SUM None.

(** [ReduceOp(Kind op)]; a failing [TORCH_INTERNAL_ASSERT] throws, and
    no object is built ([None]). *)
Definition ReduceOp_of_kind (op : Kind) : option ReduceOp :=
  if decide (op = PREMUL_SUM) then None else Some (mk_ReduceOp op None).

(** [ReduceOp(Kind op, std::shared_ptr<_SupplementBase>
    optional_supplement)] *)
Definition ReduceOp_with_supplement (op : Kind)
    (optional_supplement : option supplement) : option ReduceOp :=
  match optional_supplement with
  | Some _ => Some (mk_ReduceOp op None)
  | None =>
      if decide (op = PREMUL_SUM)
      then Some (mk_ReduceOp PREMUL_SUM optional_supplement)
      else None
  end.

(** [makeNCCLPreMulSum(factor)]; [s] is the new
    [NCCLPreMulSumSupplement(factor)]. *)
Definition makeNCCLPreMulSum (s : supplement) : ReduceOp :=
  mk_ReduceOp PREMUL_SUM (Some s).

(** [operator Kind()] *)
Definition to_Kind (r : ReduceOp) : Kind := op_ r.

(** [operator==(const std::uint8_t other)] *)
Definition eq_uint8 (r : ReduceOp) (other : N) : option bool :=
  if (other <? 9)%N then Some (N.eqb other (kind_value (op_ r)))
  else None.

End WithSupplement.

End ReduceOps.

(** ** The type-erased value [any_t] ([utils/compatible.hpp]) *)

Module Any.

Section WithValues.

(** The [std::type_info] of the stored types, of which only equality is
    used, and the stored values. *)
Context {type_id : Type} `{!EqDecision type_id}.
Variable value : Type.

(** The addresses of the [vtable_t<T>] objects.  The store, written
    [h], maps the address of an object to its type and its [value_];
    an object lives as long as a shared pointer holds it, and the
    store keeps them all. *)
Definition obj := nat.

(** [avtable_]; [None] is the null pointer. *)
Definition any_t : Type := option obj.

(** [any_t()] *)
Definition any_default : any_t := None.

(** [any_t(T &&v)]: [std::make_shared<vtable_t<value_type>>(v)] makes a
    new object. *)
Definition any_of (T : type_id) (v : value) (h : gmap obj (type_id * value))
    : any_t * gmap obj (type_id * value) :=
  let o := fresh (dom h) in (Some o, <[o := (T, v)]> h).

(** [any_t(const any_t &v)]: the pointer is copied, not the object. *)
Definition any_copy (v : any_t) : any_t := v.

(** [any_t(any_t &&v)]: the new object and what is left of [v]. *)
Definition any_move (v : any_t) : any_t * any_t := (v, None).

(** [a.swap(v)]: the two objects afterwards. *)
Definition swap (a v : any_t) : any_t * any_t := (v, a).

Definition clear (a : any_t) : any_t :=
  match a with Some _ => None | None => a end.

Definition empty (a : any_t) : bool :=
  match a with None => true | Some _ => false end.

(** [operator=(const any_t &v)]: [any_t(v).swap( *this)]. *)
Definition assign (this v : any_t) : any_t :=
  (swap (any_copy v) this).2.

(** [operator=(any_t &&v)]: [v.swap( *this); any_t().swap(v)]; the
    object and what is left of [v]. *)
Definition assign_move (this v : any_t) : any_t * any_t :=
  let '(v1, this1) := swap v this in
  let '(_, v2) := swap any_default v1 in
  (this1, v2).

(** [type()]; [None] is [typeid(void)]. *)
Definition type (a : any_t) (h : gmap obj (type_id * value)) : option type_id :=
  match a with
  | Some o => fst <$> (h !! o)
  | None => None
  end.

(** [any_cast<T>(any_t *v)]: a pointer to [value_], known by the
    object it lies in, or null; [v] itself may be null. *)
Definition any_cast_ptr (T : type_id) (v : option any_t) (h : gmap obj (type_id * value))
    : option obj :=
  match v with
  | Some a => if decide (type a h = Some T) then a else None
  | None => None
  end.

(** [any_cast<T>(any_t &v)]: the value, or [bad_any_cast_t] is thrown
    ([None]). *)
Definition any_cast (T : type_id) (v : any_t) (h : gmap obj (type_id * value))
    : option value :=
  match any_cast_ptr T (Some v) h with
  | Some o => snd <$> (h !! o)
  | None => None
  end.

(** An assignment [*p = x] through a pointer that [any_cast<T>(&v)]
    returned. *)
Definition write (p : obj) (x : value) (h : gmap obj (type_id * value))
    : gmap obj (type_id * value) :=
  alter (λ tv, (tv.1, x)) p h.

End WithValues.

End Any.

(** * Properties *)

Lemma is_success_true s : is_success s = true ↔ s = success.
Proof. destruct s; simpl; split; intros; congruence. Qed.

Lemma is_success_false s : is_success s = false ↔ s ≠ success.
Proof. destruct s; simpl; split; intros; congruence. Qed.

(** ** The layout-id manager *)

Section LayoutIdManagerFacts.

Import LayoutIdManager.

Context {mem_desc : Type}.
Variable is_mem_desc_equal : mem_desc → mem_desc → bool.

(** The comparison of memory descriptors is an equivalence. *)
Hypothesis equal_refl : ∀ a, is_mem_desc_equal a a = true.
Hypothesis equal_sym :
  ∀ a b, is_mem_desc_equal a b = true → is_mem_desc_equal b a = true.
Hypothesis equal_trans :
  ∀ a b c, is_mem_desc_equal a b = true → is_mem_desc_equal b c = true →
           is_mem_desc_equal a c = true.

Lemma find_if_le (f : mem_desc → bool) l : find_if mem_desc f l ≤ length l.
Proof. induction l as [|m l IH]; simpl; [lia|]. destruct (f m); lia. Qed.

Lemma find_if_found (f : mem_desc → bool) l :
  find_if mem_desc f l < length l →
  ∃ m, l !! find_if mem_desc f l = Some m ∧ f m = true.
Proof.
  induction l as [|m l IH]; simpl; [lia|].
  destruct (f m) eqn:Hf; [eauto|].
  intros Hlt. apply IH. lia.
Qed.

Lemma find_if_none (f : mem_desc → bool) l :
  find_if mem_desc f l = length l → ∀ m, m ∈ l → f m = false.
Proof.
  induction l as [|x l IH]; simpl; intros Heq m Hin.
  - by apply elem_of_nil in Hin.
  - destruct (f x) eqn:Hf; [discriminate|].
    apply elem_of_cons in Hin as [->|Hin]; [done|].
    apply IH; [lia|done].
Qed.

Lemma find_if_ext (f g : mem_desc → bool) l :
  (∀ m, m ∈ l → f m = g m) → find_if mem_desc f l = find_if mem_desc g l.
Proof.
  induction l as [|x l IH]; simpl; intros Hfg; [done|].
  rewrite <- (Hfg x) by apply list_elem_of_here.
  destruct (f x); [done|].
  f_equal. apply IH. intros m Hm. apply Hfg. by apply list_elem_of_further.
Qed.

Lemma find_if_app_last (f : mem_desc → bool) l x :
  (∀ m, m ∈ l → f m = false) → f x = true →
  find_if mem_desc f (l ++ [x]) = length l.
Proof.
  induction l as [|y l IH]; simpl; intros Hl Hx.
  - by rewrite Hx.
  - rewrite (Hl y) by apply list_elem_of_here.
    f_equal. apply IH; [|done].
    intros m Hm. apply Hl. by apply list_elem_of_further.
Qed.

Lemma equal_same_class md md' m :
  is_mem_desc_equal md md' = true →
  is_mem_desc_equal m md' = is_mem_desc_equal m md.
Proof using equal_sym equal_trans.
  intros Heq.
  destruct (is_mem_desc_equal m md) eqn:H1.
  - by apply equal_trans with md.
  - destruct (is_mem_desc_equal m md') eqn:H2; [|done].
    rewrite <- H1. symmetry. apply equal_trans with md'; [done|].
    by apply equal_sym.
Qed.

(** C10: [set_mem_desc md] yields an id under which [get_mem_desc] finds
    a descriptor equal to [md]; a second [set_mem_desc] with a descriptor
    equal to [md] yields the same id and leaves the table as it is; an
    id at or beyond the size of the table yields the empty optional. *)
Theorem layout_id_roundtrip_dedup (md : mem_desc) (data_ : list mem_desc) :
  ∃ layout_id data',
    set_mem_desc mem_desc is_mem_desc_equal md data_ = (Some layout_id, data')
    ∧ (∃ m, get_mem_desc mem_desc layout_id data' = Some m
            ∧ is_mem_desc_equal m md = true)
    ∧ (∀ md', is_mem_desc_equal md md' = true →
              set_mem_desc mem_desc is_mem_desc_equal md' data'
              = (Some layout_id, data'))
    ∧ (∀ id', length data' ≤ id' →
              get_mem_desc mem_desc id' data' = None).
Proof using equal_refl equal_sym equal_trans.
  unfold set_mem_desc, get_mem_desc.
  set (pos := find_if mem_desc (λ m, is_mem_desc_equal m md) data_).
  pose proof (find_if_le (λ m, is_mem_desc_equal m md) data_) as Hle.
  fold pos in Hle.
  destruct (Nat.eqb pos (length data_)) eqn:Hpos; simpl.
  - apply Nat.eqb_eq in Hpos.
    pose proof (find_if_none _ _ Hpos) as Hnone. simpl in Hnone.
    exists (length (data_ ++ [md]) - 1), (data_ ++ [md]).
    rewrite length_app. simpl.
    replace (length data_ + 1 - 1) with (length data_) by lia.
    split; [done|]. split; [|split].
    + exists md. split; [|by apply equal_refl].
      destruct (Nat.leb (length data_ + 1) (length data_)) eqn:Hl.
      * apply Nat.leb_le in Hl. lia.
      * by rewrite lookup_app_r, Nat.sub_diag.
    + intros md' Heq.
      rewrite (find_if_app_last (λ m, is_mem_desc_equal m md') data_ md).
      * rewrite ?length_app; simpl.
        destruct (Nat.eqb (length data_) (length data_ + 1)) eqn:Hl;
          [apply Nat.eqb_eq in Hl; lia|done].
      * intros m Hm. rewrite (equal_same_class md md' m Heq). by apply Hnone.
      * done.
    + intros id' Hid. rewrite ?length_app; simpl.
      destruct (Nat.leb (length data_ + 1) id') eqn:Hl; [done|].
      apply Nat.leb_gt in Hl. lia.
  - apply Nat.eqb_neq in Hpos.
    assert (pos < length data_) as Hlt by lia.
    destruct (find_if_found (λ m, is_mem_desc_equal m md) data_ Hlt)
      as (m & Hm & Hmeq). fold pos in Hm.
    exists pos, data_. split; [done|]. split; [|split].
    + exists m. split; [|done].
      destruct (Nat.leb (length data_) pos) eqn:Hl; [|done].
      apply Nat.leb_le in Hl. lia.
    + intros md' Heq.
      rewrite (find_if_ext (λ m, is_mem_desc_equal m md')
                           (λ m, is_mem_desc_equal m md) data_).
      * fold pos. destruct (Nat.eqb pos (length data_)) eqn:Hl; [|done].
        apply Nat.eqb_eq in Hl. lia.
      * intros x _. by apply equal_same_class.
    + intros id' Hid.
      destruct (Nat.leb (length data_) id') eqn:Hl; [done|].
      apply Nat.leb_gt in Hl. lia.
Qed.

End LayoutIdManagerFacts.

(** The theorem at the descriptors [7] twice and a table [[3; 7; 9]],
    compared as integers. *)
Lemma layout_id_roundtrip_dedup_witness :
  ∃ layout_id data',
    LayoutIdManager.set_mem_desc Z Z.eqb 7%Z [3%Z; 7%Z; 9%Z]
      = (Some layout_id, data')
    ∧ (∃ m, LayoutIdManager.get_mem_desc Z layout_id data' = Some m
            ∧ Z.eqb m 7 = true)
    ∧ (∀ md', Z.eqb 7 md' = true →
              LayoutIdManager.set_mem_desc Z Z.eqb md' data'
              = (Some layout_id, data'))
    ∧ (∀ id', length data' ≤ id' →
              LayoutIdManager.get_mem_desc Z id' data' = None).
Proof.
  apply (layout_id_roundtrip_dedup Z.eqb).
  - intros a. apply Z.eqb_refl.
  - intros a b H. apply Z.eqb_eq in H. subst. apply Z.eqb_refl.
  - intros a b c H1 H2. apply Z.eqb_eq in H1, H2. subst. apply Z.eqb_refl.
Defined.

(** ** The graph model *)

Section GraphFacts.

Import Graph.

Variable get_op_schema : op_kind_t → option op_schema_t.
Variable is_shape_unknown : logical_tensor_t → bool.
Variable topo_order : heap → list op_ptr → list op_ptr.

Lemma none_of_false {A} (f : A → bool) (l : list A) x :
  x ∈ l → f x = true → none_of f l = false.
Proof.
  intros Hin Hf. unfold none_of.
  apply negb_false_iff, existsb_exists.
  exists x. split; [by apply list_elem_of_In|done].
Qed.

Lemma add_op_present (n : op_t) (g : graph_t) (h : heap) op :
  op ∈ ops_ g → op_id (get_op h op) = op_id n →
  add_op get_op_schema (Some n) g h = (success, (g, h)).
Proof.
  intros Hin Hid. unfold add_op.
  rewrite (none_of_false _ _ op Hin); [done|].
  by apply N.eqb_eq.
Qed.

(** C7: when the graph already holds an op with the id of [n],
    [add_op n] returns success and leaves the op list, the ops and the
    values as they are. *)
Theorem add_op_idempotent_by_id (n : op_t) (g : graph_t) (h : heap) :
  (∃ op, op ∈ ops_ g ∧ op_id (get_op h op) = op_id n) →
  add_op get_op_schema (Some n) g h = (success, (g, h)).
Proof. intros (op & Hin & Hid). by apply add_op_present with op. Qed.

(** *** [add_op] twice *)

Lemma set_producer_ops_mem v p h :
  ops_mem (set_producer v p h) = ops_mem h.
Proof. done. Qed.

Lemma foldl_set_producer_ops_mem vs p h :
  ops_mem (foldl (λ acc v, set_producer v p acc) h vs) = ops_mem h.
Proof.
  revert h. induction vs as [|v vs IH]; intros h; simpl; [done|].
  by rewrite IH.
Qed.

Lemma push_back_op_present tmp_ln g h g' h' :
  push_back_op tmp_ln g h = (g', h') →
  ∃ op, op ∈ ops_ g' ∧ get_op h' op = tmp_ln.
Proof.
  unfold push_back_op. intros [= <- <-].
  exists (fresh (dom (ops_mem h))). simpl. split.
  - apply elem_of_app. right. apply list_elem_of_singleton. done.
  - unfold get_op. rewrite foldl_set_producer_ops_mem. simpl.
    by rewrite lookup_total_insert_eq.
Qed.

(** Once [add_op n] has succeeded, a second [add_op n] changes nothing,
    provided the schema's default attributes leave the id alone. *)
Lemma add_op_twice (n : op_t) (g g1 : graph_t) (h h1 : heap) :
  (∀ opm, get_op_schema (op_kind n) = Some opm →
          op_id (set_default_attribute opm n) = op_id n) →
  add_op get_op_schema (Some n) g h = (success, (g1, h1)) →
  add_op get_op_schema (Some n) g1 h1 = (success, (g1, h1)).
Proof.
  intros Hid Hfirst. unfold add_op in Hfirst.
  destruct (none_of _ (ops_ g)) eqn:Hnone.
  - destruct (get_op_schema (op_kind n)) as [opm|] eqn:Hs.
    + destruct (negb (verify opm (set_default_attribute opm n)));
        [discriminate|].
      assert (push_back_op (set_default_attribute opm n) g h = (g1, h1))
        as Hpush by congruence.
      destruct (push_back_op_present _ _ _ _ _ Hpush) as (op & Hin & Hop).
      apply add_op_present with op; [done|]. rewrite Hop. by apply Hid.
    + assert (push_back_op n g h = (g1, h1)) as Hpush by congruence.
      destruct (push_back_op_present _ _ _ _ _ Hpush) as (op & Hin & Hop).
      apply add_op_present with op; [done|]. by rewrite Hop.
  - assert (g1 = g ∧ h1 = h) as [-> ->] by (split; congruence).
    unfold add_op. by rewrite Hnone.
Qed.

End GraphFacts.

(** [add_op] of an op that carries the id [101] of [op 1]. *)
Lemma add_op_idempotent_by_id_witness :
  Graph.add_op Examples.lax_registry (Some Examples.ex_new_op)
               Examples.ex_graph Examples.ex_heap
  = (success, (Examples.ex_graph, Examples.ex_heap)).
Proof.
  apply add_op_idempotent_by_id.
  exists 1. split; [|reflexivity].
  apply list_elem_of_here.
Defined.

(** ** Shape inference *)

Section InferShapeFacts.

Import Graph.

Variable get_op_schema : op_kind_t → option op_schema_t.
Variable is_shape_unknown : logical_tensor_t → bool.
Variable topo_order : heap → list op_ptr → list op_ptr.

Local Abbreviation infer_shape_op := (infer_shape_op get_op_schema).
Local Abbreviation infer_shape :=
  (infer_shape get_op_schema is_shape_unknown topo_order).

Lemma visit_ops_stop f pre op post h h1 ret h2 :
  visit_ops f pre h = (success, h1) →
  f op h1 = (ret, h2) → ret ≠ success →
  visit_ops f (pre ++ op :: post) h = (ret, h2).
Proof.
  revert h. induction pre as [|x pre IH]; intros h Hpre Hop Hret; simpl in *.
  - injection Hpre as ->. rewrite Hop.
    apply is_success_false in Hret. by rewrite Hret.
  - destruct (f x h) as [r hx]. destruct (is_success r) eqn:Hr.
    + by apply IH.
    + injection Hpre as -> _. discriminate.
Qed.

Lemma infer_shape_op_no_schema op h :
  get_op_schema (op_kind (get_op h op)) = None →
  infer_shape_op op h = (invalid_op, h).
Proof. intros Hs. unfold Graph.infer_shape_op. by rewrite Hs. Qed.

Lemma infer_shape_op_failed op h ret h' :
  infer_shape_op op h = (ret, h') → ret ≠ success → h' = h.
Proof.
  unfold Graph.infer_shape_op.
  destruct (get_op_schema _) as [opm|]; [|by intros [= <- <-]].
  destruct (shape_infer opm _ _ _) as [r outs].
  destruct (is_success r); intros [= <- <-]; [done|done].
Qed.

Lemma write_outputs_frame outs tmp h :
  ops_mem (write_outputs outs tmp h) = ops_mem h
  ∧ parts_mem (write_outputs outs tmp h) = parts_mem h
  ∧ (∀ v, v ∉ outs →
          vals_mem (write_outputs outs tmp h) !! v = vals_mem h !! v)
  ∧ (∀ v, val_producer (get_value (write_outputs outs tmp h) v)
          = val_producer (get_value h v)
          ∧ val_consumers (get_value (write_outputs outs tmp h) v)
            = val_consumers (get_value h v)).
Proof.
  revert tmp h. induction outs as [|o outs IH]; intros tmp h; simpl.
  { repeat split; done. }
  destruct tmp as [|lt tmp]; [repeat split; done|].
  destruct (IH tmp (set_logical_tensor o lt h)) as (H1 & H2 & H3 & H4).
  split; [by rewrite H1|]. split; [by rewrite H2|]. split.
  - intros v Hv. rewrite H3.
    + simpl. apply lookup_alter_ne. intros ->. apply Hv, list_elem_of_here.
    + intros Hin. apply Hv. by apply list_elem_of_further.
  - intros v. destruct (H4 v) as [-> ->].
    unfold get_value, set_logical_tensor. simpl.
    rewrite !lookup_total_alt.
    destruct (decide (o = v)) as [->|Hne].
    + rewrite lookup_alter_eq. by destruct (vals_mem h !! v).
    + by rewrite lookup_alter_ne.
Qed.

(** C8, as the code has it: an unknown input shape gives
    [invalid_shape]; with all input shapes known, the first op the visit
    cannot handle decides, and it gives [invalid_op] when the op has no
    schema and [invalid_shape] when its shape function fails; an op's
    step that does not succeed leaves the store alone, one that succeeds
    writes nothing but the logical tensors of the op's own outputs. *)
Theorem infer_shape_failure_modes (g : graph_t) (h : heap) :
  ((∃ v, v ∈ get_input_values g h
         ∧ is_shape_unknown (val_lt (get_value h v)) = true) →
   infer_shape g h = (invalid_shape, h))
  ∧ (∀ pre op post h1,
       (∀ v, v ∈ get_input_values g h →
             is_shape_unknown (val_lt (get_value h v)) = false) →
       topo_order h (get_output_ops g h) = pre ++ op :: post →
       visit_ops infer_shape_op pre h = (success, h1) →
       (get_op_schema (op_kind (get_op h1 op)) = None →
        infer_shape g h = (invalid_op, h1))
       ∧ (∀ ret h2, infer_shape_op op h1 = (ret, h2) → ret ≠ success →
          get_op_schema (op_kind (get_op h1 op)) ≠ None →
          infer_shape g h = (invalid_shape, h1)))
  ∧ (∀ op h0 ret h', infer_shape_op op h0 = (ret, h') →
       (ret ≠ success → h' = h0)
       ∧ ops_mem h' = ops_mem h0
       ∧ parts_mem h' = parts_mem h0
       ∧ (∀ v, v ∉ op_outputs (get_op h0 op) →
               vals_mem h' !! v = vals_mem h0 !! v)
       ∧ (∀ v, val_producer (get_value h' v) = val_producer (get_value h0 v)
               ∧ val_consumers (get_value h' v)
                 = val_consumers (get_value h0 v))).
Proof.
  split; [|split].
  - intros (v & Hin & Hunk). unfold Graph.infer_shape.
    assert (existsb (λ v, is_shape_unknown (val_lt (get_value h v)))
                    (get_input_values g h) = true) as ->; [|done].
    apply existsb_exists. exists v. split; [by apply list_elem_of_In|done].
  - intros pre op post h1 Hknown Horder Hpre.
    assert (existsb (λ v, is_shape_unknown (val_lt (get_value h v)))
                    (get_input_values g h) = false) as Hex.
    { apply not_true_is_false. intros Hex.
      apply existsb_exists in Hex as (v & Hin & Hv).
      apply list_elem_of_In in Hin. rewrite (Hknown v Hin) in Hv.
      discriminate. }
    split.
    + intros Hs. unfold Graph.infer_shape, topo_order_visit.
      rewrite Hex, Horder.
      apply visit_ops_stop with h1; [done| |done].
      by apply infer_shape_op_no_schema.
    + intros ret h2 Hop Hret Hs. unfold Graph.infer_shape, topo_order_visit.
      rewrite Hex, Horder.
      assert (h2 = h1) as -> by (by eapply infer_shape_op_failed).
      assert (ret = invalid_shape) as ->.
      { revert Hop. unfold Graph.infer_shape_op.
        destruct (get_op_schema _) as [opm|]; [|done].
        destruct (shape_infer opm _ _ _) as [r outs].
        destruct (is_success r); intros Heq;
          [assert (ret = success) by congruence; done | congruence]. }
      by apply visit_ops_stop with h1.
  - intros op h0 ret h' Hop.
    split; [by eapply infer_shape_op_failed|].
    revert Hop. unfold Graph.infer_shape_op.
    destruct (get_op_schema _) as [opm|];
      [|by intros [= <- <-]; repeat split].
    destruct (shape_infer opm _ _ _) as [r outs].
    destruct (is_success r); intros [= <- <-]; [|by repeat split].
    apply write_outputs_frame.
Qed.

End InferShapeFacts.

(** The theorem on the example graph: without schemas the visit stops at
    [op 1] with [invalid_op]; with an input of negative rank the result
    is [invalid_shape]. *)
Lemma infer_shape_failure_modes_witness :
  Graph.infer_shape Examples.no_schema Examples.negative_ndims
                    Examples.ex_topo_order Examples.ex_graph Examples.ex_heap
  = (invalid_op, Examples.ex_heap)
  ∧ Graph.infer_shape Examples.no_schema (λ _, true)
                      Examples.ex_topo_order Examples.ex_graph Examples.ex_heap
    = (invalid_shape, Examples.ex_heap).
Proof.
  split.
  - destruct (infer_shape_failure_modes Examples.no_schema
                Examples.negative_ndims Examples.ex_topo_order
                Examples.ex_graph Examples.ex_heap) as (_ & H & _).
    apply (H [] 1 [2] Examples.ex_heap); try reflexivity.
    intros v Hv. vm_compute in Hv.
    apply list_elem_of_singleton in Hv as ->. reflexivity.
  - destruct (infer_shape_failure_modes Examples.no_schema (λ _, true)
                Examples.ex_topo_order Examples.ex_graph Examples.ex_heap)
      as (H & _).
    apply H. exists 10. split; [|reflexivity].
    vm_compute. apply list_elem_of_here.
Defined.

(** C8 as stated fails: the example graph has known input shapes and a
    visited op without schema, and the result is not [invalid_shape]. *)
Lemma infer_shape_no_schema_counterexample :
  ¬ (∀ get_op_schema is_shape_unknown topo_order g h,
       (∃ op, op ∈ topo_order h (Graph.get_output_ops g h)
              ∧ get_op_schema (op_kind (get_op h op)) = None) →
       fst (Graph.infer_shape get_op_schema is_shape_unknown topo_order g h)
       = invalid_shape).
Proof.
  intros Hclaim.
  specialize (Hclaim Examples.no_schema Examples.negative_ndims
                Examples.ex_topo_order Examples.ex_graph Examples.ex_heap).
  assert (fst (Graph.infer_shape Examples.no_schema Examples.negative_ndims
                 Examples.ex_topo_order Examples.ex_graph Examples.ex_heap)
          = invalid_op) as Hrun by (vm_compute; reflexivity).
  rewrite Hrun in Hclaim.
  assert (invalid_op = invalid_shape) as Habs; [|discriminate].
  apply Hclaim. exists 1. split; [apply list_elem_of_here|reflexivity].
Qed.

(** ** The partitioner *)

Section PartitionerFacts.

Import Partitioner.

Lemma set_partition_topology op q h :
  same_topology (set_partition op q h) h
  ∧ parts_mem (set_partition op q h) = parts_mem h.
Proof.
  split; [split|]; [done| |done].
  intros op'. unfold get_op, set_partition. simpl.
  rewrite !lookup_total_alt.
  destruct (decide (op = op')) as [->|Hne].
  - rewrite lookup_alter_eq. by destruct (ops_mem h !! op').
  - by rewrite lookup_alter_ne.
Qed.

Lemma same_topology_trans h1 h2 h3 :
  same_topology h1 h2 → same_topology h2 h3 → same_topology h1 h3.
Proof.
  intros [Hv1 Ho1] [Hv2 Ho2]. split; [congruence|].
  intros op. destruct (Ho1 op) as [-> ->]. apply Ho2.
Qed.

(** The loop that transfers the ops of a match to the partition at [q]. *)
Lemma foldl_transfer_topology pairs q h :
  same_topology
    (foldl (λ acc op, set_partition op q (add_op_at q op acc)) h pairs) h
  ∧ parts_mem
      (foldl (λ acc op, set_partition op q (add_op_at q op acc)) h pairs)
    = foldl (λ m op, alter (partition_add_op op) q m) (parts_mem h) pairs.
Proof.
  revert h. induction pairs as [|op pairs IH]; intros h; simpl.
  { split; [split|]; done. }
  destruct (IH (set_partition op q (add_op_at q op h))) as [Ht Hp].
  destruct (set_partition_topology op q (add_op_at q op h)) as [Ht' Hp'].
  split; [|by rewrite Hp, Hp'].
  eapply same_topology_trans; [exact Ht|].
  eapply same_topology_trans; [exact Ht'|]. by split.
Qed.

Lemma foldl_alter_insert pairs q (P : partition_impl_t)
    (m : gmap part_ptr partition_impl_t) :
  foldl (λ m op, alter (partition_add_op op) q m) (<[q := P]> m) pairs
  = <[q := mk_partition (part_engine_kind P) (part_ops P ++ pairs)
                        (part_inputs P) (part_outputs P)]> m.
Proof.
  revert P. induction pairs as [|op pairs IH]; intros P; simpl.
  { rewrite app_nil_r. by destruct P. }
  rewrite alter_insert_eq, IH. simpl. by rewrite <- app_assoc.
Qed.

Lemma foldl_transfer_ops_mem pairs q h :
  ops_mem (foldl (λ acc op, set_partition op q (add_op_at q op acc)) h pairs)
  = foldl (λ m op, alter
             (λ o, mk_op (op_id o) (op_kind o) (op_attrs o) (op_inputs o)
                         (op_outputs o) (Some q)) op m) (ops_mem h) pairs.
Proof.
  revert h. induction pairs as [|op pairs IH]; intros h; simpl; [done|].
  by rewrite IH.
Qed.

Lemma get_value_same h1 h2 v :
  vals_mem h1 = vals_mem h2 → get_value h1 v = get_value h2 v.
Proof. unfold get_value. by intros ->. Qed.

Lemma is_partition_input_same h1 h2 visit v :
  vals_mem h1 = vals_mem h2 →
  is_partition_input h1 visit v = is_partition_input h2 visit v.
Proof.
  intros Hv. unfold is_partition_input, has_producer.
  by rewrite (get_value_same h1 h2 v Hv).
Qed.

Lemma is_partition_output_same h1 h2 visit v :
  vals_mem h1 = vals_mem h2 →
  is_partition_output h1 visit v = is_partition_output h2 visit v.
Proof.
  intros Hv. unfold is_partition_output.
  by rewrite (get_value_same h1 h2 v Hv).
Qed.

Lemma filter_ext_all {A} (f g : A → bool) l :
  (∀ x, f x = g x) → List.filter f l = List.filter g l.
Proof.
  intros Hfg. induction l as [|x l IH]; simpl; [done|].
  by rewrite Hfg, IH.
Qed.

Lemma scan_same h1 h2 visit pairs :
  same_topology h1 h2 →
  scan_inputs h1 visit pairs = scan_inputs h2 visit pairs
  ∧ scan_outputs h1 visit pairs = scan_outputs h2 visit pairs.
Proof.
  intros [Hv Ho]. unfold scan_inputs, scan_outputs.
  induction pairs as [|op pairs [IH1 IH2]]; simpl; [done|].
  destruct (Ho op) as [-> ->]. rewrite IH1, IH2.
  rewrite (filter_ext_all (is_partition_input h1 visit)
                          (is_partition_input h2 visit))
    by (intros; by apply is_partition_input_same).
  rewrite (filter_ext_all (is_partition_output h1 visit)
                          (is_partition_output h2 visit))
    by (intros; by apply is_partition_output_same).
  done.
Qed.

Lemma get_lts_same h1 h2 vs :
  vals_mem h1 = vals_mem h2 → get_lts h1 vs = get_lts h2 vs.
Proof.
  intros Hv. unfold get_lts. apply map_ext. intros v.
  by rewrite (get_value_same h1 h2 v Hv).
Qed.

Lemma match_valid_same h1 h2 pairs :
  same_topology h1 h2 → match_valid h1 pairs = match_valid h2 pairs.
Proof.
  intros Ht. unfold match_valid.
  destruct (scan_same h1 h2 (list_to_set pairs) pairs Ht) as [-> ->].
  destruct Ht as [Hv _].
  by rewrite !(get_lts_same h1 h2 _ Hv).
Qed.

Lemma boundary_correct_same h1 h2 P :
  vals_mem h1 = vals_mem h2 → boundary_correct h2 P → boundary_correct h1 P.
Proof.
  intros Hv [Hin Hout]. split; intros v Hmem.
  - rewrite (get_value_same h1 h2 v Hv). by apply Hin.
  - rewrite (get_value_same h1 h2 v Hv). by apply Hout.
Qed.

(** What the boundary scan records is on the boundary. *)
Lemma scan_boundary_correct (h : heap) (kind : N) (pairs : list op_ptr) :
  boundary_correct h
    (mk_partition kind pairs
       (scan_inputs h (list_to_set pairs) pairs)
       (scan_outputs h (list_to_set pairs) pairs)).
Proof.
  split; simpl; intros v Hv.
  - unfold scan_inputs in Hv. apply list_elem_of_In, in_flat_map in Hv.
    destruct Hv as (op & _ & Hv). apply filter_In in Hv as [_ Hv].
    unfold is_partition_input, has_producer in Hv.
    destruct (val_producer (get_value h v)) as [producer|]; [|by left].
    right. exists producer. split; [done|].
    apply orb_true_iff in Hv as [Hv|Hv].
    + apply negb_true_iff, bool_decide_eq_false in Hv.
      exfalso. apply Hv. by eexists.
    + apply negb_true_iff, bool_decide_eq_false in Hv.
      intros Hin. apply Hv. by apply elem_of_list_to_set.
  - unfold scan_outputs in Hv. apply list_elem_of_In, in_flat_map in Hv.
    destruct Hv as (op & _ & Hv). apply filter_In in Hv as [_ Hv].
    unfold is_partition_output in Hv.
    apply orb_true_iff in Hv as [Hv|Hv].
    + left. by apply bool_decide_eq_true in Hv.
    + right. apply existsb_exists in Hv as (consumer & Hin & Hc).
      exists consumer. split; [by apply list_elem_of_In|].
      apply negb_true_iff, bool_decide_eq_false in Hc.
      intros Hmem. apply Hc. by apply elem_of_list_to_set.
Qed.

(** The two nested loops of the boundary scan add, op by op, the inputs
    and the outputs that pass the tests. *)
Lemma scan_op_spec h visit pimpl cur_op :
  scan_op h visit pimpl cur_op
  = mk_partition (part_engine_kind pimpl) (part_ops pimpl)
      (part_inputs pimpl
       ++ List.filter (is_partition_input h visit)
                      (op_inputs (get_op h cur_op)))
      (part_outputs pimpl
       ++ List.filter (is_partition_output h visit)
                      (op_outputs (get_op h cur_op))).
Proof.
  unfold scan_op.
  assert (∀ vs p,
            foldl (λ p in_value,
                     if is_partition_input h visit in_value
                     then add_input_tensor in_value p else p) p vs
            = mk_partition (part_engine_kind p) (part_ops p)
                (part_inputs p ++ List.filter (is_partition_input h visit) vs)
                (part_outputs p)) as Hin.
  { induction vs as [|v vs IH]; intros p; simpl.
    - rewrite app_nil_r. by destruct p.
    - rewrite IH. destruct (is_partition_input h visit v); simpl; [|done].
      by rewrite <- app_assoc. }
  assert (∀ vs p,
            foldl (λ p out_value,
                     if is_partition_output h visit out_value
                     then add_output_tensor out_value p else p) p vs
            = mk_partition (part_engine_kind p) (part_ops p) (part_inputs p)
                (part_outputs p
                 ++ List.filter (is_partition_output h visit) vs)) as Hout.
  { induction vs as [|v vs IH]; intros p; simpl.
    - rewrite app_nil_r. by destruct p.
    - rewrite IH. destruct (is_partition_output h visit v); simpl; [|done].
      by rewrite <- app_assoc. }
  by rewrite Hin, Hout.
Qed.

Lemma scan_fold_from h visit fusion_ops_set : ∀ pimpl,
  foldl (scan_op h visit) pimpl fusion_ops_set
  = mk_partition (part_engine_kind pimpl) (part_ops pimpl)
      (part_inputs pimpl ++ scan_inputs h visit fusion_ops_set)
      (part_outputs pimpl ++ scan_outputs h visit fusion_ops_set).
Proof.
  induction fusion_ops_set as [|cur_op l IH]; intros pimpl; simpl.
  { rewrite !app_nil_r. by destruct pimpl. }
  rewrite IH, scan_op_spec. simpl. by rewrite <- !app_assoc.
Qed.

Lemma scan_fold h visit fusion_ops_set kind :
  foldl (scan_op h visit) (mk_partition kind [] [] []) fusion_ops_set
  = mk_partition kind [] (scan_inputs h visit fusion_ops_set)
                 (scan_outputs h visit fusion_ops_set).
Proof. by rewrite scan_fold_from. Qed.

(** One iteration of the loop over the matches. *)
Lemma set_partition_of_spec pairs g h g' h' :
  set_partition_of pairs (g, h) = (g', h') →
  same_topology h' h
  ∧ ops_ g' = ops_ g
  ∧ engine_kind_ g' = engine_kind_ g
  ∧ ((match_valid h pairs = false ∧ g' = g ∧ h' = h)
     ∨ (match_valid h pairs = true
        ∧ ops_mem h' = foldl (λ m op, alter
             (λ o, mk_op (op_id o) (op_kind o) (op_attrs o) (op_inputs o)
                         (op_outputs o) (Some (fresh (dom (parts_mem h)))))
             op m) (ops_mem h) pairs
        ∧ partition_impls_ g'
          = partition_impls_ g ++ [fresh (dom (parts_mem h))]
        ∧ parts_mem h'
          = <[fresh (dom (parts_mem h)) :=
                mk_partition (engine_kind_ g) pairs
                  (scan_inputs h (list_to_set pairs) pairs)
                  (scan_outputs h (list_to_set pairs) pairs)]>
              (parts_mem h))).
Proof.
  unfold set_partition_of. rewrite scan_fold. simpl.
  unfold get_inputs, get_outputs. simpl.
  change (check_inputs_outputs_validity _ _) with (match_valid h pairs).
  destruct (match_valid h pairs) eqn:Hvalid; simpl.
  - intros [= <- <-]. simpl.
    set (q := fresh (dom (parts_mem h))).
    set (h1 := mk_heap _ _ _).
    destruct (foldl_transfer_topology pairs q h1) as [Ht Hp].
    split; [|split; [done|split; [done|]]].
    + eapply same_topology_trans; [exact Ht|]. by split.
    + right. split; [done|]. split; [|split; [done|]].
      * by rewrite foldl_transfer_ops_mem.
      * rewrite Hp. simpl. by rewrite foldl_alter_insert.
  - intros [= <- <-]. split; [by split|]. split; [done|]. split; [done|].
    left. done.
Qed.

Local Arguments set_partition_of : simpl never.

(** The whole loop: the store keeps its values and the shape of its ops,
    live partitions stay as they are, and the new partitions are, in
    order, the matches that pass the boundary check. *)
Lemma set_partitions_spec fusion_ops : ∀ g h g' h',
  set_partitions g h fusion_ops = (g', h') →
  same_topology h' h
  ∧ ops_ g' = ops_ g
  ∧ (∀ q, q ∈ dom (parts_mem h) → parts_mem h' !! q = parts_mem h !! q)
  ∧ ∃ news,
      partition_impls_ g' = partition_impls_ g ++ news
      ∧ (∀ q, q ∈ news → q ∉ dom (parts_mem h))
      ∧ map (λ q, part_ops (get_part h' q)) news
        = List.filter (match_valid h) fusion_ops
      ∧ Forall (λ q, boundary_correct h' (get_part h' q)) news.
Proof.
  unfold set_partitions.
  induction fusion_ops as [|pairs fusion_ops IH]; intros g h g' h'; simpl.
  { intros [= <- <-]. split; [by split|]. split; [done|]. split; [done|].
    exists []. rewrite app_nil_r. split; [done|].
    split; [intros q Hq; by apply elem_of_nil in Hq|].
    split; [done|constructor]. }
  destruct (set_partition_of pairs (g, h)) as [g1 h1] eqn:Hstep.
  intros Hrun.
  destruct (set_partition_of_spec _ _ _ _ _ Hstep) as (Ht & Hops & Hk & Hcase).
  destruct (IH _ _ _ _ Hrun) as (Ht' & Hops' & Hkeep & news & Hnews & Hfresh
                                 & Hsets & Hbound).
  assert (List.filter (match_valid h1) fusion_ops
          = List.filter (match_valid h) fusion_ops) as Hfilter.
  { apply filter_ext_all. intros x. by apply match_valid_same. }
  split; [by eapply same_topology_trans|]. split; [congruence|].
  destruct Hcase as [(Hvalid & -> & ->)|(Hvalid & Hom & Hparts & Hpm)].
  - rewrite Hvalid. split; [done|].
    by exists news.
  - set (q0 := fresh (dom (parts_mem h))) in *.
    assert (q0 ∉ dom (parts_mem h)) as Hq0 by apply is_fresh.
    assert (dom (parts_mem h1) = {[q0]} ∪ dom (parts_mem h)) as Hdom
      by (rewrite Hpm; apply dom_insert_L).
    split.
    { intros q Hq.
      rewrite Hkeep by (rewrite Hdom; apply elem_of_union; by right).
      rewrite Hpm. apply lookup_insert_ne. intros ->. done. }
    rewrite Hvalid.
    assert (parts_mem h' !! q0
            = Some (mk_partition (engine_kind_ g) pairs
                      (scan_inputs h (list_to_set pairs) pairs)
                      (scan_outputs h (list_to_set pairs) pairs))) as Hq0'.
    { rewrite Hkeep
        by (rewrite Hdom; apply elem_of_union; left;
            by apply elem_of_singleton).
      rewrite Hpm. apply lookup_insert_eq. }
    assert (get_part h' q0
            = mk_partition (engine_kind_ g) pairs
                (scan_inputs h (list_to_set pairs) pairs)
                (scan_outputs h (list_to_set pairs) pairs)) as Hget.
    { unfold get_part. rewrite lookup_total_alt, Hq0'. done. }
    exists (q0 :: news). split; [|split; [|split]].
    + rewrite Hnews, Hparts, <- app_assoc. done.
    + intros q Hq. apply elem_of_cons in Hq as [->|Hq]; [done|].
      intros Hin. apply (Hfresh q Hq). rewrite Hdom.
      apply elem_of_union. by right.
    + simpl. rewrite Hget, Hsets, Hfilter. done.
    + constructor; [|done].
      rewrite Hget.
      apply boundary_correct_same with h.
      * destruct Ht' as [Hv1 _]. destruct Ht as [Hv2 _]. congruence.
      * apply scan_boundary_correct.
Qed.

Lemma none_of_eqb_not_in (l : list op_ptr) (op : op_ptr) :
  none_of (λ x, Nat.eqb x op) l = true → op ∉ l.
Proof.
  unfold none_of. intros Hnone Hin.
  apply negb_true_iff in Hnone.
  assert (existsb (λ x, Nat.eqb x op) l = true) as Hex; [|congruence].
  apply existsb_exists. exists op.
  split; [by apply list_elem_of_In|apply Nat.eqb_refl].
Qed.

(** The boundary views of [dnnl_graph_graph]: what [get_input_values]
    returns has no producer or a producer that is not an op of the graph,
    what [get_output_values] returns has no consumer or a consumer that is
    not an op of the graph. *)
Lemma graph_views_boundary_correct (g : graph_t) (h : heap) :
  boundary_correct h
    (mk_partition (engine_kind_ g) (ops_ g)
       (Graph.get_input_values g h) (Graph.get_output_values g h)).
Proof.
  split; simpl; intros v Hv.
  - unfold Graph.get_input_values in Hv.
    apply list_elem_of_In, in_flat_map in Hv.
    destruct Hv as (op & _ & Hv). apply filter_In in Hv as [_ Hv].
    unfold Graph.is_graph_input, has_producer in Hv.
    destruct (val_producer (get_value h v)) as [producer|]; [|by left].
    right. exists producer. split; [done|].
    rewrite bool_decide_eq_true_2 in Hv by (by eexists).
    by apply none_of_eqb_not_in.
  - unfold Graph.get_output_values in Hv.
    apply list_elem_of_In, in_flat_map in Hv.
    destruct Hv as (op & _ & Hv). apply filter_In in Hv as [_ Hv].
    unfold Graph.is_graph_output in Hv.
    apply orb_true_iff in Hv as [Hv|Hv].
    + left. by apply bool_decide_eq_true in Hv.
    + right. apply existsb_exists in Hv as (consumer & Hin & Hc).
      exists consumer. split; [by apply list_elem_of_In|].
      by apply none_of_eqb_not_in.
Qed.

(** C2: the partitions [set_partitions] adds are, in order, the matches
    whose boundary tensors are valid, and in each of them every recorded
    input has no producer or a producer outside the partition's ops, and
    every recorded output has no consumer or a consumer outside them.  The
    same holds of the input and output values a graph computes for its own
    ops. *)
Theorem partition_boundary_correct (g : graph_t) (h : heap)
    (fusion_ops : list (list op_ptr)) :
  (∃ news,
     partition_impls_ (fst (set_partitions g h fusion_ops))
     = partition_impls_ g ++ news
     ∧ map (λ q, part_ops (get_part (snd (set_partitions g h fusion_ops)) q))
           news
       = List.filter (match_valid h) fusion_ops
     ∧ Forall (λ q, boundary_correct (snd (set_partitions g h fusion_ops))
                      (get_part (snd (set_partitions g h fusion_ops)) q))
              news)
  ∧ boundary_correct h
      (mk_partition (engine_kind_ g) (ops_ g)
         (Graph.get_input_values g h) (Graph.get_output_values g h)).
Proof.
  split; [|apply graph_views_boundary_correct].
  destruct (set_partitions g h fusion_ops) as [g' h'] eqn:Hrun.
  destruct (set_partitions_spec _ _ _ _ _ Hrun)
    as (_ & _ & _ & news & Hnews & _ & Hsets & Hbound).
  exists news. simpl. done.
Qed.

(** *** Disjointness *)

Lemma in_one_partition_cons x sets :
  in_one_partition (x :: sets) ↔
  (∀ b op, b ∈ sets → op ∈ x → op ∈ b → False) ∧ in_one_partition sets.
Proof.
  split.
  - intros H. split.
    + intros b op Hb Hx Hop.
      apply list_elem_of_lookup in Hb as [j Hj].
      specialize (H 0 (S j) x b op eq_refl Hj Hx Hop). discriminate.
    + intros i j a b op Hi Hj Ha Hb.
      specialize (H (S i) (S j) a b op Hi Hj Ha Hb). lia.
  - intros [Hhead Htail] i j a b op Hi Hj Ha Hb.
    destruct i as [|i], j as [|j]; simpl in *.
    + done.
    + injection Hi as <-. exfalso. eapply (Hhead b op); [|done|done].
      apply list_elem_of_lookup. eauto.
    + injection Hj as <-. exfalso. eapply (Hhead a op); [|done|done].
      apply list_elem_of_lookup. eauto.
    + f_equal. by eapply Htail.
Qed.

Lemma in_one_partition_sublist (l1 l2 : list (list op_ptr)) :
  sublist l1 l2 → in_one_partition l2 → in_one_partition l1.
Proof.
  induction 1 as [|x l1 l2 Hsub IH|x l1 l2 Hsub IH]; intros H2.
  - done.
  - apply in_one_partition_cons in H2 as [Hhead Htail].
    apply in_one_partition_cons. split; [|by apply IH].
    intros b op Hb. apply Hhead. by eapply elem_of_sublist.
  - apply in_one_partition_cons in H2 as [_ Htail]. by apply IH.
Qed.

Lemma sublist_list_filter {A} (f : A → bool) l :
  sublist (List.filter f l) l.
Proof.
  induction l as [|x l IH]; simpl; [constructor|].
  destruct (f x); by constructor.
Qed.

(** C1, as the code has it: [set_partitions] has no guard of its own
    against an op that is matched twice.  When the partitions of the
    graph are live objects and no op occurs twice among their op-sets and
    the matches, then afterwards no op occurs in two partitions of the
    graph. *)
Theorem set_partitions_disjoint (g : graph_t) (h : heap)
    (fusion_ops : list (list op_ptr)) :
  partitions_live g h →
  in_one_partition (partition_op_sets g h ++ fusion_ops) →
  in_one_partition
    (partition_op_sets (fst (set_partitions g h fusion_ops))
                       (snd (set_partitions g h fusion_ops))).
Proof.
  intros Hlive Hdisj.
  destruct (set_partitions g h fusion_ops) as [g' h'] eqn:Hrun.
  destruct (set_partitions_spec _ _ _ _ _ Hrun)
    as (_ & _ & Hkeep & news & Hnews & _ & Hsets & _).
  simpl. unfold partition_op_sets. rewrite Hnews, map_app, Hsets.
  assert (map (λ q, part_ops (get_part h' q)) (partition_impls_ g)
          = partition_op_sets g h) as ->.
  { unfold partition_op_sets. apply map_ext_in. intros q Hq.
    unfold get_part. rewrite !lookup_total_alt, Hkeep; [done|].
    apply Hlive. by apply list_elem_of_In. }
  eapply in_one_partition_sublist; [|exact Hdisj].
  apply sublist_app; [done|apply sublist_list_filter].
Qed.

End PartitionerFacts.

(** The theorem on the example graph with the two matches [[1]] and
    [[2]]. *)
Lemma set_partitions_disjoint_witness :
  Partitioner.in_one_partition
    (Partitioner.partition_op_sets
       (fst (Partitioner.set_partitions Examples.ex_graph Examples.ex_heap
               [[1]; [2]]))
       (snd (Partitioner.set_partitions Examples.ex_graph Examples.ex_heap
               [[1]; [2]]))).
Proof.
  apply set_partitions_disjoint.
  - intros q Hq. simpl in Hq. by apply elem_of_nil in Hq.
  - simpl. intros i j a b op Hi Hj Ha Hb.
    destruct i as [|[|i]], j as [|[|j]]; simpl in *; try done.
    + injection Hi as <-. injection Hj as <-.
      apply list_elem_of_singleton in Ha, Hb. congruence.
    + injection Hi as <-. injection Hj as <-.
      apply list_elem_of_singleton in Ha, Hb. congruence.
Defined.

(** C1 as stated fails: the match [[1]] handed over twice passes the
    boundary check twice and op [1] ends up in two partitions. *)
Lemma set_partitions_overlap_counterexample :
  ¬ (∀ g h fusion_ops,
       Partitioner.partitions_live g h →
       Partitioner.in_one_partition (Partitioner.partition_op_sets g h) →
       Partitioner.in_one_partition
         (Partitioner.partition_op_sets
            (fst (Partitioner.set_partitions g h fusion_ops))
            (snd (Partitioner.set_partitions g h fusion_ops)))).
Proof.
  intros Hclaim.
  specialize (Hclaim Examples.ex_graph Examples.ex_heap [[1]; [1]]).
  assert (Partitioner.partition_op_sets
            (fst (Partitioner.set_partitions Examples.ex_graph
                    Examples.ex_heap [[1]; [1]]))
            (snd (Partitioner.set_partitions Examples.ex_graph
                    Examples.ex_heap [[1]; [1]]))
          = [[1]; [1]]) as Hrun by (vm_compute; reflexivity).
  rewrite Hrun in Hclaim.
  assert (0 = 1) as Habs; [|discriminate].
  apply (Hclaim ltac:(intros q Hq; by apply elem_of_nil in Hq)
                ltac:(intros i j a b op Hi; discriminate)
                0 1 [1] [1] 1); try reflexivity; apply list_elem_of_here.
Qed.

(** ** Dropping matches with an invalid boundary *)

Section BoundaryValidityFacts.

Import Partitioner.
Local Open Scope Z_scope.





(** *** The check does not depend on how [std::sort] orders equal keys *)

Lemma index_less_key strides size i j :
  index_less strides size j i = false ↔
  key_le (key strides size i) (key strides size j).
Proof.
  unfold index_less, key_le, key. simpl.
  destruct (Z.eqb_spec (nth j strides 0) (nth i strides 0)) as [He|He].
  - rewrite Z.ltb_ge. lia.
  - rewrite Z.ltb_ge. lia.
Qed.

Lemma index_less_true_key strides size i j :
  index_less strides size i j = true →
  key_le (key strides size i) (key strides size j).
Proof.
  unfold index_less, key_le, key. simpl.
  destruct (Z.eqb_spec (nth i strides 0) (nth j strides 0)) as [He|He];
    rewrite Z.ltb_lt; lia.
Qed.

Lemma key_le_trans a b c : key_le a b → key_le b c → key_le a c.
Proof. unfold key_le. lia. Qed.

Lemma key_le_antisym a b : key_le a b → key_le b a → a = b.
Proof.
  unfold key_le. destruct a as [a1 a2], b as [b1 b2]. simpl.
  intros H1 H2. f_equal; lia.
Qed.

Lemma insert_index_perm less x l : insert_index less x l ≡ₚ x :: l.
Proof.
  induction l as [|y l IH]; simpl; [done|].
  destruct (less x y); [done|].
  rewrite IH. apply Permutation_swap.
Qed.

Lemma sort_indices_perm less l : sort_indices less l ≡ₚ l.
Proof.
  unfold sort_indices. induction l as [|x l IH]; simpl; [done|].
  by rewrite insert_index_perm, IH.
Qed.

Lemma insert_index_sorted strides size x l :
  sorted_by (index_less strides size) l →
  sorted_by (index_less strides size)
            (insert_index (index_less strides size) x l).
Proof.
  unfold sorted_by.
  induction l as [|y l IH]; intros Hl; simpl.
  { repeat constructor. }
  apply StronglySorted_cons in Hl as [Hy Hl].
  destruct (index_less strides size x y) eqn:Hxy.
  - apply StronglySorted_cons. split; [|by apply StronglySorted_cons].
    apply index_less_true_key in Hxy.
    constructor; [by apply index_less_key|].
    rewrite Forall_forall in Hy |- *. intros z Hz.
    apply index_less_key. eapply key_le_trans; [exact Hxy|].
    apply index_less_key. by apply Hy.
  - apply StronglySorted_cons. split; [|by apply IH].
    rewrite Forall_forall in Hy |- *. intros z Hz.
    rewrite insert_index_perm in Hz.
    apply elem_of_cons in Hz as [->|Hz]; [done|by apply Hy].
Qed.

Lemma sort_indices_sorted strides size l :
  sorted_by (index_less strides size)
            (sort_indices (index_less strides size) l).
Proof.
  unfold sort_indices. induction l as [|x l IH]; simpl.
  - constructor.
  - by apply insert_index_sorted.
Qed.

Lemma sorted_keys strides size l :
  sorted_by (index_less strides size) l →
  StronglySorted key_le (map (key strides size) l).
Proof.
  unfold sorted_by. induction 1 as [|x l Hl IH Hx]; simpl; constructor.
  - done.
  - apply Forall_forall. intros k Hk.
    apply list_elem_of_fmap in Hk as (j & -> & Hj).
    apply index_less_key.
    rewrite Forall_forall in Hx. by apply Hx.
Qed.

Lemma check_chain_keys strides size rest1 rest2 : ∀ prev1 prev2,
  key strides size prev1 = key strides size prev2 →
  map (key strides size) rest1 = map (key strides size) rest2 →
  check_chain strides size prev1 rest1 = check_chain strides size prev2 rest2.
Proof.
  revert rest2.
  induction rest1 as [|c1 rest1 IH]; intros [|c2 rest2] prev1 prev2 Hp Hr;
    simpl in *; try done.
  injection Hr as Hc1 Hc2 Hr.
  assert (nth prev1 strides 0 = nth prev2 strides 0
          ∧ nth prev1 size 0 = nth prev2 size 0) as [Hp1 Hp2]
    by (unfold key in Hp; split; congruence).
  rewrite Hp1, Hp2, Hc1.
  destruct (negb _); [done|].
  apply IH; [unfold key; congruence|done].
Qed.

Lemma check_dense_keys strides size l1 l2 :
  map (key strides size) l1 = map (key strides size) l2 →
  check_dense strides size l1 = check_dense strides size l2.
Proof.
  destruct l1 as [|i1 l1], l2 as [|i2 l2]; simpl; try done.
  intros Hmap. injection Hmap as Hi1 Hi2 Hr.
  rewrite Hi1.
  destruct (negb _); [done|].
  apply check_chain_keys; [unfold key; congruence|done].
Qed.

(** Any result [std::sort] may produce, a sorted rearrangement of
    [0 .. n-1], leads the checks to the same answer as the insertion
    sort. *)
Lemma check_dense_sort_independent strides size n indices :
  indices ≡ₚ seq 0 n →
  sorted_by (index_less strides size) indices →
  check_dense strides size indices
  = check_dense strides size
      (sort_indices (index_less strides size) (seq 0 n)).
Proof.
  intros Hperm Hsorted. apply check_dense_keys.
  apply (StronglySorted_unique_strong key_le).
  - intros a b _ _. apply key_le_antisym.
  - by apply sorted_keys.
  - apply sorted_keys, sort_indices_sorted.
  - apply fmap_Permutation. by rewrite Hperm, sort_indices_perm.
Qed.

Lemma wrap_int64_small z : - 2 ^ 63 ≤ z < 2 ^ 63 → wrap_int64 z = z.
Proof. intros Hz. unfold wrap_int64. rewrite Z.mod_small; lia. Qed.






Lemma set_partitions_cons g h pairs l :
  set_partitions g h (pairs :: l)
  = set_partitions (fst (set_partition_of pairs (g, h)))
                   (snd (set_partition_of pairs (g, h))) l.
Proof.
  unfold set_partitions. cbn [foldl].
  by destruct (set_partition_of pairs (g, h)).
Qed.


End BoundaryValidityFacts.



(** ** The pass pipeline *)

Section PipelineFacts.

Import Pipeline.

Context {subgraph_t : Type}.
Implicit Types (p : pass_pipeline_t subgraph_t) (sg : subgraph_t).

Lemma sg_after_0 (passes : list (pass_signature subgraph_t)) sg :
  sg_after subgraph_t passes sg 0 = sg.
Proof. by destruct passes. Qed.

Lemma rounds_S p i k :
  rounds subgraph_t p i (S k)
  = [EvPass i;
     EvVisualize i (nth i (names_ subgraph_t p) EmptyString)
                   (nth i (is_layout_sensitives_ subgraph_t p) false)
                   (nth i (is_memory_sensitives_ subgraph_t p) false);
     EvValidate i] ++ rounds subgraph_t p (S i) k.
Proof. done. Qed.

(** The outcome of the loop from index [i] on: [k] complete rounds, then
    either the end of the list, a failing pass or a failing
    validation. *)
Lemma run_from_spec p rest : ∀ i sg tr,
  ∃ k, k ≤ length rest
    ∧ (∀ j, j < k →
         pass_status subgraph_t rest sg j = success
         ∧ validator_ subgraph_t p (sg_after subgraph_t rest sg (S j))
           = success)
    ∧ ((k = length rest
        ∧ run_from subgraph_t p i rest sg tr
          = (success, sg_after subgraph_t rest sg k,
             tr ++ rounds subgraph_t p i k))
       ∨ (k < length rest
          ∧ pass_status subgraph_t rest sg k ≠ success
          ∧ run_from subgraph_t p i rest sg tr
            = (pass_status subgraph_t rest sg k,
               sg_after subgraph_t rest sg (S k),
               tr ++ rounds subgraph_t p i k ++ [EvPass (i + k)]))
       ∨ (k < length rest
          ∧ pass_status subgraph_t rest sg k = success
          ∧ validator_ subgraph_t p (sg_after subgraph_t rest sg (S k))
            ≠ success
          ∧ run_from subgraph_t p i rest sg tr
            = (validator_ subgraph_t p (sg_after subgraph_t rest sg (S k)),
               sg_after subgraph_t rest sg (S k),
               tr ++ rounds subgraph_t p i k
                  ++ [EvPass (i + k);
                      EvVisualize (i + k)
                        (nth (i + k) (names_ subgraph_t p) EmptyString)
                        (nth (i + k) (is_layout_sensitives_ subgraph_t p)
                             false)
                        (nth (i + k) (is_memory_sensitives_ subgraph_t p)
                             false);
                      EvValidate (i + k)]))).
Proof.
  induction rest as [|apass rest IH]; intros i sg tr.
  { exists 0. split; [done|]. split; [intros j Hj; lia|].
    left. split; [done|]. simpl. by rewrite app_nil_r. }
  simpl run_from.
  destruct (apass sg) as [ret sg1] eqn:Hpass.
  assert (pass_status subgraph_t (apass :: rest) sg 0 = ret) as Hst0.
  { unfold pass_status. simpl. by rewrite Hpass. }
  assert (∀ j, sg_after subgraph_t (apass :: rest) sg (S j)
               = sg_after subgraph_t rest sg1 j) as Hafter.
  { intros j. simpl. by rewrite Hpass. }
  assert (∀ j, pass_status subgraph_t (apass :: rest) sg (S j)
               = pass_status subgraph_t rest sg1 j) as Hst.
  { intros j. unfold pass_status. simpl. by rewrite Hpass. }
  destruct (is_success ret) eqn:Hret; cbn [negb].
  2: { apply is_success_false in Hret.
       exists 0. split; [simpl; lia|]. split; [intros j Hj; lia|].
       right. left. split; [simpl; lia|]. rewrite Hst0. split; [done|].
       rewrite Hafter, sg_after_0, Nat.add_0_r. done. }
  apply is_success_true in Hret as ->.
  destruct (is_success (validator_ subgraph_t p sg1)) eqn:Hval; cbn [negb].
  2: { apply is_success_false in Hval.
       exists 0. split; [simpl; lia|]. split; [intros j Hj; lia|].
       right. right. split; [simpl; lia|]. split; [done|].
       rewrite Hafter, sg_after_0, Nat.add_0_r. split; [done|].
       simpl. by rewrite <- !app_assoc. }
  apply is_success_true in Hval.
  destruct (IH (S i) sg1
              (((tr ++ [EvPass i])
                ++ [EvVisualize i (nth i (names_ subgraph_t p) EmptyString)
                      (nth i (is_layout_sensitives_ subgraph_t p) false)
                      (nth i (is_memory_sensitives_ subgraph_t p) false)])
               ++ [EvValidate i]))
    as (k & Hk & Hok & Hcase).
  exists (S k). split; [simpl; lia|]. split.
  { intros [|j] Hj.
    - rewrite Hst0, Hafter, sg_after_0. done.
    - rewrite Hst, Hafter. apply Hok. lia. }
  rewrite !Hafter, Hst, rounds_S.
  replace (i + S k) with (S i + k) by lia.
  destruct Hcase as [(Hlen & Hrun)|[(Hlen & Hfail & Hrun)
                                   |(Hlen & Hp & Hfail & Hrun)]].
  - left. split; [simpl; lia|]. rewrite Hrun.
    by rewrite <- !app_assoc.
  - right. left. split; [simpl; lia|]. split; [done|]. rewrite Hrun.
    by rewrite <- !app_assoc.
  - right. right. split; [simpl; lia|]. split; [done|]. split; [done|].
    rewrite Hrun. by rewrite <- !app_assoc.
Qed.

(** C4: [add_pass] puts the pass at the end of the list, and [run] goes
    through the list from the front: after [k] rounds of pass and
    validation that all succeed it either is at the end and returns
    success, or pass [k] fails and [run] returns its status right after
    calling it, or the validation after pass [k] fails and [run] returns
    that status; in both failing cases no later pass is called.  The
    result is success exactly when every pass and every validation
    succeeds. *)
Theorem pipeline_run_in_order_first_failure p sg :
  (∀ apass name,
     passes_ subgraph_t (add_pass subgraph_t apass name p)
     = passes_ subgraph_t p ++ [apass])
  ∧ (∃ k, k ≤ length (passes_ subgraph_t p)
      ∧ (∀ j, j < k →
           pass_status subgraph_t (passes_ subgraph_t p) sg j = success
           ∧ validation_status subgraph_t p sg j = success)
      ∧ ((k = length (passes_ subgraph_t p)
          ∧ run subgraph_t p sg
            = (success, sg_after subgraph_t (passes_ subgraph_t p) sg k,
               rounds subgraph_t p 0 k))
         ∨ (k < length (passes_ subgraph_t p)
            ∧ pass_status subgraph_t (passes_ subgraph_t p) sg k ≠ success
            ∧ run subgraph_t p sg
              = (pass_status subgraph_t (passes_ subgraph_t p) sg k,
                 sg_after subgraph_t (passes_ subgraph_t p) sg (S k),
                 rounds subgraph_t p 0 k ++ [EvPass k]))
         ∨ (k < length (passes_ subgraph_t p)
            ∧ pass_status subgraph_t (passes_ subgraph_t p) sg k = success
            ∧ validation_status subgraph_t p sg k ≠ success
            ∧ run subgraph_t p sg
              = (validation_status subgraph_t p sg k,
                 sg_after subgraph_t (passes_ subgraph_t p) sg (S k),
                 rounds subgraph_t p 0 k
                 ++ [EvPass k;
                     EvVisualize k
                       (nth k (names_ subgraph_t p) EmptyString)
                       (nth k (is_layout_sensitives_ subgraph_t p) false)
                       (nth k (is_memory_sensitives_ subgraph_t p) false);
                     EvValidate k]))))
  ∧ (fst (fst (run subgraph_t p sg)) = success ↔
     ∀ j, j < length (passes_ subgraph_t p) →
          pass_status subgraph_t (passes_ subgraph_t p) sg j = success
          ∧ validation_status subgraph_t p sg j = success).
Proof.
  split; [done|].
  destruct (run_from_spec p (passes_ subgraph_t p) 0 sg [])
    as (k & Hk & Hok & Hcase).
  fold (run subgraph_t p sg) in Hcase. simpl in Hcase.
  split.
  - exists k. split; [done|]. split; [done|]. done.
  - destruct Hcase as [(Hlen & Hrun)|[(Hlen & Hfail & Hrun)
                                     |(Hlen & Hp & Hfail & Hrun)]].
    + rewrite Hrun. simpl. split; [|done].
      intros _ j Hj. apply Hok. lia.
    + rewrite Hrun. simpl. split; [done|].
      intros Hall. by destruct (Hall k Hlen).
    + rewrite Hrun. simpl. split; [done|].
      intros Hall. by destruct (Hall k Hlen).
Qed.

End PipelineFacts.

(** ** The kernel's [execute_impl] *)

Section KernelFacts.

Import Kernel.

Context {world cached_t tensors : Type}.
Implicit Types (k : matmul_t world cached_t tensors) (w : world).
Implicit Types (execs : list (op_executable_t world)).












Lemma runs_to_nil_l execs o w tr res :
  runs_to world execs o w tr res → runs_to world execs ([] ++ o) w tr res.
Proof. done. Qed.



End KernelFacts.

(** In [declining_kernel] the first call fails: the second is not made
    and the call ends with the status of the failure. *)
Example execute_impl_aborts :
  Kernel.execute_impl nat unit unit Examples.declining_kernel tt tt 0
    None []
  = Kernel.Thrown nat unit unsupported 0 [Kernel.EvExec 0].
Proof. reflexivity. Qed.

(** ** Concurrent callers and the constant cache *)

Section ConstantCacheFacts.

Import ConstantCache.

Variable is_constant_ : list bool.

Lemma installers_app l1 l2 :
  installers (l1 ++ l2) = installers l1 ++ installers l2.
Proof. apply omap_app. Qed.

Lemma const_execs_app l1 l2 :
  const_execs (l1 ++ l2) = const_execs l1 ++ const_execs l2.
Proof. apply omap_app. Qed.

Lemma bound_buffers_app l1 l2 :
  bound_buffers (l1 ++ l2) = bound_buffers l1 ++ bound_buffers l2.
Proof. apply omap_app. Qed.

Lemma constant_ops_S k :
  constant_ops is_constant_ (S k)
  = constant_ops is_constant_ k
    ++ (if nth k is_constant_ false then [k] else []).
Proof.
  unfold constant_ops. rewrite seq_S, List.filter_app. simpl.
  by destruct (nth k is_constant_ false).
Qed.




Lemma thread_step_invariant t s :
  fold_invariant is_constant_ s →
  fold_invariant is_constant_ (thread_step is_constant_ t s).
Proof.
  unfold fold_invariant, thread_step, get_or_add.
  destruct (cache s) as [[|b]|] eqn:Hcache.
  - (* pending *)
    intros (t0 & b & i & Ht0 & Hi & Hothers & Hinst & Hexecs & Hcont & Hbound).
    destruct (decide (t = t0)) as [->|Hne].
    + rewrite Ht0.
      destruct (Nat.ltb_spec i (length is_constant_)) as [Hlt|Hge].
      * destruct (nth i is_constant_ false) eqn:Hc; simpl; rewrite ?Hcache.
        -- exists t0, b, (S i).
           rewrite lookup_total_insert_eq.
           split; [done|]. split; [lia|]. split.
           { intros t Ht. rewrite lookup_total_insert_ne by done.
             by apply Hothers. }
           rewrite installers_app, const_execs_app, bound_buffers_app.
           simpl. rewrite !app_nil_r, Hinst, Hexecs, Hbound.
           rewrite lookup_total_insert_eq, Hcont, constant_ops_S, Hc.
           rewrite map_app. done.
        -- exists t0, b, (S i).
           rewrite lookup_total_insert_eq.
           split; [done|]. split; [lia|]. split.
           { intros t Ht. rewrite lookup_total_insert_ne by done.
             by apply Hothers. }
           rewrite constant_ops_S, Hc, app_nil_r. done.
      * simpl. assert (i = length is_constant_) as -> by lia.
        split.
        { intros t. destruct (decide (t = t0)) as [->|Ht].
          - rewrite lookup_total_insert_eq. right. right. by exists 0.
          - rewrite lookup_total_insert_ne by done.
            destruct (Hothers t Ht) as [->| ->]; auto. }
        exists t0. split; [done|]. split; [done|]. split; [done|].
        intros b'. rewrite Hbound. by intros ->%list_elem_of_singleton.
    + destruct (Hothers t Hne) as [Ht|Ht]; rewrite Ht; simpl; rewrite ?Hcache.
      * exists t0, b, i. rewrite lookup_total_insert_ne by done.
        split; [done|]. split; [done|]. split; [|done].
        intros t' Ht'. destruct (decide (t' = t)) as [->|Htt].
        -- rewrite lookup_total_insert_eq. by right.
        -- rewrite lookup_total_insert_ne by done. by apply Hothers.
      * exists t0, b, i. done.
  - (* ready *)
    intros (Hall & t0 & Hinst & Hexecs & Hcont & Hbound).
    destruct (Hall t) as [Ht|[Ht|[i Ht]]]; rewrite Ht; simpl; rewrite ?Hcache.
    + split; [|by exists t0].
      intros t'. destruct (decide (t' = t)) as [->|Htt].
      * rewrite lookup_total_insert_eq. auto.
      * rewrite lookup_total_insert_ne by done. apply Hall.
    + split.
      { intros t'. destruct (decide (t' = t)) as [->|Htt].
        - rewrite lookup_total_insert_eq. right. right. by exists 0.
        - rewrite lookup_total_insert_ne by done. apply Hall. }
      exists t0.
      rewrite installers_app, const_execs_app, bound_buffers_app.
      simpl. rewrite !app_nil_r. split; [done|]. split; [done|].
      split; [done|].
      intros b' [Hb'|Hb']%elem_of_app; [by apply Hbound|].
      by apply list_elem_of_singleton in Hb'.
    + destruct (Nat.ltb_spec i (length is_constant_)) as [Hlt|Hge].
      * destruct (nth i is_constant_ false); simpl; rewrite ?Hcache.
        -- split; [|by exists t0].
           intros t'. destruct (decide (t' = t)) as [->|Htt].
           ++ rewrite lookup_total_insert_eq. right. right. by exists (S i).
           ++ rewrite lookup_total_insert_ne by done. apply Hall.
        -- split.
           { intros t'. destruct (decide (t' = t)) as [->|Htt].
             - rewrite lookup_total_insert_eq. right. right. by exists (S i).
             - rewrite lookup_total_insert_ne by done. apply Hall. }
           exists t0.
           rewrite installers_app, const_execs_app, bound_buffers_app.
           simpl. rewrite !app_nil_r. done.
      * simpl. rewrite Hcache. split; [|by exists t0].
        intros t'. destruct (decide (t' = t)) as [->|Htt].
        -- rewrite lookup_total_insert_eq. auto.
        -- rewrite lookup_total_insert_ne by done. apply Hall.
  - (* no entry *)
    intros [Hidle Hlog]. rewrite Hidle. simpl.
    exists t, (next_buffer s), 0.
    rewrite !lookup_total_insert_eq.
    split; [done|]. split; [lia|]. split.
    { intros t' Ht'. rewrite lookup_total_insert_ne by done.
      left. apply Hidle. }
    rewrite Hlog. done.
Qed.


(** The installer never blocks: from index [i] of the loop over the
    constant ops it needs one step per remaining executable and one to
    publish the buffer. *)
Lemma folding_completes t b : ∀ k i s,
  pcs s !!! t = Folding b i → i + k = length is_constant_ →
  cache (run_schedule is_constant_ (replicate (S k) t) s) = Some (Ready b)
  ∧ pcs (run_schedule is_constant_ (replicate (S k) t) s) !!! t
    = Running b 0.
Proof.
  unfold run_schedule.
  induction k as [|k IH]; intros i s Hpc Hik; simpl.
  - unfold thread_step. rewrite Hpc.
    destruct (Nat.ltb_spec i (length is_constant_)); [lia|]. simpl.
    by rewrite lookup_total_insert_eq.
  - apply (IH (S i)); [|lia].
    unfold thread_step. rewrite Hpc.
    destruct (Nat.ltb_spec i (length is_constant_)); [|lia].
    destruct (nth i is_constant_ false); simpl;
      by rewrite lookup_total_insert_eq.
Qed.

(** A caller that finds the cache empty and runs undisturbed resolves the
    entry. *)
Lemma installer_completes t :
  cache (run_schedule is_constant_ (replicate (length is_constant_ + 2) t)
                      init)
  = Some (Ready 0).
Proof.
  replace (length is_constant_ + 2) with (S (S (length is_constant_)))
    by lia.
  change (replicate (S (S (length is_constant_))) t)
    with (t :: replicate (S (length is_constant_)) t).
  unfold run_schedule. simpl foldl at 1.
  apply (folding_completes t 0 (length is_constant_) 0); [|done].
  unfold thread_step, init. simpl.
  rewrite lookup_total_empty. simpl.
  by rewrite lookup_total_insert_eq.
Qed.



Lemma run_schedule_cons t l s :
  run_schedule is_constant_ (t :: l) s
  = run_schedule is_constant_ l (thread_step is_constant_ t s).
Proof. done. Qed.





(** A resolved entry stays as it is. *)
Lemma thread_step_cache_ready t s b :
  fold_invariant is_constant_ s → cache s = Some (Ready b) →
  cache (thread_step is_constant_ t s) = Some (Ready b).
Proof.
  unfold fold_invariant. intros Hinv Hc. rewrite Hc in Hinv.
  destruct Hinv as (Hall & _).
  unfold thread_step, get_or_add, set_pc, add_log.
  destruct (Hall t) as [H|[H|[i H]]]; rewrite H; rewrite ?Hc; simpl;
    [done|done|].
  destruct (Nat.ltb i (length is_constant_));
    [destruct (nth i is_constant_ false)|]; done.
Qed.

Lemma run_schedule_cache_ready ext : ∀ s b,
  fold_invariant is_constant_ s → cache s = Some (Ready b) →
  cache (run_schedule is_constant_ ext s) = Some (Ready b).
Proof.
  induction ext as [|t ext IH]; intros s b Hinv Hc; [done|].
  rewrite run_schedule_cons.
  apply IH; [by apply thread_step_invariant|].
  by apply thread_step_cache_ready.
Qed.









End ConstantCacheFacts.



(** Two callers on a schedule [constant; not constant; constant]: thread
    [0] installs and folds while thread [1] blocks, then both run the
    non-constant op on the same buffer. *)
Example two_callers_trace :
  ConstantCache.log
    (ConstantCache.run_schedule [true; false; true]
       [0; 1; 1; 0; 0; 1; 0; 0; 1; 1; 0; 1; 1; 1; 0] ConstantCache.init)
  = [ConstantCache.Install 0; ConstantCache.Bind 0 0;
     ConstantCache.ConstExec 0 0; ConstantCache.ConstExec 0 2;
     ConstantCache.Bind 1 0; ConstantCache.Exec 1 1;
     ConstantCache.Exec 0 1].
Proof. vm_compute. reflexivity. Qed.


(** ** The buffer scheduler *)

Section BufferScheduleFacts.

Import BufferSchedule.
Local Open Scope Z_scope.

Lemma find_candidate_Some cur slots k :
  find_candidate cur slots = Some k →
  (k < length slots)%nat ∧ slot_last_read (slots !!! k) < first_access cur.
Proof.
  revert k. induction slots as [|c slots IH]; intros k; simpl; [done|].
  destruct (Z.ltb_spec (slot_last_read c) (first_access cur)) as [Hlt|Hge].
  - intros [= <-]. split; [lia|done].
  - destruct (find_candidate cur slots) as [k'|]; [|done].
    intros [= <-]. destruct (IH k' eq_refl) as [Hk Hl].
    split; [lia|done].
Qed.

Lemma schedule_buffer_invariant bs slots assigned cur :
  plan_invariant bs slots assigned →
  plan_invariant (bs ++ [cur]) (fst (schedule_buffer (slots, assigned) cur))
                 (snd (schedule_buffer (slots, assigned) cur)).
Proof.
  intros (Hlen & Hfit & Horder). unfold schedule_buffer.
  destruct (find_candidate cur slots) as [k|] eqn:Hfind; simpl.
  - destruct (find_candidate_Some _ _ _ Hfind) as [Hk Hfree].
    split; [|split].
    + rewrite !length_app. simpl. lia.
    + intros i b k0 Hb Hk0. rewrite length_insert.
      apply lookup_snoc_Some in Hb as [[Hi Hb]|[-> <-]].
      * rewrite lookup_app_l in Hk0 by lia.
        destruct (Hfit i b k0 Hb Hk0) as (Hk0' & Hsz & Hlr).
        split; [done|].
        destruct (decide (k = k0)) as [->|Hne].
        -- rewrite list_lookup_total_insert_eq by done. simpl. lia.
        -- rewrite list_lookup_total_insert_ne by done. done.
      * rewrite lookup_app_r in Hk0 by lia.
        rewrite Hlen, Nat.sub_diag in Hk0. injection Hk0 as <-.
        split; [done|].
        rewrite list_lookup_total_insert_eq by done. simpl. lia.
    + intros i j bi bj k0 Hij Hbi Hbj Hki Hkj.
      apply lookup_snoc_Some in Hbj as [[Hj Hbj]|[-> <-]].
      * rewrite lookup_app_l in Hbi by lia.
        rewrite lookup_app_l in Hki by lia.
        rewrite lookup_app_l in Hkj by lia.
        exact (Horder i j bi bj k0 Hij Hbi Hbj Hki Hkj).
      * rewrite lookup_app_l in Hbi by lia.
        rewrite lookup_app_l in Hki by lia.
        rewrite lookup_app_r in Hkj by lia.
        rewrite Hlen, Nat.sub_diag in Hkj. injection Hkj as <-.
        destruct (Hfit i bi k Hbi Hki) as (_ & _ & Hlr). lia.
  - split; [|split].
    + rewrite !length_app. simpl. lia.
    + intros i b k0 Hb Hk0. rewrite length_app. simpl.
      apply lookup_snoc_Some in Hb as [[Hi Hb]|[-> <-]].
      * rewrite lookup_app_l in Hk0 by lia.
        destruct (Hfit i b k0 Hb Hk0) as (Hk0' & Hsz & Hlr).
        split; [lia|]. rewrite lookup_total_app_l by done. done.
      * rewrite lookup_app_r in Hk0 by lia.
        rewrite Hlen, Nat.sub_diag in Hk0. injection Hk0 as <-.
        split; [lia|].
        rewrite (list_lookup_total_correct _ _
                   (mk_slot (buf_size cur) (last_read cur)))
          by (by apply list_lookup_middle).
        simpl. lia.
    + intros i j bi bj k0 Hij Hbi Hbj Hki Hkj.
      apply lookup_snoc_Some in Hbj as [[Hj Hbj]|[-> <-]].
      * rewrite lookup_app_l in Hbi by lia.
        rewrite lookup_app_l in Hki by lia.
        rewrite lookup_app_l in Hkj by lia.
        exact (Horder i j bi bj k0 Hij Hbi Hbj Hki Hkj).
      * rewrite lookup_app_l in Hbi by lia.
        rewrite lookup_app_l in Hki by lia.
        rewrite lookup_app_r in Hkj by lia.
        rewrite Hlen, Nat.sub_diag in Hkj. injection Hkj as <-.
        destruct (Hfit i bi _ Hbi Hki) as (Hk & _). lia.
Qed.

Lemma schedule_buffers_invariant bufs :
  plan_invariant bufs (fst (schedule_buffers bufs))
                 (snd (schedule_buffers bufs)).
Proof.
  unfold schedule_buffers.
  induction bufs as [|cur bs IH] using rev_ind.
  { split; [done|]. split; intros i; intros; by destruct i. }
  rewrite foldl_app. simpl.
  destruct (foldl schedule_buffer ([], []) bs) as [slots assigned].
  by apply schedule_buffer_invariant.
Qed.

Lemma sum_sizes_app (l1 l2 : list N) :
  foldr N.add 0%N (l1 ++ l2) = (foldr N.add 0 l1 + foldr N.add 0 l2)%N.
Proof. induction l1 as [|x l1 IH]; simpl; [done|]. rewrite IH. lia. Qed.

Lemma slot_offset_S slots k :
  (k < length slots)%nat →
  slot_offset slots (S k)
  = (slot_offset slots k + slot_size (slots !!! k))%N.
Proof.
  intros Hk. unfold slot_offset.
  rewrite (take_S_r slots k (slots !!! k))
    by (by apply list_lookup_lookup_total_lt).
  rewrite map_app, sum_sizes_app. simpl. lia.
Qed.

(** The area [k1] ends before a later area [k2] begins. *)
Lemma slot_offset_disjoint slots k1 k2 :
  (k1 < k2)%nat → (k2 ≤ length slots)%nat →
  (slot_offset slots k1 + slot_size (slots !!! k1) ≤ slot_offset slots k2)%N.
Proof.
  intros H12 H2. induction k2 as [|k2 IH]; [lia|].
  rewrite (slot_offset_S slots k2) by lia.
  destruct (decide (k1 = k2)) as [->|Hne]; [lia|].
  assert (slot_offset slots k1 + slot_size (slots !!! k1)
          ≤ slot_offset slots k2)%N by (apply IH; lia).
  lia.
Qed.

(** C6: the plan gives every buffer an offset inside the arena; two
    buffers whose liveness intervals share a tick get byte ranges that do
    not overlap; and two buffers whose byte ranges overlap are such that
    one is first accessed strictly after the last read of the other. *)
Theorem memory_plan_sound (bufs : list buffer_t) i j bi bj oi oj :
  i ≠ j →
  bufs !! i = Some bi → bufs !! j = Some bj →
  offsets bufs !! i = Some oi → offsets bufs !! j = Some oj →
  length (offsets bufs) = length bufs
  ∧ (oi + buf_size bi ≤ total_size bufs)%N
  ∧ (lifetimes_overlap bi bj →
     ¬ ranges_overlap oi (buf_size bi) oj (buf_size bj))
  ∧ (ranges_overlap oi (buf_size bi) oj (buf_size bj) →
     last_read bi < first_access bj ∨ last_read bj < first_access bi).
Proof.
  intros Hij Hbi Hbj Hoi Hoj.
  pose proof (schedule_buffers_invariant bufs) as (Hlen & Hfit & Horder).
  unfold offsets, total_size in *.
  destruct (schedule_buffers bufs) as [slots assigned]. simpl in *.
  rewrite list_lookup_fmap in Hoi, Hoj.
  destruct (assigned !! i) as [ki|] eqn:Hki; [|done].
  destruct (assigned !! j) as [kj|] eqn:Hkj; [|done].
  injection Hoi as <-. injection Hoj as <-.
  destruct (Hfit i bi ki Hbi Hki) as (Hki' & Hszi & Hlri).
  destruct (Hfit j bj kj Hbj Hkj) as (Hkj' & Hszj & Hlrj).
  assert (ranges_overlap (slot_offset slots ki) (buf_size bi)
                         (slot_offset slots kj) (buf_size bj) →
          ki = kj) as Hsame.
  { unfold ranges_overlap. intros (x & H1 & H2).
    destruct (Nat.lt_trichotomy ki kj) as [Hlt|[Heq|Hgt]]; [|done|].
    - pose proof (slot_offset_disjoint slots ki kj Hlt ltac:(lia)). lia.
    - pose proof (slot_offset_disjoint slots kj ki Hgt ltac:(lia)). lia. }
  assert (ki = kj →
          last_read bi < first_access bj ∨ last_read bj < first_access bi)
    as Hreuse.
  { intros ->.
    destruct (Nat.lt_trichotomy i j) as [Hlt|[Heq|Hgt]]; [|done|].
    - left. exact (Horder i j bi bj kj Hlt Hbi Hbj Hki Hkj).
    - right. exact (Horder j i bj bi kj Hgt Hbj Hbi Hkj Hki). }
  split; [by rewrite length_map|]. split; [|split].
  - destruct (decide (S ki = length slots)) as [Heq|Hne].
    + rewrite <- Heq, slot_offset_S by done. lia.
    + pose proof (slot_offset_disjoint slots ki (length slots)
                    ltac:(lia) ltac:(lia)). lia.
  - intros [Ho1 Ho2] Hov.
    destruct (Hreuse (Hsame Hov)); lia.
  - intros Hov. by apply Hreuse, Hsame.
Qed.

End BufferScheduleFacts.

(** The theorem for the first and the third buffer of
    [scenario_with_long_buffer], alive together in ticks 1 and 2: the
    ranges [0, 100) and [100, 110). *)
Lemma memory_plan_sound_witness :
  length (BufferSchedule.offsets BufferSchedule.scenario_with_long_buffer) = 3
  ∧ (0 + 100 ≤ BufferSchedule.total_size
                 BufferSchedule.scenario_with_long_buffer)%N
  ∧ ¬ BufferSchedule.ranges_overlap 0 100 100 10.
Proof.
  destruct (memory_plan_sound BufferSchedule.scenario_with_long_buffer 0 2
              (BufferSchedule.mk_buffer 100 0 2)
              (BufferSchedule.mk_buffer 10 1 4) 0%N 100%N)
    as (Hlen & Hfit & Hsound & _); try reflexivity; [lia|].
  split; [exact Hlen|]. split; [exact Hfit|].
  apply Hsound. unfold BufferSchedule.lifetimes_overlap. simpl. lia.
Defined.

(** The scenario of the spec: both buffers get offset 0, and the arena is
    100 bytes. *)
Example scenario_offsets :
  BufferSchedule.offsets BufferSchedule.scenario = [0%N; 0%N]
  ∧ BufferSchedule.total_size BufferSchedule.scenario = 100%N
  ∧ BufferSchedule.buffers_of
      [[0]; [0]; [0]; [1]; [1]; [1]] [100%N; 50%N]
    = BufferSchedule.scenario.
Proof. vm_compute. done. Qed.

(** A caller that runs alone takes the steps of the sequential
    [execute_impl]: the same executables in the same order. *)
Example single_caller_agrees :
  Kernel.execute_impl nat unit unit Examples.caching_kernel tt tt 0 None []
  = Kernel.Returned nat unit success 3 (Some tt)
      (map Kernel.EvExec
         (ConstantCache.execs_of 0
            (ConstantCache.log
               (ConstantCache.run_schedule [true; false; true]
                  (replicate 9 0) ConstantCache.init))))
  ∧ ConstantCache.pcs
      (ConstantCache.run_schedule [true; false; true]
         (replicate 9 0) ConstantCache.init) !!! 0
    = ConstantCache.Idle.
Proof. vm_compute. done. Qed.

(** ** The encoded data format kind *)

Section DataFormatFacts.

Import DataFormat.
Local Open Scope Z_scope.

Lemma BITS_PER_SLOT_eq : BITS_PER_SLOT = 4.
Proof. reflexivity. Qed.

Lemma UNDEF_DIM_eq : UNDEF_DIM = 15.
Proof. reflexivity. Qed.

Lemma testbit_uint64 z n :
  0 ≤ n → Z.testbit (uint64 z) n = (n <? 64) && Z.testbit z n.
Proof.
  intros Hn. unfold uint64.
  destruct (Z.ltb_spec n 64).
  - by rewrite Z.mod_pow2_bits_low.
  - by rewrite Z.mod_pow2_bits_high by lia.
Qed.

Lemma testbit_15 n : 0 ≤ n → Z.testbit 15 n = (n <? 4).
Proof. intros Hn. by rewrite <- (Z.testbit_ones_nonneg 4) by lia. Qed.

Lemma testbit_in_range s n :
  0 ≤ s < 2 ^ 64 → 64 ≤ n → Z.testbit s n = false.
Proof.
  intros Hs Hn. rewrite <- (Z.mod_small s (2 ^ 64)) by done.
  by rewrite Z.mod_pow2_bits_high by lia.
Qed.

Lemma testbit_get k idx n :
  0 ≤ idx → 0 ≤ n →
  Z.testbit (get k idx) n = (n <? 4) && Z.testbit (storage_ k) (n + idx * 4).
Proof.
  intros Hi Hn. unfold get. rewrite BITS_PER_SLOT_eq.
  change 0xf with 15.
  rewrite Z.land_spec, Z.shiftr_spec, testbit_15 by lia. done.
Qed.

Lemma testbit_set_ith_int oldv idx data n :
  0 ≤ idx → 0 ≤ n →
  Z.testbit (set_ith_int oldv idx data) n =
  (Z.testbit oldv n && negb ((idx * 4 <=? n) && (n <? idx * 4 + 4))
     && (n <? 64))
  || ((n <? 64) && (idx * 4 <=? n) && Z.testbit data (n - idx * 4)).
Proof.
  intros Hi Hn. unfold set_ith_int.
  rewrite BITS_PER_SLOT_eq, UNDEF_DIM_eq.
  rewrite Z.lor_spec, Z.land_spec.
  rewrite !testbit_uint64, Z.lnot_spec, !testbit_uint64 by lia.
  rewrite !Z.shiftl_spec by lia.
  destruct (Z.leb_spec (idx * 4) n) as [Hle|Hlt].
  - rewrite !testbit_uint64, testbit_15 by lia.
    destruct (Z.ltb_spec n 64), (Z.ltb_spec (n - idx * 4) 64),
      (Z.ltb_spec (n - idx * 4) 4), (Z.ltb_spec n (idx * 4 + 4));
      try lia; simpl; rewrite ?andb_true_r, ?andb_false_r, ?orb_false_r;
      done.
  - rewrite !(Z.testbit_neg_r _ (n - idx * 4)) by lia.
    destruct (Z.ltb_spec n 64); simpl;
      rewrite ?andb_true_r, ?andb_false_r, ?orb_false_r; done.
Qed.

Lemma set_ith_int_range oldv idx data :
  0 ≤ idx → 0 ≤ oldv < 2 ^ 64 → 0 ≤ set_ith_int oldv idx data < 2 ^ 64.
Proof.
  intros Hi Ho.
  assert (set_ith_int oldv idx data = uint64 (set_ith_int oldv idx data))
    as ->.
  { apply Z.bits_inj'. intros n Hn.
    rewrite testbit_uint64, testbit_set_ith_int by lia.
    destruct (Z.ltb_spec n 64); simpl; [done|].
    by rewrite !andb_false_r. }
  unfold uint64. apply Z.mod_pos_bound. lia.
Qed.

(** The general law of [set]: the slots below [idx] keep their value,
    slot [idx] holds the low four bits of [data], and the bits of [data]
    above them are or-ed into the slots that follow. *)
Lemma get_set_general k idx data j :
  in_range k → 0 ≤ idx < 16 → 0 ≤ j < 16 →
  get (set k idx data) j =
  if j <? idx then get k j
  else if j =? idx then Z.land data 15
  else Z.lor (get k j) (Z.land (Z.shiftr data (4 * (j - idx))) 15).
Proof.
  intros Hk Hi Hj. apply Z.bits_inj'. intros n Hn.
  rewrite testbit_get by lia. unfold set. simpl.
  rewrite testbit_set_ith_int by lia.
  destruct (Z.ltb_spec n 4) as [Hn4|Hn4]; simpl.
  2: { destruct (Z.ltb_spec j idx); [|destruct (Z.eqb_spec j idx)].
       - rewrite testbit_get by lia.
         destruct (Z.ltb_spec n 4); [lia|done].
       - rewrite Z.land_spec, testbit_15 by lia.
         destruct (Z.ltb_spec n 4); [lia|]. by rewrite andb_false_r.
       - rewrite Z.lor_spec, Z.land_spec, testbit_get, testbit_15 by lia.
         destruct (Z.ltb_spec n 4); [lia|]. by rewrite andb_false_r. }
  destruct (Z.ltb_spec (n + j * 4) 64); [|lia].
  rewrite !andb_true_r. simpl.
  destruct (Z.ltb_spec j idx) as [Hlt|Hge].
  - rewrite testbit_get by lia.
    destruct (Z.ltb_spec n 4); [|lia]. simpl.
    destruct (Z.leb_spec (idx * 4) (n + j * 4)); [lia|]. simpl.
    by rewrite andb_true_r, orb_false_r.
  - destruct (Z.leb_spec (idx * 4) (n + j * 4)); [|lia]. simpl.
    destruct (Z.eqb_spec j idx) as [->|Hne].
    + destruct (Z.ltb_spec (n + idx * 4) (idx * 4 + 4)); [|lia]. simpl.
      rewrite andb_false_r. simpl.
      rewrite Z.land_spec, testbit_15 by lia.
      destruct (Z.ltb_spec n 4); [|lia]. rewrite andb_true_r.
      f_equal. lia.
    + destruct (Z.ltb_spec (n + j * 4) (idx * 4 + 4)); [lia|]. simpl.
      rewrite andb_true_r.
      rewrite Z.lor_spec, Z.land_spec, testbit_get, testbit_15,
        Z.shiftr_spec by lia.
      destruct (Z.ltb_spec n 4); [|lia]. simpl. rewrite andb_true_r.
      do 2 f_equal. lia.
Qed.

Lemma get_set_in_range k idx data j :
  in_range k → 0 ≤ idx < 16 → 0 ≤ data < 16 → 0 ≤ j < 16 →
  get (set k idx data) j = if j =? idx then data else get k j.
Proof.
  intros Hk Hi Hd Hj. rewrite get_set_general by done.
  destruct (Z.ltb_spec j idx), (Z.eqb_spec j idx); try lia; try done.
  - change 15 with (Z.ones 4). rewrite Z.land_ones by lia.
    apply Z.mod_small. lia.
  - rewrite Z.shiftr_div_pow2 by lia.
    rewrite (Z.div_small data).
    + by rewrite Z.land_0_l, Z.lor_0_r.
    + split; [lia|].
      apply Z.lt_le_trans with (2 ^ 4); [lia|].
      apply Z.pow_le_mono_r; lia.
Qed.

Lemma set_in_range k idx data :
  in_range k → 0 ≤ idx → in_range (set k idx data).
Proof. intros Hk Hi. by apply set_ith_int_range. Qed.

Lemma make_storage_range args : ∀ start oldv v,
  0 ≤ start → 0 ≤ oldv < 2 ^ 64 →
  0 ≤ make_storage start oldv v args < 2 ^ 64.
Proof.
  induction args as [|v' args IH]; intros start oldv v Hs Ho; simpl.
  - by apply set_ith_int_range.
  - apply IH; [lia|]. by apply set_ith_int_range.
Qed.

Lemma make_storage_get args : ∀ start oldv v j,
  0 ≤ start → start + Z.of_nat (length (v :: args)) ≤ 16 →
  0 ≤ oldv < 2 ^ 64 →
  Forall (λ x, 0 ≤ x < 16) (v :: args) →
  0 ≤ j < 16 →
  get (mk_kind (make_storage start oldv v args)) j =
  if (start <=? j) && (j <? start + Z.of_nat (length (v :: args)))
  then nth (Z.to_nat (j - start)) (v :: args) 0
  else get (mk_kind oldv) j.
Proof.
  induction args as [|v' args IH]; intros start oldv v j Hs Hlen Ho Hall Hj.
  - simpl in *. change (Z.of_nat 1) with 1 in *.
    apply Forall_cons in Hall as [Hv _].
    change (mk_kind (set_ith_int oldv start v))
      with (set (mk_kind oldv) start v).
    rewrite get_set_in_range by (done || lia).
    destruct (Z.eqb_spec j start) as [->|Hne].
    + destruct (Z.leb_spec start start), (Z.ltb_spec start (start + 1));
        try lia. simpl. by replace (start - start) with 0 by lia.
    + destruct (Z.leb_spec start j), (Z.ltb_spec j (start + 1));
        try lia; done.
  - apply Forall_cons in Hall as [Hv Hall].
    cbn [make_storage].
    rewrite IH; [|lia|cbn [length] in *; lia|by apply set_ith_int_range
                 |done|done].
    change (mk_kind (set_ith_int oldv start v))
      with (set (mk_kind oldv) start v).
    rewrite get_set_in_range by (done || cbn [length] in *; lia).
    cbn [length] in *.
    destruct (Z.leb_spec (start + 1) j), (Z.leb_spec start j),
      (Z.eqb_spec j start),
      (Z.ltb_spec j (start + 1 + Z.of_nat (S (length args)))),
      (Z.ltb_spec j (start + Z.of_nat (S (S (length args)))));
      try lia; simpl; try done.
    + replace (Z.to_nat (j - start)) with (S (Z.to_nat (j - (start + 1))))
        by lia. done.
    + subst j. by replace (start - start) with 0 by lia.
Qed.

Lemma get_all_ones j :
  0 ≤ j < 16 → get (mk_kind 0xffffffffffffffff) j = 15.
Proof.
  intros Hj. apply Z.bits_inj'. intros n Hn.
  rewrite testbit_get by lia. cbn [storage_].
  change 0xffffffffffffffff with (Z.ones 64).
  rewrite Z.testbit_ones_nonneg, testbit_15 by lia.
  destruct (Z.ltb_spec n 4), (Z.ltb_spec (n + j * 4) 64); try lia; done.
Qed.

Lemma storage_slot_bits k n :
  0 ≤ n < 64 →
  Z.testbit (storage_ k) n = Z.testbit (get k (n / 4)) (n mod 4).
Proof.
  intros Hn.
  pose proof (Z.mod_pos_bound n 4 ltac:(lia)) as Hm.
  pose proof (Z.div_mod n 4 ltac:(lia)) as Hd.
  assert (0 ≤ n / 4) by (apply Z.div_pos; lia).
  rewrite testbit_get by lia.
  destruct (Z.ltb_spec (n mod 4) 4); [|lia]. simpl.
  f_equal. lia.
Qed.

End DataFormatFacts.

Section DataFormatTheorems.

Import DataFormat.
Local Open Scope Z_scope.

(** X1 ([sc_data_format_kind_t::set] and [get]): for a slot index and a
    value that fit in four bits, the slot that was written reads back
    the value, every other slot (the control block included) keeps its
    content, and the storage stays a 64-bit value. *)
Theorem kind_set_get_roundtrip k idx data j :
  in_range k → 0 ≤ idx < 16 → 0 ≤ data < 16 → 0 ≤ j < 16 →
  get (set k idx data) j = (if j =? idx then data else get k j)
  ∧ in_range (set k idx data).
Proof.
  intros Hk Hi Hd Hj. split.
  - by apply get_set_in_range.
  - apply set_in_range; [done|lia].
Qed.

(** X2 ([set_ith_int] does not mask [data]): whatever [int] is written,
    the slots below [idx] are never changed, slot [idx] holds the low
    four bits of [data], and the remaining bits of [data] are or-ed into
    the slots above [idx]; a value outside [0, 15] so corrupts the axes
    that follow and the control block. *)
Theorem kind_set_spills_upwards k idx data j :
  in_range k → 0 ≤ idx < 16 → 0 ≤ j < 16 →
  get (set k idx data) j =
  if j <? idx then get k j
  else if j =? idx then Z.land data 15
  else Z.lor (get k j) (Z.land (Z.shiftr data (4 * (j - idx))) 15).
Proof. apply get_set_general. Qed.

(** X3 (the variadic constructor): built from [is_batch] and at most 15
    axes that fit in four bits, the kind holds the axes in its first
    slots, [UNDEF_DIM] in the unused slots below the control block, and
    the control block tells the batch mode. *)
Theorem make_kind_slots is_batch v args :
  Forall (λ x, 0 ≤ x < 16) (v :: args) →
  (length (v :: args) ≤ 15)%nat →
  (∀ j, (j < length (v :: args))%nat →
        get (make_kind is_batch v args) (Z.of_nat j) = nth j (v :: args) 0)
  ∧ (∀ j, Z.of_nat (length (v :: args)) ≤ j < MAX_DIMS →
          get (make_kind is_batch v args) j = UNDEF_DIM)
  ∧ get_control_block (make_kind is_batch v args) = Z.b2z is_batch
  ∧ is_batch_format (make_kind is_batch v args) = is_batch
  ∧ in_range (make_kind is_batch v args).
Proof.
  intros Hall Hlen.
  assert (0 ≤ 0xffffffffffffffff < 2 ^ 64) as Hones by (split; by vm_compute).
  assert (0 ≤ Z.b2z is_batch < 16) as Hb by (destruct is_batch; simpl; lia).
  assert (∀ j, 0 ≤ j < 16 →
    get (make_kind is_batch v args) j =
    if j <? Z.of_nat (length (v :: args)) then nth (Z.to_nat j) (v :: args) 0
    else if j =? 15 then Z.b2z is_batch else 15) as Hget.
  { intros j Hj. unfold make_kind.
    rewrite make_storage_get;
      [|lia|lia|apply set_ith_int_range; [by compute|done]|done|done].
    replace (j - 0) with j by lia. rewrite Z.add_0_l.
    destruct (Z.leb_spec 0 j); [|lia]. cbn [andb].
    destruct (Z.ltb_spec j (Z.of_nat (length (v :: args)))); [done|].
    change (mk_kind (set_ith_int 0xffffffffffffffff MAX_DIMS
                       (Z.b2z is_batch)))
      with (set (mk_kind 0xffffffffffffffff) 15 (Z.b2z is_batch)).
    rewrite get_set_in_range by (done || lia).
    destruct (Z.eqb_spec j 15); [done|]. by apply get_all_ones. }
  assert (get_control_block (make_kind is_batch v args) = Z.b2z is_batch)
    as Hcb.
  { unfold get_control_block. change MAX_DIMS with 15.
    rewrite Hget by lia.
    destruct (Z.ltb_spec 15 (Z.of_nat (length (v :: args)))); [lia|done]. }
  split; [|split; [|split; [|split]]].
  - intros j Hj. rewrite Hget by lia.
    destruct (Z.ltb_spec (Z.of_nat j) (Z.of_nat (length (v :: args))));
      [|lia].
    by rewrite Nat2Z.id.
  - change MAX_DIMS with 15. intros j Hj. rewrite Hget by lia.
    destruct (Z.ltb_spec j (Z.of_nat (length (v :: args)))); [lia|].
    destruct (Z.eqb_spec j 15); [lia|done].
  - done.
  - unfold is_batch_format. rewrite Hcb. by destruct is_batch.
  - apply make_storage_range; [lia|].
    apply set_ith_int_range; [by compute|done].
Qed.

(** X4 ([operator==]): two kinds are equal exactly when they agree on
    each of the sixteen slots. *)
Theorem kind_eqb_slotwise k other :
  in_range k → in_range other →
  kind_eqb k other = true ↔ ∀ j, 0 ≤ j < 16 → get k j = get other j.
Proof.
  intros Hk Ho. unfold kind_eqb. rewrite Z.eqb_eq. split.
  - intros Heq j _. unfold get. by rewrite Heq.
  - intros Hslots. apply Z.bits_inj'. intros n Hn.
    destruct (Z.lt_ge_cases n 64) as [Hlt|Hge].
    + rewrite !storage_slot_bits by lia.
      rewrite Hslots; [done|].
      split; [apply Z.div_pos; lia|].
      apply Z.div_lt_upper_bound; lia.
    + by rewrite !testbit_in_range.
Qed.

End DataFormatTheorems.

Lemma kind_set_get_roundtrip_witness :
  DataFormat.get (DataFormat.set DataFormat.ABCD 2 5) 2 = 5%Z
  ∧ DataFormat.in_range (DataFormat.set DataFormat.ABCD 2 5).
Proof.
  apply (kind_set_get_roundtrip DataFormat.ABCD 2 5 2);
    [by vm_compute|lia|lia|lia].
Defined.

Lemma kind_set_spills_upwards_witness :
  DataFormat.get (DataFormat.set DataFormat.ABCD 1 0x12) 2 = 3%Z.
Proof.
  apply (kind_set_spills_upwards DataFormat.ABCD 1 0x12 2);
    [by vm_compute|lia|lia].
Defined.

Lemma make_kind_slots_witness :
  DataFormat.get DataFormat.NCHWc 4 = 1%Z
  ∧ DataFormat.get DataFormat.NCHWc 5 = DataFormat.UNDEF_DIM
  ∧ DataFormat.is_batch_format DataFormat.NCHWc = false.
Proof.
  destruct (make_kind_slots false 0 [1; 2; 3; 1]%Z) as (H1 & H2 & _ & H3 & _).
  - repeat constructor; lia.
  - simpl. lia.
  - split; [exact (H1 4%nat ltac:(simpl; lia))|].
    split; [apply H2; by vm_compute|exact H3].
Defined.

Lemma kind_eqb_slotwise_witness :
  DataFormat.kind_eqb DataFormat.NCHWc DataFormat.ABCDb = true
  ↔ ∀ j, (0 ≤ j < 16)%Z →
         DataFormat.get DataFormat.NCHWc j = DataFormat.get DataFormat.ABCDb j.
Proof.
  apply (kind_eqb_slotwise DataFormat.NCHWc DataFormat.ABCDb);
    by vm_compute.
Defined.

(** ** Arithmetic helpers of the DNNL backend *)

Section DnnlUtilsArithmetic.

Import DnnlUtils.
Local Open Scope Z_scope.


Lemma mod_ptr_pow2 ptr k :
  0 ≤ ptr → 0 ≤ k < 64 → mod_ptr ptr (2 ^ k) = ptr mod 2 ^ k.
Proof.
  intros Hp Hk. unfold mod_ptr.
  assert (0 < 2 ^ k) by (apply Z.pow_pos_nonneg; lia).
  assert (2 ^ k < 2 ^ 64) by (apply Z.pow_lt_mono_r; lia).
  rewrite (Z.mod_small (2 ^ k - 1)) by lia.
  change (2 ^ k - 1) with (Z.pred (2 ^ k)). rewrite <- Z.ones_equiv.
  apply Z.land_ones. lia.
Qed.

(** X6 ([mod_ptr], [is_aligned_ptr]): for a power of two [bytes] the
    mask yields [ptr] modulo [bytes], and the pointer is reported
    aligned exactly when [bytes] divides it; for [bytes = 0] the
    unsigned [bytes - 1] wraps to all ones, the mask keeps the whole
    pointer and only the null pointer is reported aligned. *)
Theorem mod_ptr_alignment ptr :
  0 ≤ ptr < 2 ^ 64 →
  (∀ k, 0 ≤ k < 64 →
        mod_ptr ptr (2 ^ k) = ptr mod 2 ^ k
        ∧ (is_aligned_ptr ptr (2 ^ k) = true ↔ (2 ^ k | ptr)))
  ∧ mod_ptr ptr 0 = ptr
  ∧ (is_aligned_ptr ptr 0 = true ↔ ptr = 0).
Proof.
  intros Hp.
  assert (mod_ptr ptr 0 = ptr) as H0.
  { unfold mod_ptr. change ((0 - 1) mod 2 ^ 64) with (Z.ones 64).
    rewrite Z.land_ones by lia. apply Z.mod_small. lia. }
  split; [|split; [done|]].
  - intros k Hk. split; [apply mod_ptr_pow2; lia|].
    unfold is_aligned_ptr. rewrite mod_ptr_pow2 by lia.
    rewrite Z.eqb_eq.
    assert (0 < 2 ^ k) by (apply Z.pow_pos_nonneg; lia).
    rewrite Z.mod_divide by lia. done.
  - unfold is_aligned_ptr. rewrite H0. apply Z.eqb_eq.
Qed.

Lemma try_reverse_axis_ok axis rank :
  - rank ≤ axis < rank →
  try_reverse_axis axis rank
  = (true, if axis <? 0 then rank + axis else axis).
Proof.
  intros H. unfold try_reverse_axis.
  destruct (Z.ltb_spec axis 0); cbv zeta; rewrite Z.geb_leb.
  - rewrite (proj2 (Z.ltb_ge (rank + axis) 0)) by lia.
    by rewrite (proj2 (Z.leb_gt rank (rank + axis))) by lia.
  - rewrite (proj2 (Z.ltb_ge axis 0)) by lia.
    by rewrite (proj2 (Z.leb_gt rank axis)) by lia.
Qed.

Lemma try_reverse_axis_fail axis rank :
  ¬ (- rank ≤ axis < rank) → try_reverse_axis axis rank = (false, axis).
Proof.
  intros H. unfold try_reverse_axis.
  destruct (Z.ltb_spec axis 0); cbv zeta; rewrite Z.geb_leb.
  - destruct (Z.ltb_spec (rank + axis) 0); [done|].
    by rewrite (proj2 (Z.leb_le rank (rank + axis))) by lia.
  - rewrite (proj2 (Z.ltb_ge axis 0)) by lia.
    by rewrite (proj2 (Z.leb_le rank axis)) by lia.
Qed.

(** X7 ([try_reverse_axis]): the call succeeds exactly for
    [-rank <= axis < rank]; on success the returned axis lies in
    [0, rank), is [axis] or [axis + rank], and is a fixpoint of the
    function; on failure the axis comes back unchanged. *)
Theorem try_reverse_axis_spec axis rank :
  ((try_reverse_axis axis rank).1 = true ↔ - rank ≤ axis < rank)
  ∧ ((try_reverse_axis axis rank).1 = true →
       let new_axis := (try_reverse_axis axis rank).2 in
       0 ≤ new_axis < rank
       ∧ new_axis = (if axis <? 0 then axis + rank else axis)
       ∧ try_reverse_axis new_axis rank = (true, new_axis))
  ∧ ((try_reverse_axis axis rank).1 = false →
       (try_reverse_axis axis rank).2 = axis).
Proof.
  destruct (decide (- rank ≤ axis < rank)) as [Hin|Hout].
  - rewrite try_reverse_axis_ok by done. simpl.
    split; [done|]. split; [|done]. intros _.
    destruct (Z.ltb_spec axis 0).
    + split; [lia|]. split; [lia|].
      rewrite try_reverse_axis_ok by lia.
      by rewrite (proj2 (Z.ltb_ge (rank + axis) 0)) by lia.
    + split; [lia|]. split; [lia|].
      rewrite try_reverse_axis_ok by lia.
      by rewrite (proj2 (Z.ltb_ge axis 0)) by lia.
  - rewrite try_reverse_axis_fail by done. simpl.
    split; [done|]. split; done.
Qed.

End DnnlUtilsArithmetic.


Lemma mod_ptr_alignment_witness :
  DnnlUtils.mod_ptr 0x1040 (2 ^ 6) = (0x1040 mod 2 ^ 6)%Z
  ∧ DnnlUtils.mod_ptr 0x1040 0 = 0x1040%Z.
Proof.
  destruct (mod_ptr_alignment 0x1040) as (Hpow & Hzero & _).
  - split; by vm_compute.
  - split; [apply (Hpow 6%Z); lia|exact Hzero].
Defined.

(** ** [simultaneous_sort] *)

Section BubbleFacts.

Import DnnlUtils.

Lemma swap_adjacent_cons {A} j (x : A) l :
  swap_adjacent (S j) (x :: l) = x :: swap_adjacent j l.
Proof. unfold swap_adjacent. simpl. by destruct (l !! j), (l !! S j). Qed.

Lemma swap_adjacent_perm {A} j (l : list A) : swap_adjacent j l ≡ₚ l.
Proof.
  revert l. induction j as [|j IH]; intros [|x l]; try done.
  - destruct l as [|y l]; [done|]. apply Permutation_swap.
  - rewrite swap_adjacent_cons. by rewrite IH.
Qed.

Lemma swap_adjacent_length {A} j (l : list A) :
  length (swap_adjacent j l) = length l.
Proof.
  unfold swap_adjacent.
  destruct (l !! j), (l !! S j); by rewrite ?length_insert.
Qed.

Lemma swap_adjacent_lookup {A} j (l : list A) p :
  S j < length l →
  swap_adjacent j l !! p =
  if decide (p = j) then l !! S j
  else if decide (p = S j) then l !! j else l !! p.
Proof.
  intros Hlt. unfold swap_adjacent.
  destruct (lookup_lt_is_Some_2 l j ltac:(lia)) as [x Hx].
  destruct (lookup_lt_is_Some_2 l (S j) Hlt) as [y Hy].
  rewrite Hx, Hy.
  destruct (decide (p = j)) as [->|Hpj].
  - rewrite list_lookup_insert_ne by lia.
    by rewrite list_lookup_insert_eq by lia.
  - destruct (decide (p = S j)) as [->|HpS].
    + by rewrite list_lookup_insert_eq by (rewrite length_insert; lia).
    + by rewrite !list_lookup_insert_ne by lia.
Qed.

Lemma swap_adjacent_fmap {A B} (f : A → B) j (l : list A) :
  f <$> swap_adjacent j l = swap_adjacent j (f <$> l).
Proof.
  unfold swap_adjacent. rewrite !list_lookup_fmap.
  destruct (l !! j), (l !! S j); simpl; by rewrite ?list_fmap_insert.
Qed.

Section WithSwap.

Context {X : Type}.
Variable swap : X → X → bool.

Local Abbreviation le x y := (swap x y = false).

Lemma bubble_step_length st j :
  length (bubble_step swap st j).1 = length st.1.
Proof.
  unfold bubble_step.
  destruct (st.1 !! j), (st.1 !! S j); try done.
  destruct (swap _ _); [|done]. apply swap_adjacent_length.
Qed.

Lemma bubble_step_perm st j : (bubble_step swap st j).1 ≡ₚ st.1.
Proof.
  unfold bubble_step.
  destruct (st.1 !! j), (st.1 !! S j); try done.
  destruct (swap _ _); [|done]. apply swap_adjacent_perm.
Qed.

Lemma bubble_fold_length js : ∀ st,
  length (foldl (bubble_step swap) st js).1 = length st.1.
Proof.
  induction js as [|j js IH]; intros st; simpl; [done|].
  by rewrite IH, bubble_step_length.
Qed.

Lemma bubble_fold_perm js : ∀ st,
  (foldl (bubble_step swap) st js).1 ≡ₚ st.1.
Proof.
  induction js as [|j js IH]; intros st; simpl; [done|].
  by rewrite IH, bubble_step_perm.
Qed.

Lemma bubble_rounds_perm size n : ∀ i l, bubble_rounds swap size i n l ≡ₚ l.
Proof.
  induction n as [|n IH]; intros i l; simpl; [done|].
  pose proof (bubble_fold_perm (seq 0 (size - i - 1)) (l, false)) as Hp.
  unfold bubble_round.
  destruct (foldl _ _ _) as [l' swapped]. simpl in Hp.
  destruct swapped; simpl; [|done]. by rewrite IH.
Qed.

Lemma bubble_perm size l : bubble swap size l ≡ₚ l.
Proof.
  unfold bubble. destruct (Nat.eqb size 0); [done|].
  apply bubble_rounds_perm.
Qed.

Lemma bubble_rounds_length size n : ∀ i l,
  length (bubble_rounds swap size i n l) = length l.
Proof. intros i l. apply Permutation_length, bubble_rounds_perm. Qed.

(** A pass over an array without a pair to exchange changes nothing. *)
Lemma bubble_fold_fixed l m :
  (∀ p x y, l !! p = Some x → l !! S p = Some y → le x y) →
  foldl (bubble_step swap) (l, false) (seq 0 m) = (l, false).
Proof.
  intros Hadj. induction m as [|m IH]; [done|].
  rewrite seq_S, foldl_snoc, IH. unfold bubble_step. simpl.
  destruct (l !! m) as [x|] eqn:Hx; [|done].
  destruct (l !! S m) as [y|] eqn:Hy; [|done].
  by rewrite (Hadj m x y).
Qed.

Lemma bubble_fixed size l :
  (∀ p x y, l !! p = Some x → l !! S p = Some y → le x y) →
  bubble swap size l = l.
Proof.
  intros Hadj. unfold bubble. destruct (Nat.eqb size 0); [done|].
  destruct (size - 1) as [|n]; simpl; [done|].
  unfold bubble_round. by rewrite bubble_fold_fixed.
Qed.

Hypothesis swap_asym : ∀ x y, swap x y = true → le y x.
Hypothesis le_trans : ∀ x y z, le x y → le y z → le x z.

(** The state of a round after the steps [j = 0 .. k-1] on [l0]. *)
Lemma bubble_fold_spec l0 k :
  k < length l0 →
  let st := foldl (bubble_step swap) (l0, false) (seq 0 k) in
  (∀ p, k < p → st.1 !! p = l0 !! p)
  ∧ (∀ p x y, p < k → st.1 !! p = Some x → st.1 !! k = Some y → le x y)
  ∧ (∀ p x, p ≤ k → st.1 !! p = Some x →
            ∃ p', p' ≤ k ∧ l0 !! p' = Some x)
  ∧ (st.2 = false →
     st.1 = l0
     ∧ ∀ p x y, S p ≤ k → l0 !! p = Some x → l0 !! S p = Some y → le x y).
Proof.
  induction k as [|k IH]; intros Hk.
  { simpl. split; [done|]. split; [intros; lia|].
    split; [|split; [done|intros; lia]].
    intros p x Hp Hx. exists p. done. }
  cbv zeta. rewrite seq_S, foldl_snoc. simpl.
  destruct IH as (Hhigh & Hmax & Hfrom & Hclean); [lia|].
  pose proof (bubble_fold_length (seq 0 k) (l0, false)) as Hlen.
  destruct (foldl (bubble_step swap) (l0, false) (seq 0 k)) as [l s].
  simpl in *.
  destruct (lookup_lt_is_Some_2 l k ltac:(lia)) as [a Ha].
  destruct (lookup_lt_is_Some_2 l (S k) ltac:(lia)) as [b Hb].
  unfold bubble_step. simpl. rewrite Ha, Hb.
  destruct (swap a b) eqn:Hab; simpl.
  - split; [|split; [|split; [|done]]].
    + intros p Hp. rewrite swap_adjacent_lookup by lia.
      rewrite !decide_False by lia. apply Hhigh. lia.
    + intros p x y Hp. rewrite !swap_adjacent_lookup by lia.
      rewrite (decide_False (P := S k = k)) by lia.
      rewrite (decide_True (P := S k = S k)) by done.
      rewrite Ha. intros Hx [= <-].
      destruct (decide (p = k)) as [->|Hpk].
      * rewrite Hb in Hx. injection Hx as <-. by apply swap_asym.
      * rewrite decide_False in Hx by lia. apply (Hmax p x a); [lia|done..].
    + intros p x Hp. rewrite swap_adjacent_lookup by lia.
      destruct (decide (p = k)) as [->|Hpk].
      { rewrite Hb. intros [= <-]. exists (S k). split; [lia|].
        rewrite <- Hhigh by lia. done. }
      destruct (decide (p = S k)) as [->|HpS].
      { rewrite Ha. intros [= <-].
        destruct (Hfrom k a ltac:(lia) Ha) as (p' & Hp' & Hl0).
        exists p'. split; [lia|done]. }
      intros Hx. destruct (Hfrom p x ltac:(lia) Hx) as (p' & Hp' & Hl0).
      exists p'. split; [lia|done].
  - split; [|split; [|split]].
    + intros p Hp. apply Hhigh. lia.
    + intros p x y Hp Hx. rewrite Hb. intros [= <-].
      destruct (decide (p = k)) as [->|Hpk].
      * rewrite Ha in Hx. by injection Hx as <-.
      * apply le_trans with a; [|done]. apply (Hmax p x a); [lia|done..].
    + intros p x Hp Hx.
      destruct (decide (p = S k)) as [->|HpS].
      * exists (S k). split; [lia|]. rewrite <- Hhigh by lia. done.
      * destruct (Hfrom p x ltac:(lia) Hx) as (p' & Hp' & Hl0).
        exists p'. split; [lia|done].
    + intros Hs. destruct (Hclean Hs) as [-> Hadj]. split; [done|].
      intros p x y Hp Hx Hy.
      destruct (decide (p = k)) as [->|Hpk].
      * rewrite Ha in Hx. rewrite Hb in Hy. congruence.
      * apply (Hadj p); [lia|done..].
Qed.

(** Neighbours in order up to position [m] put every pair up to [m] in
    order. *)
Lemma adjacent_in_order (l : list X) m :
  (∀ p x y, S p ≤ m → l !! p = Some x → l !! S p = Some y → le x y) →
  ∀ d a b x y, b = S (a + d) → b ≤ m →
               l !! a = Some x → l !! b = Some y → le x y.
Proof.
  intros Hadj d. induction d as [|d IH]; intros a b x y -> Hb Hx Hy.
  - rewrite Nat.add_0_r in *. by apply (Hadj a).
  - destruct (lookup_lt_is_Some_2 l (S (a + d))) as [z Hz].
    { apply lookup_lt_Some in Hy. lia. }
    apply le_trans with z.
    + apply (IH a (S (a + d))); [done|lia|done..].
    + apply (Hadj (S (a + d))); [lia|done|].
      by replace (S (S (a + d))) with (S (a + S d)) by lia.
Qed.

Lemma bubble_rounds_in_order size n : ∀ i l,
  length l = size → i + n = size - 1 → 0 < size →
  (∀ a b x y, a < b → size - i ≤ b →
              l !! a = Some x → l !! b = Some y → le x y) →
  in_order swap (bubble_rounds swap size i n l).
Proof.
  induction n as [|n IH]; intros i l Hlen Hin Hsize Hsuffix; simpl.
  { intros a b x y Hab. apply Hsuffix; lia. }
  unfold bubble_round.
  pose proof (bubble_fold_spec l (size - i - 1) ltac:(lia)) as Hspec.
  pose proof (bubble_fold_length (seq 0 (size - i - 1)) (l, false)) as Hl'.
  destruct (foldl (bubble_step swap) (l, false) (seq 0 (size - i - 1)))
    as [l' swapped].
  simpl in Hspec, Hl'.
  destruct Hspec as (Hhigh & Hmax & Hfrom & Hclean).
  destruct swapped; simpl.
  - apply IH; [lia|lia|done|].
    intros a b x y Hab Hb Hx Hy.
    destruct (decide (b = size - i - 1)) as [->|Hbm].
    { by apply (Hmax a x y). }
    rewrite Hhigh in Hy by lia.
    destruct (decide (a ≤ size - i - 1)) as [Ha|Ha].
    + destruct (Hfrom a x Ha Hx) as (a' & Ha' & Hxa).
      apply (Hsuffix a' b); [lia|lia|done..].
    + rewrite Hhigh in Hx by lia.
      apply (Hsuffix a b); [lia|lia|done..].
  - destruct (Hclean eq_refl) as [-> Hadj].
    intros a b x y Hab Hx Hy.
    destruct (decide (size - i ≤ b)) as [Hb|Hb].
    + by apply (Hsuffix a b).
    + apply (adjacent_in_order l (size - i - 1) Hadj (b - a - 1) a b);
        [lia|lia|done..].
Qed.

Lemma bubble_in_order size l :
  length l = size → in_order swap (bubble swap size l).
Proof.
  intros Hlen. unfold bubble.
  destruct (Nat.eqb_spec size 0) as [H0|H0].
  { intros a b x y Hab Hx Hy. apply lookup_lt_Some in Hy. lia. }
  apply bubble_rounds_in_order; [done|lia|lia|].
  intros a b x y Hab Hb Hx Hy. apply lookup_lt_Some in Hy. lia.
Qed.

End WithSwap.

Lemma in_order_sorted {X} (swap : X → X → bool) l :
  in_order swap l → StronglySorted (λ x y, swap x y = false) l.
Proof.
  induction l as [|x l IH]; intros Hord; constructor.
  - apply IH. intros a b y z Hab Hy Hz.
    apply (Hord (S a) (S b)); [lia|done..].
  - apply Forall_forall. intros y Hy.
    apply list_elem_of_lookup in Hy as [b Hb].
    apply (Hord 0 (S b)); [lia|done..].
Qed.

End BubbleFacts.

(** The loops of a sort on parallel arrays are the loops of [bubble] on
    the array of records the parallel arrays encode. *)
Section SortSimulation.

Import DnnlUtils.

Context {X St : Type}.
Variable swap : X → X → bool.
Variable enc : list X → St.
Variable vstep : St * bool → nat → St * bool.
Variable vround : nat → nat → St → St * bool.
Variable vrounds : nat → nat → nat → St → St.
Variable vsort : St → nat → St.

Hypothesis step_sim : ∀ r s j,
  S j < length r →
  vstep (enc r, s) j
  = (enc (bubble_step swap (r, s) j).1, (bubble_step swap (r, s) j).2).
Hypothesis round_eq : ∀ size i st,
  vround size i st = foldl vstep (st, false) (seq 0 (size - i - 1)).
Hypothesis vrounds_0 : ∀ size i st, vrounds size i 0 st = st.
Hypothesis vrounds_S : ∀ size i n st,
  vrounds size i (S n) st =
  let '(st', swapped) := vround size i st in
  if negb swapped then st' else vrounds size (S i) n st'.
Hypothesis sort_eq : ∀ st size,
  vsort st size =
  if Nat.eqb size 0 then st else vrounds size 0 (size - 1) st.

Lemma fold_sim m : ∀ r s,
  m < length r →
  foldl vstep (enc r, s) (seq 0 m)
  = (enc (foldl (bubble_step swap) (r, s) (seq 0 m)).1,
     (foldl (bubble_step swap) (r, s) (seq 0 m)).2).
Proof.
  induction m as [|m IH]; intros r s Hm; [done|].
  rewrite seq_S, !foldl_snoc, IH by lia. simpl.
  pose proof (bubble_fold_length swap (seq 0 m) (r, s)) as Hlen.
  destruct (foldl (bubble_step swap) (r, s) (seq 0 m)) as [r' s'].
  simpl in *. apply step_sim. lia.
Qed.

Lemma rounds_sim size n : ∀ i r,
  0 < size ≤ length r →
  vrounds size i n (enc r) = enc (bubble_rounds swap size i n r).
Proof.
  induction n as [|n IH]; intros i r Hsize; simpl.
  { by rewrite vrounds_0. }
  rewrite vrounds_S, round_eq, fold_sim by lia.
  unfold bubble_round.
  pose proof (bubble_fold_length swap (seq 0 (size - i - 1)) (r, false))
    as Hlen.
  destruct (foldl (bubble_step swap) (r, false) (seq 0 (size - i - 1)))
    as [r' swapped].
  simpl in *. destruct swapped; simpl; [|done].
  apply IH. lia.
Qed.

Lemma sort_sim r size :
  size ≤ length r → vsort (enc r) size = enc (bubble swap size r).
Proof.
  intros Hsize. rewrite sort_eq. unfold bubble.
  destruct (Nat.eqb_spec size 0); [done|].
  apply rounds_sim. lia.
Qed.

End SortSimulation.

Section SimultaneousSortFacts.

Import DnnlUtils.

Context {T U : Type} `{!Inhabited T}.
Variable comparator : T → T → Z.

Lemma lookup_total_fmap_Some {A B} `{!Inhabited B} (f : A → B)
    (l : list A) j x :
  l !! j = Some x → (f <$> l) !!! j = f x.
Proof.
  intros Hx. apply list_lookup_total_correct.
  by rewrite list_lookup_fmap, Hx.
Qed.

(** With keys: the records are the pairs [(vals[j], keys[j])]. *)
Lemma simultaneous_sort_pairs (r : list (T * U)) size :
  size ≤ length r →
  simultaneous_sort comparator r.*1 (Some r.*2) size
  = ((bubble (swap_by comparator) size r).*1,
     Some (bubble (swap_by comparator) size r).*2).
Proof.
  intros Hsize.
  pose proof (sort_sim (swap_by comparator) (λ r, (r.*1, Some r.*2))
                (sort_step comparator)
                (λ size i (st : list T * option (list U)),
                   sort_round comparator size i st.1 st.2)
                (λ size i n (st : list T * option (list U)),
                   sort_rounds comparator size i n st.1 st.2)
                (λ (st : list T * option (list U)) size,
                   simultaneous_sort comparator st.1 st.2 size))
    as Hsim.
  simpl in Hsim. apply Hsim; clear Hsim;
    [ | intros ? ? [? ?]; done
      | intros ? ? [? ?]; done
      | intros ? ? ? [? ?]; simpl;
        by destruct (sort_round _ _ _ _ _) as [[? ?] []]
      | intros [? ?] ?; simpl; unfold simultaneous_sort;
        by destruct (Nat.eqb _ 0)
      | done ].
  intros r0 s j Hj.
  destruct (lookup_lt_is_Some_2 r0 j ltac:(lia)) as [a Ha].
  destruct (lookup_lt_is_Some_2 r0 (S j) Hj) as [b Hb].
  unfold sort_step, bubble_step. simpl.
  rewrite (lookup_total_fmap_Some fst r0 j a Ha).
  rewrite (lookup_total_fmap_Some fst r0 (S j) b Hb).
  rewrite Ha, Hb. unfold swap_by.
  destruct (0 <? comparator a.1 b.1)%Z; simpl; [|done].
  by rewrite !swap_adjacent_fmap.
Qed.

(** Without keys: the records are the values. *)
Lemma simultaneous_sort_no_keys (vals : list T) size :
  size ≤ length vals →
  simultaneous_sort (U := U) comparator vals None size
  = (bubble (λ x y, (0 <? comparator x y)%Z) size vals, None).
Proof.
  intros Hsize.
  pose proof (sort_sim (λ x y, (0 <? comparator x y)%Z)
                (λ r, (r, @None (list U)))
                (sort_step comparator)
                (λ size i (st : list T * option (list U)),
                   sort_round comparator size i st.1 st.2)
                (λ size i n (st : list T * option (list U)),
                   sort_rounds comparator size i n st.1 st.2)
                (λ (st : list T * option (list U)) size,
                   simultaneous_sort comparator st.1 st.2 size))
    as Hsim.
  simpl in Hsim. apply Hsim; clear Hsim;
    [ | intros ? ? [? ?]; done
      | intros ? ? [? ?]; done
      | intros ? ? ? [? ?]; simpl;
        by destruct (sort_round _ _ _ _ _) as [[? ?] []]
      | intros [? ?] ?; simpl; unfold simultaneous_sort;
        by destruct (Nat.eqb _ 0)
      | done ].
  intros r0 s j Hj.
  destruct (lookup_lt_is_Some_2 r0 j ltac:(lia)) as [a Ha].
  destruct (lookup_lt_is_Some_2 r0 (S j) Hj) as [b Hb].
  unfold sort_step, bubble_step. simpl.
  rewrite (list_lookup_total_correct r0 j a Ha).
  rewrite (list_lookup_total_correct r0 (S j) b Hb).
  rewrite Ha, Hb.
  by destruct (0 <? comparator a b)%Z.
Qed.

(** The overload with a second level: the records are the triples
    [(vals[j], vals_2nd_level[j], keys[j])]. *)
Lemma simultaneous_sort_2nd_triples (r : list (T * T * U)) size :
  size ≤ length r →
  simultaneous_sort_2nd comparator r.*1.*1 r.*1.*2 r.*2 size
  = ((bubble (swap_by_2nd comparator) size r).*1.*1,
     (bubble (swap_by_2nd comparator) size r).*1.*2,
     (bubble (swap_by_2nd comparator) size r).*2).
Proof.
  intros Hsize.
  pose proof (sort_sim (swap_by_2nd comparator)
                (λ r : list (T * T * U), (r.*1.*1, r.*1.*2, r.*2))
                (sort_step_2nd comparator)
                (λ size i (st : list T * list T * list U),
                   sort_round_2nd comparator size i st.1.1 st.1.2 st.2)
                (λ size i n (st : list T * list T * list U),
                   sort_rounds_2nd comparator size i n st.1.1 st.1.2 st.2)
                (λ (st : list T * list T * list U) size,
                   simultaneous_sort_2nd comparator st.1.1 st.1.2 st.2 size))
    as Hsim.
  simpl in Hsim. apply Hsim; clear Hsim;
    [ | intros ? ? [[? ?] ?]; done
      | intros ? ? [[? ?] ?]; done
      | intros ? ? ? [[? ?] ?]; simpl;
        by destruct (sort_round_2nd _ _ _ _ _ _) as [[[? ?] ?] []]
      | intros [[? ?] ?] ?; simpl; unfold simultaneous_sort_2nd;
        by destruct (Nat.eqb _ 0)
      | done ].
  intros r0 s j Hj.
  destruct (lookup_lt_is_Some_2 r0 j ltac:(lia)) as [a Ha].
  destruct (lookup_lt_is_Some_2 r0 (S j) Hj) as [b Hb].
  unfold sort_step_2nd, bubble_step. simpl.
  rewrite <- !list_fmap_compose.
  rewrite (lookup_total_fmap_Some (fst ∘ fst) r0 j a Ha).
  rewrite (lookup_total_fmap_Some (fst ∘ fst) r0 (S j) b Hb).
  rewrite (lookup_total_fmap_Some (snd ∘ fst) r0 j a Ha).
  rewrite (lookup_total_fmap_Some (snd ∘ fst) r0 (S j) b Hb).
  rewrite Ha, Hb. unfold swap_by_2nd. simpl.
  destruct (0 <? _)%Z; simpl; [|done].
  by rewrite !swap_adjacent_fmap.
Qed.

End SimultaneousSortFacts.

Section SimultaneousSortTheorems.

Import DnnlUtils.
Local Open Scope Z_scope.

Context {T U : Type} `{!Inhabited T}.
Variable comparator : T → T → Z.

(** X8 ([simultaneous_sort] with keys): the sort rearranges the pairs
    [(vals[j], keys[j])]; every key stays with its value and no pair is
    lost or duplicated. *)
Theorem simultaneous_sort_permutes_pairs (vals : list T) (keys : list U)
    (size : nat) :
  length vals = size → length keys = size →
  ∃ r, simultaneous_sort comparator vals (Some keys) size
       = (r.*1, Some r.*2)
       ∧ r ≡ₚ zip vals keys.
Proof.
  intros Hv Hk.
  exists (bubble (swap_by comparator) size (zip vals keys)).
  split; [|apply bubble_perm].
  rewrite <- simultaneous_sort_pairs by (rewrite length_zip; lia).
  by rewrite fst_zip, snd_zip by lia.
Qed.

Lemma StronglySorted_weaken {A} (R1 R2 : relation A) l :
  (∀ x y, R1 x y → R2 x y) → StronglySorted R1 l → StronglySorted R2 l.
Proof.
  intros HR. induction 1 as [|x l Hl IH Hx]; constructor; [done|].
  eapply Forall_impl; [exact Hx|]. intros y. apply HR.
Qed.

Lemma in_order_vals_sorted (l : list T) :
  in_order (λ x y, 0 <? comparator x y) l →
  StronglySorted (λ x y, comparator x y ≤ 0) l.
Proof.
  intros Hord. apply in_order_sorted in Hord.
  eapply StronglySorted_weaken; [|exact Hord].
  intros x y Hxy. simpl in Hxy. by apply Z.ltb_ge.
Qed.

Lemma in_order_pairs_sorted (r : list (T * U)) :
  in_order (swap_by comparator) r →
  StronglySorted (λ x y, comparator x y ≤ 0) r.*1.
Proof.
  intros Hord. apply in_order_sorted in Hord.
  eapply StronglySorted_fmap; [|exact Hord].
  intros x y Hxy. unfold swap_by in Hxy. by apply Z.ltb_ge.
Qed.

(** X9 ([simultaneous_sort] sorts): for a comparator whose "not
    greater" is transitive and that never reports two values greater
    than each other, the values end up in order: no value is followed,
    at any distance, by one it is greater than. *)
Theorem simultaneous_sort_sorted (vals : list T) (keys : option (list U))
    (size : nat) :
  length vals = size →
  (∀ k, keys = Some k → length k = size) →
  (∀ a b, 0 < comparator a b → comparator b a ≤ 0) →
  (∀ a b c, comparator a b ≤ 0 → comparator b c ≤ 0 →
            comparator a c ≤ 0) →
  StronglySorted (λ x y, comparator x y ≤ 0)
                 (simultaneous_sort comparator vals keys size).1.
Proof.
  intros Hv Hk Hasym Htrans. destruct keys as [keys|].
  - specialize (Hk keys eq_refl).
    replace (simultaneous_sort comparator vals (Some keys) size)
      with (simultaneous_sort comparator (zip vals keys).*1
              (Some (zip vals keys).*2) size)
      by (by rewrite fst_zip, snd_zip by lia).
    rewrite simultaneous_sort_pairs by (rewrite length_zip; lia).
    simpl. apply in_order_pairs_sorted.
    apply bubble_in_order; [| |rewrite length_zip; lia].
    + intros x y. unfold swap_by. rewrite Z.ltb_lt, Z.ltb_ge. apply Hasym.
    + intros x y z. unfold swap_by. rewrite !Z.ltb_ge. apply Htrans.
  - rewrite simultaneous_sort_no_keys by lia. simpl.
    apply in_order_vals_sorted.
    apply bubble_in_order; [| |done].
    + intros x y. rewrite Z.ltb_lt, Z.ltb_ge. apply Hasym.
    + intros x y z. rewrite !Z.ltb_ge. apply Htrans.
Qed.

(** X10 (early exit of [simultaneous_sort]): when no value is greater
    than its right neighbour the first round exchanges nothing and the
    arrays come back as they were. *)
Theorem simultaneous_sort_in_order_unchanged (vals : list T)
    (keys : option (list U)) (size : nat) :
  length vals = size →
  (∀ k, keys = Some k → length k = size) →
  (∀ p x y, vals !! p = Some x → vals !! S p = Some y →
            comparator x y ≤ 0) →
  simultaneous_sort comparator vals keys size = (vals, keys).
Proof.
  intros Hv Hk Hadj. destruct keys as [keys|].
  - specialize (Hk keys eq_refl).
    replace (simultaneous_sort comparator vals (Some keys) size)
      with (simultaneous_sort comparator (zip vals keys).*1
              (Some (zip vals keys).*2) size)
      by (by rewrite fst_zip, snd_zip by lia).
    rewrite simultaneous_sort_pairs by (rewrite length_zip; lia).
    rewrite bubble_fixed; [by rewrite fst_zip, snd_zip by lia|].
    intros p x y Hx Hy. unfold swap_by. apply Z.ltb_ge.
    apply (Hadj p).
    + rewrite <- (fst_zip vals keys) by lia.
      by rewrite list_lookup_fmap, Hx.
    + rewrite <- (fst_zip vals keys) by lia.
      by rewrite list_lookup_fmap, Hy.
  - rewrite simultaneous_sort_no_keys by lia.
    rewrite bubble_fixed; [done|].
    intros p x y Hx Hy. apply Z.ltb_ge. by apply (Hadj p).
Qed.

Lemma swap_by_2nd_false (x y : T * T * U) :
  swap_by_2nd comparator x y = false ↔ lex_le comparator x.1 y.1.
Proof.
  unfold swap_by_2nd, lex_le. rewrite Z.ltb_ge.
  destruct (Z.eqb_spec (comparator x.1.1 y.1.1) 0); lia.
Qed.

(** X11 (the overload with a second level): the triples
    [(vals[j], vals_2nd_level[j], keys[j])] are rearranged as a whole,
    and for a comparator with antisymmetric sign and transitive "not
    greater" they end up sorted by the first level and, among equal
    first levels, by the second. *)
Theorem simultaneous_sort_2nd_sorted (vals vals_2nd_level : list T)
    (keys : list U) (size : nat) :
  length vals = size → length vals_2nd_level = size → length keys = size →
  (∀ a b, Z.sgn (comparator b a) = - Z.sgn (comparator a b)) →
  (∀ a b c, comparator a b ≤ 0 → comparator b c ≤ 0 →
            comparator a c ≤ 0) →
  ∃ r : list (T * T * U),
    simultaneous_sort_2nd comparator vals vals_2nd_level keys size
    = (r.*1.*1, r.*1.*2, r.*2)
    ∧ r ≡ₚ zip (zip vals vals_2nd_level) keys
    ∧ StronglySorted (λ x y, lex_le comparator x.1 y.1) r.
Proof.
  intros Hv Hv2 Hk Hsgn Htrans.
  set (r0 := zip (zip vals vals_2nd_level) keys).
  assert (length r0 = size) as Hr0.
  { unfold r0. rewrite !length_zip. lia. }
  exists (bubble (swap_by_2nd comparator) size r0).
  split; [|split; [apply bubble_perm|]].
  - rewrite <- simultaneous_sort_2nd_triples by lia.
    unfold r0.
    rewrite snd_zip by (rewrite length_zip; lia).
    rewrite fst_zip by (rewrite length_zip; lia).
    by rewrite fst_zip, snd_zip by lia.
  - eapply StronglySorted_weaken;
      [|apply in_order_sorted, bubble_in_order; [| |done]].
    + intros x y Hxy. simpl in Hxy. by apply swap_by_2nd_false.
    + intros x y Hxy. apply swap_by_2nd_false.
      apply not_false_iff_true in Hxy.
      rewrite swap_by_2nd_false in Hxy. unfold lex_le in *.
      pose proof (Hsgn x.1.1 y.1.1). pose proof (Hsgn x.1.2 y.1.2). lia.
    + intros x y z. rewrite !swap_by_2nd_false. unfold lex_le.
      intros Hxy Hyz.
      pose proof (Hsgn x.1.1 y.1.1). pose proof (Hsgn y.1.1 z.1.1).
      pose proof (Hsgn x.1.1 z.1.1).
      assert (comparator x.1.1 z.1.1 ≤ 0) as Hxz.
      { apply Htrans with y.1.1; lia. }
      destruct (decide (comparator x.1.1 z.1.1 = 0)) as [Hz0|Hz0]; [|lia].
      right. split; [done|].
      assert (comparator z.1.1 x.1.1 ≤ 0) as Hzx by lia.
      assert (comparator z.1.1 y.1.1 ≤ 0) as Hzy.
      { apply Htrans with x.1.1; lia. }
      assert (comparator y.1.1 x.1.1 ≤ 0) as Hyx.
      { apply Htrans with z.1.1; lia. }
      apply Htrans with y.1.2; lia.
Qed.

End SimultaneousSortTheorems.

Lemma simultaneous_sort_permutes_pairs_witness :
  ∃ r, DnnlUtils.simultaneous_sort DnnlUtils.descending
         DnnlUtils.ex_strides (Some DnnlUtils.ex_dim_chars) 4
       = (r.*1, Some r.*2)
       ∧ r ≡ₚ zip DnnlUtils.ex_strides DnnlUtils.ex_dim_chars.
Proof.
  apply (simultaneous_sort_permutes_pairs DnnlUtils.descending
           DnnlUtils.ex_strides DnnlUtils.ex_dim_chars 4);
    reflexivity.
Defined.

Lemma simultaneous_sort_sorted_witness :
  StronglySorted (λ x y, (DnnlUtils.descending x y ≤ 0)%Z)
    (DnnlUtils.simultaneous_sort DnnlUtils.descending DnnlUtils.ex_strides
       (Some DnnlUtils.ex_dim_chars) 4).1.
Proof.
  apply (simultaneous_sort_sorted DnnlUtils.descending DnnlUtils.ex_strides
           (Some DnnlUtils.ex_dim_chars) 4).
  - reflexivity.
  - intros k [= <-]. reflexivity.
  - unfold DnnlUtils.descending. lia.
  - unfold DnnlUtils.descending. lia.
Defined.

Lemma simultaneous_sort_in_order_unchanged_witness :
  DnnlUtils.simultaneous_sort DnnlUtils.descending [12; 4; 1]%Z
    (Some ["b"; "c"; "a"]%string) 3
  = ([12; 4; 1]%Z, Some ["b"; "c"; "a"]%string).
Proof.
  apply (simultaneous_sort_in_order_unchanged DnnlUtils.descending
           [12; 4; 1]%Z (Some ["b"; "c"; "a"]%string) 3).
  - reflexivity.
  - intros k [= <-]. reflexivity.
  - intros [|[|[|p]]] x y Hx Hy; simplify_eq/=;
      unfold DnnlUtils.descending; lia.
Defined.

Lemma simultaneous_sort_2nd_sorted_witness :
  ∃ r : list (Z * Z * string),
    DnnlUtils.simultaneous_sort_2nd DnnlUtils.descending
      DnnlUtils.ex_strides DnnlUtils.ex_ou_blocks DnnlUtils.ex_dim_chars 4
    = (r.*1.*1, r.*1.*2, r.*2)
    ∧ r ≡ₚ zip (zip DnnlUtils.ex_strides DnnlUtils.ex_ou_blocks)
               DnnlUtils.ex_dim_chars
    ∧ StronglySorted
        (λ x y, DnnlUtils.lex_le DnnlUtils.descending x.1 y.1) r.
Proof.
  apply (simultaneous_sort_2nd_sorted DnnlUtils.descending
           DnnlUtils.ex_strides DnnlUtils.ex_ou_blocks
           DnnlUtils.ex_dim_chars 4).
  - reflexivity.
  - reflexivity.
  - reflexivity.
  - intros a b. unfold DnnlUtils.descending. lia.
  - unfold DnnlUtils.descending. lia.
Defined.

(** ** [add_op] and the op list of a graph *)

Section GraphInvariantFacts.

Import Graph GraphInvariants.

Variable get_op_schema : op_kind_t → option op_schema_t.

Local Abbreviation add_op := (add_op get_op_schema).

Lemma add_op_cases (n : op_t) g h :
  add_op (Some n) g h =
  if none_of (λ op, N.eqb (op_id (get_op h op)) (op_id n)) (ops_ g)
  then if accepted get_op_schema n
       then (success, push_back_op (stored_copy get_op_schema n) g h)
       else (invalid_op, (g, h))
  else (success, (g, h)).
Proof.
  unfold Graph.add_op, accepted, stored_copy.
  destruct (none_of _ _); [|done].
  destruct (get_op_schema (op_kind n)) as [opm|]; [|done].
  by destruct (verify opm _).
Qed.

Lemma none_of_ids_not_in (n : op_t) g h :
  none_of (λ op, N.eqb (op_id (get_op h op)) (op_id n)) (ops_ g) = true ↔
  op_id n ∉ map (λ op, op_id (get_op h op)) (ops_ g).
Proof.
  unfold none_of. rewrite negb_true_iff. split.
  - intros Hex Hin. apply list_elem_of_fmap in Hin as (op & Hid & Hop).
    assert (existsb (λ op, N.eqb (op_id (get_op h op)) (op_id n)) (ops_ g)
            = true) as Hyes; [|congruence].
    apply existsb_exists. exists op.
    split; [by apply list_elem_of_In|]. apply N.eqb_eq. done.
  - intros Hnot. apply not_true_is_false. intros Hex.
    apply existsb_exists in Hex as (op & Hop & Hid).
    apply Hnot. apply list_elem_of_fmap. exists op.
    split; [by apply N.eqb_eq in Hid|by apply list_elem_of_In].
Qed.

Lemma add_op_status_cases (l_n : option op_t) (g : graph_t) (h : heap) :
  (add_op l_n g h).1 = success
  ∨ ((add_op l_n g h).1 = invalid_op ∧ (add_op l_n g h).2 = (g, h)).
Proof.
  destruct l_n as [n|]; [|by right].
  rewrite add_op_cases.
  destruct (none_of _ _); [|by left].
  destruct (accepted get_op_schema n); [by left|by right].
Qed.

(** X12 ([add_op] statuses): [add_op] returns [success] or
    [invalid_op]; the null pointer and an op whose copy does not verify
    yield [invalid_op], and whenever [invalid_op] is returned the op
    list, the ops and the values are left as they were. *)
Theorem add_op_failure_leaves_graph (l_n : option op_t) (g : graph_t)
    (h : heap) :
  ((add_op l_n g h).1 = success
   ∨ ((add_op l_n g h).1 = invalid_op ∧ (add_op l_n g h).2 = (g, h)))
  ∧ (add_op None g h).1 = invalid_op
  ∧ ∀ n, op_id n ∉ map (λ op, op_id (get_op h op)) (ops_ g) →
         accepted get_op_schema n = false →
         add_op (Some n) g h = (invalid_op, (g, h)).
Proof.
  split; [apply add_op_status_cases|]. split; [done|].
  intros n Hnew%none_of_ids_not_in Hrej.
  by rewrite add_op_cases, Hnew, Hrej.
Qed.

Lemma foldl_set_producer_vals vs p : ∀ h v,
  vals_mem (foldl (λ acc v, set_producer v p acc) h vs) !! v =
  if decide (v ∈ vs)
  then (λ x, mk_value (val_lt x) (Some p) (val_consumers x))
         <$> (vals_mem h !! v)
  else vals_mem h !! v.
Proof.
  induction vs as [|w vs IH]; intros h v; cbn [foldl].
  { destruct (decide (v ∈ [])) as [Hin|]; [|done].
    by apply not_elem_of_nil in Hin. }
  rewrite IH. unfold set_producer at 1 2. cbn [vals_mem].
  destruct (decide (v = w)) as [->|Hne].
  - rewrite lookup_alter_eq.
    destruct (decide (w ∈ w :: vs)) as [_|Hnin].
    2: { exfalso. apply Hnin, list_elem_of_here. }
    destruct (decide (w ∈ vs)); [|done].
    by destruct (vals_mem h !! w).
  - rewrite lookup_alter_ne by done.
    destruct (decide (v ∈ vs)) as [Hin|Hnin],
             (decide (v ∈ w :: vs)) as [Hin'|Hnin']; try done.
    + exfalso. by apply Hnin', list_elem_of_further.
    + exfalso. apply elem_of_cons in Hin' as [?|?]; done.
Qed.

Lemma foldl_set_producer_parts_mem vs p : ∀ h,
  parts_mem (foldl (λ acc v, set_producer v p acc) h vs) = parts_mem h.
Proof.
  induction vs as [|w vs IH]; intros h; cbn [foldl]; [done|].
  by rewrite IH.
Qed.

Lemma push_back_op_spec tmp_ln g h :
  let p := fresh (dom (ops_mem h)) in
  let st := push_back_op tmp_ln g h in
  ops_ st.1 = ops_ g ++ [p]
  ∧ engine_kind_ st.1 = engine_kind_ g
  ∧ partition_impls_ st.1 = partition_impls_ g
  ∧ (p ∉ dom (ops_mem h))
  ∧ ops_mem st.2 = <[p := tmp_ln]> (ops_mem h)
  ∧ parts_mem st.2 = parts_mem h
  ∧ ∀ v, vals_mem st.2 !! v =
         if decide (v ∈ op_outputs tmp_ln)
         then (λ x, mk_value (val_lt x) (Some p) (val_consumers x))
                <$> (vals_mem h !! v)
         else vals_mem h !! v.
Proof.
  unfold push_back_op. cbn [fst snd ops_ engine_kind_ partition_impls_].
  split; [done|]. split; [done|]. split; [done|].
  split; [apply is_fresh|].
  split; [by rewrite foldl_set_producer_ops_mem|].
  split; [by rewrite foldl_set_producer_parts_mem|].
  intros v. by rewrite foldl_set_producer_vals.
Qed.

(** X13 ([add_op] of a new op): when no op of the graph carries the id
    of [n] and [n] is accepted, [add_op] returns [success], appends one
    pointer to a new op object that holds the copy of [n] with its
    default attributes, leaves all other ops untouched, and makes that
    op the producer of each of its output values, whose tensors and
    consumers stay as they were. *)
Theorem add_op_new_id (n : op_t) (g : graph_t) (h : heap) :
  op_id n ∉ map (λ op, op_id (get_op h op)) (ops_ g) →
  accepted get_op_schema n = true →
  ∃ p g' h',
    add_op (Some n) g h = (success, (g', h'))
    ∧ ops_ g' = ops_ g ++ [p]
    ∧ (p ∉ dom (ops_mem h))
    ∧ ops_mem h' = <[p := stored_copy get_op_schema n]> (ops_mem h)
    ∧ (∀ v x, vals_mem h !! v = Some x →
              vals_mem h' !! v =
              Some (if decide (v ∈ op_outputs (stored_copy get_op_schema n))
                    then mk_value (val_lt x) (Some p) (val_consumers x)
                    else x))
    ∧ parts_mem h' = parts_mem h
    ∧ partition_impls_ g' = partition_impls_ g.
Proof.
  intros Hnew Hacc. apply none_of_ids_not_in in Hnew.
  pose proof (push_back_op_spec (stored_copy get_op_schema n) g h)
    as (Hops & _ & Hparts & Hfresh & Hmem & Hpm & Hvals).
  exists (fresh (dom (ops_mem h))),
         (push_back_op (stored_copy get_op_schema n) g h).1,
         (push_back_op (stored_copy get_op_schema n) g h).2.
  split.
  { rewrite add_op_cases, Hnew, Hacc.
    by destruct (push_back_op _ g h). }
  split; [done|]. split; [done|]. split; [done|].
  split; [|done].
  intros v x Hx. rewrite Hvals, Hx.
  by destruct (decide (v ∈ _)).
Qed.

Lemma get_op_insert_ne h h' p q o :
  ops_mem h' = <[p := o]> (ops_mem h) → q ≠ p → get_op h' q = get_op h q.
Proof.
  intros Hmem Hne. unfold get_op. rewrite Hmem.
  by rewrite lookup_total_insert_ne.
Qed.

(** X14 ([add_op] keeps ids unique): in a graph whose op pointers are
    live and distinct and whose ops carry pairwise different ids, every
    call of [add_op] leaves a graph with the same properties, as long as
    default attributes do not touch the id. *)
Theorem add_op_keeps_ids_unique (l_n : option op_t) (g : graph_t)
    (h : heap) :
  defaults_keep_id get_op_schema →
  ops_live g h → ids_unique g h →
  ops_live (add_op l_n g h).2.1 (add_op l_n g h).2.2
  ∧ ids_unique (add_op l_n g h).2.1 (add_op l_n g h).2.2.
Proof.
  intros Hkeep [Hnodup Hlive] Hids.
  destruct l_n as [n|]; [|done].
  rewrite add_op_cases.
  destruct (none_of _ _) eqn:Hnone; [|done].
  destruct (accepted get_op_schema n); [|done].
  apply none_of_ids_not_in in Hnone.
  pose proof (push_back_op_spec (stored_copy get_op_schema n) g h)
    as (Hops & _ & _ & Hfresh & Hmem & _).
  destruct (push_back_op _ g h) as [g' h']. simpl in *.
  assert (fresh (dom (ops_mem h)) ∉ ops_ g) as Hnotin.
  { intros Hin. by apply Hfresh, Hlive. }
  split; [split|].
  - rewrite Hops. apply NoDup_app. split; [done|].
    split; [|apply NoDup_singleton].
    intros op Hop ->%list_elem_of_singleton. done.
  - intros op. rewrite Hops, Hmem, dom_insert.
    intros [Hin| ->%list_elem_of_singleton]%elem_of_app.
    + apply elem_of_union. right. by apply Hlive.
    + apply elem_of_union. left. by apply elem_of_singleton.
  - unfold ids_unique. rewrite Hops, map_app. simpl.
    assert (map (λ op, op_id (get_op h' op)) (ops_ g)
            = map (λ op, op_id (get_op h op)) (ops_ g)) as ->.
    { apply map_ext_in. intros op Hin%list_elem_of_In.
      f_equal. eapply get_op_insert_ne; [done|]. by intros ->. }
    assert (op_id (get_op h' (fresh (dom (ops_mem h)))) = op_id n) as ->.
    { unfold get_op. rewrite Hmem, lookup_total_insert_eq.
      unfold stored_copy.
      destruct (get_op_schema (op_kind n)) as [opm|] eqn:Hs; [|done].
      by apply (Hkeep (op_kind n)). }
    apply NoDup_app. split; [done|]. split; [|apply NoDup_singleton].
    intros i Hi ->%list_elem_of_singleton. done.
Qed.

(** X15 ([add_op] is idempotent): a second [add_op] of the same op
    returns what the first returned and leaves the graph as the first
    left it, as long as default attributes do not touch the id. *)
Theorem add_op_idempotent (l_n : option op_t) (g : graph_t) (h : heap) :
  defaults_keep_id get_op_schema →
  add_op l_n (add_op l_n g h).2.1 (add_op l_n g h).2.2 = add_op l_n g h.
Proof.
  intros Hkeep. destruct l_n as [n|]; [|done].
  destruct (add_op_status_cases (Some n) g h) as [Hok|[_ Hsame]].
  - destruct (add_op (Some n) g h) as [st [g1 h1]] eqn:Hfirst.
    simpl in *. subst st.
    apply (add_op_twice get_op_schema n g g1 h h1); [|done].
    intros opm Hs. by apply (Hkeep (op_kind n)).
  - by rewrite Hsame.
Qed.

Lemma sum_list_0 (l : list nat) : sum_list l = 0 → ∀ x, x ∈ l → x = 0.
Proof.
  induction l as [|y l IH]; simpl; intros Hsum x Hx.
  - by apply not_elem_of_nil in Hx.
  - apply elem_of_cons in Hx as [->|Hx]; [lia|]. apply IH; [lia|done].
Qed.

(** X16 ([get_output_ops] and [get_output_values]): an op returned by
    [get_output_ops] is an op of the graph none of whose outputs has a
    consumer, and each of its outputs is returned by
    [get_output_values]. *)
Theorem output_ops_outputs_are_graph_outputs (g : graph_t) (h : heap)
    (n : op_ptr) :
  n ∈ get_output_ops g h →
  n ∈ ops_ g
  ∧ ∀ v, v ∈ op_outputs (get_op h n) →
         val_consumers (get_value h v) = []
         ∧ v ∈ get_output_values g h.
Proof.
  unfold get_output_ops.
  intros Hn%list_elem_of_In%filter_In. destruct Hn as [Hin Hsum].
  apply list_elem_of_In in Hin. apply Nat.eqb_eq in Hsum.
  split; [done|]. intros v Hv.
  assert (val_consumers (get_value h v) = []) as Hnil.
  { apply length_zero_iff_nil.
    apply (sum_list_0 _ Hsum (num_output_consumers h v)).
    apply list_elem_of_In, in_map, list_elem_of_In. done. }
  split; [done|].
  unfold get_output_values. apply list_elem_of_In, in_flat_map.
  exists n. split; [by apply list_elem_of_In|].
  apply filter_In. split; [by apply list_elem_of_In|].
  unfold is_graph_output. rewrite Hnil. done.
Qed.

End GraphInvariantFacts.

Lemma add_op_new_id_witness :
  ∃ p g' h',
    Graph.add_op Examples.lax_registry (Some GraphInvariants.ex_fresh_op)
                 Examples.ex_graph Examples.ex_heap
    = (success, (g', h'))
    ∧ ops_ g' = [1; 2] ++ [p]
    ∧ (p ∉ dom Examples.ex_ops).
Proof.
  destruct (add_op_new_id Examples.lax_registry GraphInvariants.ex_fresh_op
              Examples.ex_graph Examples.ex_heap)
    as (p & g' & h' & Hadd & Hops & Hfresh & _).
  - vm_compute. intros Hin.
    repeat (apply elem_of_cons in Hin as [Hin|Hin]; [discriminate|]).
    by apply not_elem_of_nil in Hin.
  - reflexivity.
  - exists p, g', h'. done.
Defined.

Lemma add_op_keeps_ids_unique_witness :
  GraphInvariants.ids_unique
    (Graph.add_op Examples.lax_registry (Some GraphInvariants.ex_fresh_op)
       Examples.ex_graph Examples.ex_heap).2.1
    (Graph.add_op Examples.lax_registry (Some GraphInvariants.ex_fresh_op)
       Examples.ex_graph Examples.ex_heap).2.2.
Proof.
  apply (add_op_keeps_ids_unique Examples.lax_registry
           (Some GraphInvariants.ex_fresh_op) Examples.ex_graph
           Examples.ex_heap).
  - intros kind opm o [= <-]. reflexivity.
  - split.
    + apply (bool_decide_unpack _). by vm_compute.
    + intros op Hop. apply elem_of_dom.
      repeat (apply elem_of_cons in Hop as [->|Hop]; [by eexists|]).
      by apply not_elem_of_nil in Hop.
  - unfold GraphInvariants.ids_unique.
    apply (bool_decide_unpack _). by vm_compute.
Defined.

Lemma add_op_idempotent_witness :
  Graph.add_op Examples.lax_registry (Some GraphInvariants.ex_fresh_op)
    (Graph.add_op Examples.lax_registry (Some GraphInvariants.ex_fresh_op)
       Examples.ex_graph Examples.ex_heap).2.1
    (Graph.add_op Examples.lax_registry (Some GraphInvariants.ex_fresh_op)
       Examples.ex_graph Examples.ex_heap).2.2
  = Graph.add_op Examples.lax_registry (Some GraphInvariants.ex_fresh_op)
      Examples.ex_graph Examples.ex_heap.
Proof.
  apply (add_op_idempotent Examples.lax_registry).
  intros kind opm o [= <-]. reflexivity.
Defined.

Lemma output_ops_outputs_are_graph_outputs_witness :
  2 ∈ ops_ Examples.ex_graph
  ∧ ∀ v, v ∈ op_outputs (get_op Examples.ex_heap 2) →
         val_consumers (get_value Examples.ex_heap v) = []
         ∧ v ∈ Graph.get_output_values Examples.ex_graph Examples.ex_heap.
Proof.
  apply (output_ops_outputs_are_graph_outputs Examples.ex_graph
           Examples.ex_heap 2).
  vm_compute. apply list_elem_of_here.
Defined.

(** ** Dense strides and the boundary check *)

Section DenseStridesFacts.

Import Partitioner PassUtils.
Local Open Scope Z_scope.

Lemma to_int_small z : - 2 ^ 31 ≤ z < 2 ^ 31 → to_int z = z.
Proof. intros Hz. unfold to_int. rewrite Z.mod_small; lia. Qed.

Lemma to_int_range z : - 2 ^ 31 ≤ to_int z < 2 ^ 31.
Proof.
  unfold to_int.
  pose proof (Z.mod_pos_bound (z + 2 ^ 31) (2 ^ 32) ltac:(lia)). lia.
Qed.

Lemma product_app l1 l2 : product (l1 ++ l2) = product l1 * product l2.
Proof.
  unfold product. induction l1 as [|x l1 IH]; simpl; [lia|].
  rewrite IH. lia.
Qed.

Lemma product_pos l : Forall (λ d, 1 ≤ d) l → 1 ≤ product l.
Proof.
  unfold product. induction 1 as [|x l Hx Hl IH]; simpl; [lia|]. nia.
Qed.

Lemma accumulate_int_exact l : ∀ acc,
  Forall (λ d, 1 ≤ d) l → 1 ≤ acc → acc * product l < 2 ^ 31 →
  foldl (λ acc x, to_int (acc * x)) acc l = acc * product l.
Proof.
  induction l as [|x l IH]; intros acc Hall Hacc Hfit; simpl.
  { unfold product. simpl. lia. }
  apply Forall_cons in Hall as [Hx Hall].
  pose proof (product_pos l Hall) as Hp.
  change (product (x :: l)) with (x * product l) in *.
  assert (acc * x ≤ acc * x * product l) by nia.
  rewrite to_int_small by nia.
  rewrite IH; [lia|done|nia|lia].
Qed.

Lemma get_dense_strides_length shape :
  length (get_dense_strides shape) = length shape.
Proof. unfold get_dense_strides. by rewrite length_map, length_seq. Qed.

Lemma get_dense_strides_nth shape i :
  (i < length shape)%nat →
  nth i (get_dense_strides shape) 0 = accumulate_int (drop (S i) shape).
Proof.
  intros Hi. unfold get_dense_strides.
  rewrite (nth_indep _ 0 (accumulate_int (drop (S 0) shape)))
    by (rewrite length_map, length_seq; lia).
  rewrite (map_nth (λ dist, accumulate_int (drop (S dist) shape))).
  by rewrite seq_nth by lia.
Qed.

Lemma product_drop_le shape i :
  Forall (λ d, 1 ≤ d) shape → product (drop i shape) ≤ product shape.
Proof.
  intros Hall. rewrite <- (take_drop i shape) at 2. rewrite product_app.
  pose proof (product_pos (take i shape) (Forall_take _ _ _ Hall)).
  pose proof (product_pos (drop i shape) (Forall_drop _ _ _ Hall)). nia.
Qed.

(** Without overflow the strides are the exact products of the
    dimensions that follow. *)
Lemma get_dense_strides_exact shape i :
  Forall (λ d, 1 ≤ d) shape → product shape < 2 ^ 31 →
  (i < length shape)%nat →
  nth i (get_dense_strides shape) 0 = product (drop (S i) shape).
Proof.
  intros Hall Hfit Hi. rewrite get_dense_strides_nth by done.
  unfold accumulate_int. rewrite accumulate_int_exact; [lia| |lia|].
  - by apply Forall_drop.
  - pose proof (product_drop_le shape (S i) Hall). lia.
Qed.

Lemma product_drop_S shape i d :
  shape !! i = Some d →
  product (drop i shape) = d * product (drop (S i) shape).
Proof. intros Hd. by rewrite (drop_S _ _ _ Hd). Qed.

Lemma array_prefix_full (a : list Z) : array_prefix (length a) a = a.
Proof.
  unfold array_prefix. apply nth_ext with 0 0.
  { by rewrite length_map, length_seq. }
  intros i Hi. rewrite length_map, length_seq in Hi.
  rewrite (nth_indep _ 0 (nth 0%nat a 0))
    by (rewrite length_map, length_seq; lia).
  rewrite (map_nth (λ i, nth i a 0)). by rewrite seq_nth by lia.
Qed.

Lemma nth_lookup_Z (l : list Z) i d : l !! i = Some d → nth i l 0 = d.
Proof. intros Hd. by rewrite nth_lookup, Hd. Qed.

(** The indices from the last dimension to the first. *)
Lemma rev_seq_sorted shape :
  Forall (λ d, 1 ≤ d) shape → product shape < 2 ^ 31 →
  sorted_by (index_less (get_dense_strides shape) shape)
            (rev (seq 0 (length shape))).
Proof.
  intros Hall Hfit. unfold sorted_by.
  assert (∀ n, (n ≤ length shape)%nat →
    StronglySorted
      (λ i j, index_less (get_dense_strides shape) shape j i = false)
      (rev (seq 0 n))) as Hgen; [|by apply Hgen].
  induction n as [|n IH]; intros Hn; [constructor|].
  rewrite seq_S, rev_app_distr. simpl. constructor; [apply IH; lia|].
  apply Forall_forall. intros j Hj.
  apply list_elem_of_In, in_rev, list_elem_of_In, elem_of_seq in Hj.
  apply index_less_key. unfold key, key_le. simpl.
  rewrite !get_dense_strides_exact by (done || lia).
  destruct (lookup_lt_is_Some_2 shape n ltac:(lia)) as [dn Hdn].
  destruct (lookup_lt_is_Some_2 shape j ltac:(lia)) as [dj Hdj].
  rewrite (nth_lookup_Z shape n dn Hdn), (nth_lookup_Z shape j dj Hdj).
  assert (1 ≤ dn) as Hdn1.
  { rewrite Forall_forall in Hall. apply Hall.
    by apply list_elem_of_lookup_2 in Hdn. }
  assert (1 ≤ dj) as Hdj1.
  { rewrite Forall_forall in Hall. apply Hall.
    by apply list_elem_of_lookup_2 in Hdj. }
  (* product (drop (S j)) = product (between) * dn * product (drop (S n)) *)
  assert (drop (S j) shape
          = take (n - S j) (drop (S j) shape) ++ drop n shape) as Hsplit.
  { rewrite <- (take_drop (n - S j) (drop (S j) shape)) at 1.
    rewrite drop_drop. do 2 f_equal. lia. }
  rewrite Hsplit, product_app, (product_drop_S shape n dn Hdn).
  pose proof (product_pos (take (n - S j) (drop (S j) shape))
                (Forall_take _ _ _ (Forall_drop _ _ _ Hall))) as Hmid.
  pose proof (product_pos (drop (S n) shape) (Forall_drop _ _ _ Hall))
    as Hlow.
  set (m := product (take (n - S j) (drop (S j) shape))) in *.
  set (q := product (drop (S n) shape)) in *.
  destruct (decide (q < m * (dn * q))) as [Hlt|Hge]; [by left|].
  assert (m * dn ≤ 1) as Hmd.
  { destruct (decide (m * dn ≤ 1)) as [|Hbig]; [done|].
    exfalso. apply Hge.
    assert (2 * q ≤ m * dn * q) by (apply Z.mul_le_mono_nonneg_r; lia).
    lia. }
  assert (dn = 1) as -> by nia.
  assert (m = 1) as Hm1 by lia.
  right. split; [rewrite Hm1; lia|lia].
Qed.

Lemma rev_seq_check_chain shape : ∀ n,
  Forall (λ d, 1 ≤ d) shape → product shape < 2 ^ 31 →
  (S n ≤ length shape)%nat →
  check_chain (get_dense_strides shape) shape n (rev (seq 0 n)) = true.
Proof.
  intros n Hall Hfit. induction n as [|n IH]; intros Hn; [done|].
  rewrite seq_S, rev_app_distr. simpl.
  rewrite !get_dense_strides_exact by (done || lia).
  destruct (lookup_lt_is_Some_2 shape (S n) ltac:(lia)) as [d Hd].
  rewrite (nth_lookup_Z shape (S n) d Hd).
  pose proof (product_drop_le shape (S n) Hall) as Hle.
  pose proof (product_pos _ (Forall_drop _ (S n) _ Hall)) as Hpos.
  rewrite (product_drop_S shape (S n) d Hd) in Hle, Hpos |- *.
  unfold int64_mul.
  rewrite wrap_int64_small by lia.
  rewrite (proj2 (Z.eqb_eq _ _)) by lia. simpl.
  apply IH. lia.
Qed.

Lemma dense_tensor_valid id shape :
  shape ≠ [] → Forall (λ d, 1 ≤ d) shape → product shape < 2 ^ 31 →
  check_logical_tensor_validity (dense_tensor id shape) = true.
Proof.
  intros Hne Hall Hfit.
  unfold check_logical_tensor_validity, dense_tensor. simpl.
  destruct shape as [|d0 shape0] eqn:Hshape; [done|].
  rewrite <- Hshape in *.
  assert (0 < Z.of_nat (length shape)) as Hlen by (subst; simpl; lia).
  rewrite (proj2 (Z.leb_gt _ _)) by lia.
  rewrite Nat2Z.id.
  assert (array_prefix (length shape) (get_dense_strides shape)
          = get_dense_strides shape) as Hpre.
  { rewrite <- (get_dense_strides_length shape) at 1.
    apply array_prefix_full. }
  rewrite !Hpre, !array_prefix_full.
  rewrite <- (check_dense_sort_independent _ _ _
                (rev (seq 0 (length shape)))).
  - assert (length shape = S (length shape0)) as -> by (subst; done).
    rewrite seq_S, rev_app_distr. simpl.
    rewrite get_dense_strides_exact by (done || subst; simpl; lia).
    rewrite drop_ge by (subst; simpl; lia).
    change (product []) with 1. simpl.
    apply rev_seq_check_chain; [done..|subst; simpl; lia].
  - symmetry. apply Permutation_rev.
  - by apply rev_seq_sorted.
Qed.

(** X17 ([get_dense_strides] and the boundary check): for a non-empty
    shape of positive dimensions whose element count fits an [int], the
    strides are the exact products of the dimensions that follow, and
    the strided tensor with these strides passes
    [check_logical_tensor_validity]. *)
Theorem dense_strides_pass_validity (id : N) (shape : list Z) :
  shape ≠ [] → Forall (λ d, 1 ≤ d) shape → product shape < 2 ^ 31 →
  (∀ i, (i < length shape)%nat →
        nth i (get_dense_strides shape) 0 = product (drop (S i) shape))
  ∧ check_logical_tensor_validity (dense_tensor id shape) = true.
Proof.
  intros Hne Hall Hfit. split.
  - intros i Hi. by apply get_dense_strides_exact.
  - by apply dense_tensor_valid.
Qed.

(** X18 (the [int] accumulator of [get_dense_strides]): whatever the
    shape, one stride is returned per dimension, the last one is [1],
    and every stride lies in the range of [int]: a product of trailing
    dimensions beyond that range is not what the function returns. *)
Theorem dense_strides_int_range (shape : list Z) :
  length (get_dense_strides shape) = length shape
  ∧ Forall (λ s, - 2 ^ 31 ≤ s < 2 ^ 31) (get_dense_strides shape)
  ∧ (shape ≠ [] → last (get_dense_strides shape) = Some 1).
Proof.
  split; [apply get_dense_strides_length|]. split.
  - unfold get_dense_strides. apply Forall_forall. intros s Hs.
    apply list_elem_of_fmap in Hs as (i & -> & _).
    unfold accumulate_int.
    destruct (drop (S i) shape) as [|x l] using rev_ind; [simpl; lia|].
    rewrite foldl_snoc. apply to_int_range.
  - intros Hne. unfold get_dense_strides.
    destruct shape as [|d shape] using rev_ind; [done|].
    rewrite length_app. simpl.
    replace (length shape + 1)%nat with (S (length shape)) by lia.
    rewrite seq_S, map_app. cbn [map]. rewrite last_snoc.
    rewrite drop_ge by (rewrite length_app; simpl; lia). done.
Qed.

(** X19 (the boundary check and [std::sort]): whatever order [std::sort]
    leaves equal elements in, the checks that follow give the answer of
    [check_logical_tensor_validity]: they agree on every sorted
    rearrangement of the indices. *)
Theorem validity_independent_of_sort_order (lt : logical_tensor_t)
    (indices : list nat) :
  lt_layout_type lt = lt_strided → 0 < lt_ndims lt →
  indices ≡ₚ seq 0 (Z.to_nat (lt_ndims lt)) →
  sorted_by (index_less
               (array_prefix (Z.to_nat (lt_ndims lt)) (lt_strides lt))
               (array_prefix (Z.to_nat (lt_ndims lt)) (lt_dims lt)))
            indices →
  check_dense (array_prefix (Z.to_nat (lt_ndims lt)) (lt_strides lt))
              (array_prefix (Z.to_nat (lt_ndims lt)) (lt_dims lt))
              indices
  = check_logical_tensor_validity lt.
Proof.
  intros Hl Hn Hperm Hsorted. unfold check_logical_tensor_validity.
  rewrite bool_decide_eq_true_2 by done. simpl.
  rewrite (proj2 (Z.leb_gt _ _)) by lia.
  by apply check_dense_sort_independent.
Qed.

End DenseStridesFacts.

Lemma dense_strides_pass_validity_witness :
  (∀ i, i < 3 →
        nth i (PassUtils.get_dense_strides [3; 4; 5]%Z) 0%Z
        = PassUtils.product (drop (S i) [3; 4; 5]%Z))
  ∧ Partitioner.check_logical_tensor_validity
      (PassUtils.dense_tensor 7%N [3; 4; 5]%Z) = true.
Proof.
  apply (dense_strides_pass_validity 7%N [3; 4; 5]%Z).
  - done.
  - repeat constructor; lia.
  - by vm_compute.
Defined.

Lemma validity_independent_of_sort_order_witness :
  Partitioner.check_dense [3; 1]%Z [2; 3]%Z [1; 0]
  = Partitioner.check_logical_tensor_validity (Examples.dense_2x3 10%N).
Proof.
  apply (validity_independent_of_sort_order (Examples.dense_2x3 10%N)
           [1; 0]).
  - reflexivity.
  - by vm_compute.
  - apply Permutation_swap.
  - unfold Partitioner.sorted_by. repeat constructor.
Defined.

(** ** The partition pointers of the ops *)

Section BackPointerFacts.

Import Partitioner.

(** [pairs[i]->set_partition(pimpl.get())] on the op record. *)
Local Abbreviation claim q :=
  (λ o, mk_op (op_id o) (op_kind o) (op_attrs o) (op_inputs o)
              (op_outputs o) (Some q)).

Lemma foldl_claim_lookup (q : part_ptr) pairs : ∀ (m : gmap op_ptr op_t) p,
  foldl (λ m op, alter (claim q) op m) m pairs !! p =
  if decide (p ∈ pairs) then claim q <$> (m !! p) else m !! p.
Proof.
  induction pairs as [|op pairs IH]; intros m p; cbn [foldl].
  { destruct (decide (p ∈ [])) as [Hin|]; [|done].
    by apply not_elem_of_nil in Hin. }
  rewrite IH.
  destruct (decide (p = op)) as [->|Hne].
  - rewrite lookup_alter_eq.
    destruct (decide (op ∈ op :: pairs)) as [_|Hnin].
    2: { exfalso. apply Hnin, list_elem_of_here. }
    destruct (decide (op ∈ pairs)); [|done].
    by destruct (m !! op).
  - rewrite lookup_alter_ne by done.
    destruct (decide (p ∈ pairs)) as [Hin|Hnin],
             (decide (p ∈ op :: pairs)) as [Hin'|Hnin']; try done.
    + exfalso. by apply Hnin', list_elem_of_further.
    + exfalso. apply elem_of_cons in Hin' as [?|?]; done.
Qed.

(** What one iteration does to the op at [p]. *)
Lemma set_partition_of_op pairs g h g' h' p :
  set_partition_of pairs (g, h) = (g', h') →
  dom (ops_mem h') = dom (ops_mem h)
  ∧ ((match_valid h pairs = true ∧ p ∈ pairs ∧
      ops_mem h' !! p
      = claim (fresh (dom (parts_mem h))) <$> (ops_mem h !! p))
     ∨ ((match_valid h pairs = false ∨ p ∉ pairs)
        ∧ ops_mem h' !! p = ops_mem h !! p)).
Proof.
  intros Hstep.
  destruct (set_partition_of_spec _ _ _ _ _ Hstep)
    as (_ & _ & _ & [(Hv & -> & ->)|(Hv & Hom & _ & _)]).
  { split; [done|]. right. split; [by left|done]. }
  split.
  - apply set_eq. intros x. rewrite !elem_of_dom, Hom, foldl_claim_lookup.
    destruct (decide (x ∈ pairs)); [|done].
    by rewrite fmap_is_Some.
  - rewrite Hom, foldl_claim_lookup.
    destruct (decide (p ∈ pairs)) as [Hin|Hnin].
    + left. done.
    + right. split; [by right|done].
Qed.

Lemma set_partitions_back_pointers_aux fusion_ops : ∀ g h g' h' p o,
  set_partitions g h fusion_ops = (g', h') →
  ops_mem h !! p = Some o →
  (∃ part, ops_mem h' !! p
           = Some (mk_op (op_id o) (op_kind o) (op_attrs o) (op_inputs o)
                         (op_outputs o) part))
  ∧ ((∀ pairs, pairs ∈ fusion_ops → match_valid h pairs = true →
               p ∉ pairs) →
     ops_mem h' !! p = Some o)
  ∧ ((∃ pairs, pairs ∈ fusion_ops ∧ match_valid h pairs = true
               ∧ p ∈ pairs) →
     ∃ q, op_partition (get_op h' p) = Some q
          ∧ q ∈ partition_impls_ g'
          ∧ (q ∉ dom (parts_mem h))
          ∧ p ∈ part_ops (get_part h' q)).
Proof.
  induction fusion_ops as [|pairs fusion_ops IH]; intros g h g' h' p o.
  { intros [= <- <-] Ho. split; [exists (op_partition o); by destruct o|].
    split; [done|]. intros (pairs & Hin & _). by apply not_elem_of_nil in Hin. }
  rewrite set_partitions_cons.
  destruct (set_partition_of pairs (g, h)) as [g1 h1] eqn:Hstep.
  cbn [fst snd]. intros Hrun Ho.
  destruct (set_partition_of_spec _ _ _ _ _ Hstep) as (Ht & _ & _ & Hcase).
  destruct (set_partition_of_op _ _ _ _ _ p Hstep) as [Hdom Hop].
  assert (∀ x, match_valid h1 x = match_valid h x) as Hsame
    by (intros x; by apply match_valid_same).
  destruct (set_partitions_spec _ _ _ _ _ Hrun)
    as (_ & _ & Hkeep & news & Hnews & _).
  assert (∃ o1, ops_mem h1 !! p = Some o1
                ∧ op_id o1 = op_id o ∧ op_kind o1 = op_kind o
                ∧ op_attrs o1 = op_attrs o ∧ op_inputs o1 = op_inputs o
                ∧ op_outputs o1 = op_outputs o) as (o1 & Ho1 & Hf).
  { destruct Hop as [(_ & _ & ->)|(_ & ->)]; rewrite Ho; simpl;
      eexists; (split; [done|]); done. }
  destruct (IH g1 h1 g' h' p o1 Hrun Ho1) as ((part & Hfinal) & Hframe & Hmem).
  destruct Hf as (Hid & Hkind & Hattrs & Hins & Houts).
  split; [|split].
  - exists part. rewrite Hfinal. by rewrite Hid, Hkind, Hattrs, Hins, Houts.
  - intros Hnone.
    rewrite Hframe.
    + destruct Hop as [(Hv & Hin & _)|(_ & Heq)].
      * exfalso. apply (Hnone pairs); [apply list_elem_of_here|done..].
      * congruence.
    + intros x Hx Hvx. apply Hnone; [by apply list_elem_of_further|].
      by rewrite <- Hsame.
  - intros (x & Hx & Hvx & Hpx).
    destruct (decide (Exists (λ y, match_valid h1 y = true ∧ p ∈ y)
                             fusion_ops)) as [Hlater|Hnolater].
    + apply Exists_exists in Hlater as (y & Hy & Hvy & Hpy).
      destruct Hmem as (q & Hq & Hqin & Hqnew & Hqops); [by exists y|].
      exists q. split; [done|]. split; [done|]. split; [|done].
      intros Hqold. apply Hqnew.
      destruct Hcase as [(_ & _ & ->)|(_ & _ & _ & Hpm)]; [done|].
      rewrite Hpm, dom_insert. apply elem_of_union. by right.
    + assert (x = pairs) as ->.
      { apply elem_of_cons in Hx as [->|Hx]; [done|].
        exfalso. apply Hnolater, Exists_exists. exists x.
        by rewrite Hsame. }
      destruct Hcase as [(Hbad & _)|(_ & _ & Hparts & Hpm)]; [congruence|].
      destruct Hop as [(_ & _ & Hclaim)|([Hbad|Hbad] & _)];
        [|congruence|done].
      set (q0 := fresh (dom (parts_mem h))) in *.
      exists q0.
      assert (ops_mem h' !! p = Some o1) as Hkept.
      { apply Hframe. intros y Hy Hvy Hpy.
        apply Hnolater, Exists_exists. by exists y. }
      rewrite Ho in Hclaim. simpl in Hclaim.
      assert (o1 = claim q0 o) as -> by congruence.
      split; [|split; [|split]].
      * unfold get_op. by rewrite lookup_total_alt, Hkept.
      * rewrite Hnews, Hparts. apply elem_of_app. left.
        apply elem_of_app. right. apply list_elem_of_here.
      * apply is_fresh.
      * unfold get_part. rewrite lookup_total_alt, Hkeep, Hpm.
        -- rewrite lookup_insert_eq. done.
        -- rewrite Hpm, dom_insert. apply elem_of_union. left.
           by apply elem_of_singleton.
Qed.

(** X20 (back pointers of [set_partitions]): the loop changes nothing
    of a live op but its partition pointer; an op that lies in no match
    passing the boundary check is left exactly as it was, and an op of
    such a match ends up pointing to one of the newly added partitions,
    which lists it among its ops. *)
Theorem set_partitions_back_pointers (g : graph_t) (h : heap)
    (fusion_ops : list (list op_ptr)) (g' : graph_t) (h' : heap)
    (p : op_ptr) (o : op_t) :
  set_partitions g h fusion_ops = (g', h') →
  ops_mem h !! p = Some o →
  (∃ part, ops_mem h' !! p
           = Some (mk_op (op_id o) (op_kind o) (op_attrs o) (op_inputs o)
                         (op_outputs o) part))
  ∧ ((∀ pairs, pairs ∈ fusion_ops → match_valid h pairs = true →
               p ∉ pairs) →
     ops_mem h' !! p = Some o)
  ∧ ((∃ pairs, pairs ∈ fusion_ops ∧ match_valid h pairs = true
               ∧ p ∈ pairs) →
     ∃ q, op_partition (get_op h' p) = Some q
          ∧ q ∈ partition_impls_ g'
          ∧ (q ∉ dom (parts_mem h))
          ∧ p ∈ part_ops (get_part h' q)).
Proof. apply set_partitions_back_pointers_aux. Qed.

End BackPointerFacts.

Lemma set_partitions_back_pointers_witness :
  ∃ g' h' part,
    Partitioner.set_partitions Examples.ex_graph Examples.ex_heap [[1; 2]]
    = (g', h')
    ∧ ops_mem h' !! 1 = Some (mk_op 101%N 7%N [] [10] [11] part).
Proof.
  destruct (Partitioner.set_partitions Examples.ex_graph Examples.ex_heap
              [[1; 2]]) as [g' h'] eqn:Hrun.
  destruct (set_partitions_back_pointers Examples.ex_graph Examples.ex_heap
              [[1; 2]] g' h' 1 (mk_op 101%N 7%N [] [10] [11] None) Hrun
              eq_refl) as ((part & Hpart) & _).
  exists g', h', part. done.
Defined.

(** ** The kernel registry *)

Section KernelRegistryFacts.

Import KernelRegistry.

Context {kernel_ptr : Type} (null : kernel_ptr).
Implicit Types (r : kernel_registry_t kernel_ptr).
Implicit Types (regs : list (op_kind_t * kernel_creator_f kernel_ptr)).

Lemma register_all_cons p regs r :
  register_all kernel_ptr (p :: regs) r
  = register_all kernel_ptr regs (register_kernel kernel_ptr p.1 p.2 r).2.
Proof. done. Qed.

Lemma register_all_lookup regs : ∀ r kind,
  kernel_creator_f_map_ _ (register_all kernel_ptr regs r) !! kind
  = match kernel_creator_f_map_ _ r !! kind with
    | Some fn => Some fn
    | None => first_creator kernel_ptr kind regs
    end.
Proof.
  induction regs as [|[k fn] regs IH]; intros r kind.
  { simpl. by destruct (_ !! kind). }
  rewrite register_all_cons, IH. simpl.
  destruct (kernel_creator_f_map_ _ r !! k) eqn:Hk.
  - destruct (decide (k = kind)) as [->|Hne]; [by rewrite Hk|done].
  - destruct (decide (k = kind)) as [->|Hne].
    + by rewrite lookup_insert_eq, Hk.
    + by rewrite lookup_insert_ne.
Qed.

Lemma register_all_dom regs : ∀ r,
  dom (kernel_creator_f_map_ _ (register_all kernel_ptr regs r))
  = dom (kernel_creator_f_map_ _ r) ∪ list_to_set regs.*1.
Proof.
  induction regs as [|[k fn] regs IH]; intros r.
  { simpl. by rewrite union_empty_r_L. }
  rewrite register_all_cons, IH. simpl.
  destruct (kernel_creator_f_map_ _ r !! k) eqn:Hk.
  - apply elem_of_dom_2 in Hk.
    rewrite union_assoc_L. f_equal. symmetry.
    rewrite union_comm_L.
    apply subseteq_union_1_L. by apply singleton_subseteq_l.
  - rewrite dom_insert_L, union_assoc_L. f_equal. apply union_comm_L.
Qed.

(** X21 ([kernel_registry_t]): every registration reports [true], but
    only the first one for an op kind counts: [create_kernel] calls the
    creator registered first for the kind of the op and returns the
    empty pointer for a kind never registered, and the number of
    registered kernels is the number of different kinds. *)
Theorem register_kernel_first_wins regs (aop : op_t) :
  create_kernel kernel_ptr null
    (register_all kernel_ptr regs (new_registry kernel_ptr)) aop
  = match first_creator kernel_ptr (op_kind aop) regs with
    | Some create_fn => create_fn tt
    | None => null
    end
  ∧ get_register_kernels_num kernel_ptr
      (register_all kernel_ptr regs (new_registry kernel_ptr))
    = size (list_to_set regs.*1 : gset op_kind_t)
  ∧ ∀ kind fn r, (register_kernel kernel_ptr kind fn r).1 = true.
Proof.
  split; [|split; [|done]].
  - unfold create_kernel. by rewrite register_all_lookup.
  - unfold get_register_kernels_num.
    rewrite <- size_dom, register_all_dom. simpl.
    by rewrite dom_empty_L, union_empty_l_L.
Qed.

End KernelRegistryFacts.

(** ** The manager of primitive attributes *)

Section PrimitiveAttrMgrFacts.

Import PrimitiveAttrMgr.
Local Open Scope Z_scope.

Context {primitive_attr : Type} (default_attr : primitive_attr).
Implicit Types (m : primitive_attr_mgr_t primitive_attr).

Lemma keys_below_new_mgr :
  keys_below primitive_attr (new_mgr primitive_attr).
Proof.
  split; [done|]. intros k Hk. simpl in Hk.
  rewrite dom_empty_L in Hk. by apply not_elem_of_empty in Hk.
Qed.

(** X22 ([primitive_attr_mgr_t::init_attr]): while every key in use was
    handed out by [init_attr] and the counter is below its maximum, a
    call returns the counter as a key that was not in use, maps it to a
    default attribute without touching another entry, advances the
    counter by one, and [get_attr] on the key gives the default
    attribute and changes nothing. *)
Theorem init_attr_fresh_key m :
  keys_below primitive_attr m → counter _ m < 2 ^ 63 - 1 →
  (init_attr primitive_attr default_attr m).1 = counter _ m
  ∧ ((init_attr primitive_attr default_attr m).1 ∉ dom (data_ _ m))
  ∧ data_ _ (init_attr primitive_attr default_attr m).2
    = <[counter _ m := default_attr]> (data_ _ m)
  ∧ counter _ (init_attr primitive_attr default_attr m).2
    = counter _ m + 1
  ∧ keys_below primitive_attr (init_attr primitive_attr default_attr m).2
  ∧ get_attr primitive_attr default_attr
      (init_attr primitive_attr default_attr m).1
      (init_attr primitive_attr default_attr m).2
    = Some (default_attr, (init_attr primitive_attr default_attr m).2).
Proof.
  intros [Hc Hkeys] Hmax.
  assert (counter _ m ∉ dom (data_ _ m)) as Hfresh.
  { intros Hin. apply Hkeys in Hin. lia. }
  assert (data_ _ m !! counter _ m = None) as Hnone
    by by apply not_elem_of_dom.
  unfold init_attr. simpl. rewrite Hnone.
  rewrite wrap_int64_small by lia.
  split; [done|]. split; [done|]. split; [done|]. split; [done|]. split.
  - split; simpl; [lia|]. intros k Hk.
    rewrite dom_insert_L in Hk.
    apply elem_of_union in Hk as [Hk|Hk].
    + apply elem_of_singleton in Hk. lia.
    + apply Hkeys in Hk. lia.
  - unfold get_attr. simpl.
    destruct (decide (counter _ m = -1)); [lia|].
    by rewrite lookup_insert_eq.
Qed.

(** X23 ([get_attr] makes entries): [get_attr] on the key that
    [init_attr] is to hand out next makes the entry, and after a write
    through the returned reference the next [init_attr] returns that key
    with the written attribute in place of a default one. *)
Theorem init_attr_reuses_stray_key m (a : primitive_attr) :
  0 ≤ counter _ m → data_ _ m !! counter _ m = None →
  ∃ m1,
    get_attr primitive_attr default_attr (counter _ m) m
    = Some (default_attr, m1)
    ∧ (init_attr primitive_attr default_attr
         (write_attr primitive_attr (counter _ m) a m1)).1
      = counter _ m
    ∧ data_ _ (init_attr primitive_attr default_attr
                 (write_attr primitive_attr (counter _ m) a m1)).2
      !! counter _ m
      = Some a.
Proof.
  intros Hc Hnone. unfold get_attr.
  destruct (decide (counter _ m = -1)); [lia|].
  rewrite Hnone. eexists. split; [done|].
  unfold init_attr, write_attr. simpl.
  rewrite lookup_insert_eq. split; [done|].
  by rewrite lookup_insert_eq.
Qed.

End PrimitiveAttrMgrFacts.

Lemma init_attr_fresh_key_witness :
  (PrimitiveAttrMgr.init_attr nat 0%nat (PrimitiveAttrMgr.new_mgr nat)).1
  = 0%Z
  ∧ PrimitiveAttrMgr.counter _
      (PrimitiveAttrMgr.init_attr nat 0%nat
         (PrimitiveAttrMgr.new_mgr nat)).2
    = 1%Z.
Proof.
  destruct (init_attr_fresh_key 0%nat (PrimitiveAttrMgr.new_mgr nat))
    as (H1 & _ & _ & H2 & _).
  - apply keys_below_new_mgr.
  - by vm_compute.
  - split; [exact H1|exact H2].
Defined.

Lemma init_attr_reuses_stray_key_witness :
  ∃ m1,
    PrimitiveAttrMgr.get_attr nat 0%nat 0%Z (PrimitiveAttrMgr.new_mgr nat)
    = Some (0%nat, m1)
    ∧ (PrimitiveAttrMgr.init_attr nat 0%nat
         (PrimitiveAttrMgr.write_attr nat 0%Z 7%nat m1)).1
      = 0%Z
    ∧ PrimitiveAttrMgr.data_ _
        (PrimitiveAttrMgr.init_attr nat 0%nat
           (PrimitiveAttrMgr.write_attr nat 0%Z 7%nat m1)).2
      !! 0%Z
      = Some 7%nat.
Proof.
  apply (init_attr_reuses_stray_key 0%nat (PrimitiveAttrMgr.new_mgr nat)
           7%nat).
  - simpl. lia.
  - done.
Defined.

(** ** The reduce ops of c10d *)

Section ReduceOpsFacts.

Import ReduceOps.

Context {supplement : Type}.

(** X24 (the constructors of [ReduceOp]): no constructor stores a
    supplement.  The one with two arguments takes any kind when it is
    given a supplement, which it drops, and only [PREMUL_SUM] when it
    is given none; the one with one argument refuses [PREMUL_SUM];
    [makeNCCLPreMulSum] alone yields an op with its supplement.  The
    comparison with a number holds exactly for the value of the kind,
    and fails its assertion for the value of [UNUSED]. *)
Theorem reduce_op_constructors :
  (∀ op supp r,
     ReduceOp_with_supplement supplement op supp = Some r →
     supplement_ _ r = None)
  ∧ (∀ op s, ∃ r,
       ReduceOp_with_supplement supplement op (Some s) = Some r
       ∧ to_Kind _ r = op)
  ∧ (∀ op, (∃ r, ReduceOp_with_supplement supplement op None = Some r)
           ↔ op = PREMUL_SUM)
  ∧ (∀ op, (∃ r, ReduceOp_of_kind supplement op = Some r)
           ↔ op ≠ PREMUL_SUM)
  ∧ (∀ op r, ReduceOp_of_kind supplement op = Some r →
             supplement_ _ r = None ∧ to_Kind _ r = op)
  ∧ (∀ s, supplement_ _ (makeNCCLPreMulSum supplement s) = Some s
          ∧ to_Kind _ (makeNCCLPreMulSum supplement s) = PREMUL_SUM)
  ∧ (∀ r other,
       eq_uint8 supplement r other = Some true
       ↔ (other < 9)%N ∧ other = kind_value (to_Kind _ r))
  ∧ (∀ r, eq_uint8 supplement r (kind_value UNUSED) = None).
Proof.
  split; [|split; [|split; [|split; [|split; [|split; [|split]]]]]].
  - intros op [s|] r; simpl.
    + by intros [= <-].
    + destruct (decide (op = PREMUL_SUM)); [|done]. by intros [= <-].
  - intros op s. by eexists.
  - intros op. simpl. destruct (decide (op = PREMUL_SUM)).
    + split; [done|]. intros _. by eexists.
    + split; [by intros [r Hr]|done].
  - intros op. unfold ReduceOp_of_kind.
    destruct (decide (op = PREMUL_SUM)).
    + split; [by intros [r Hr]|done].
    + split; [done|]. intros _. by eexists.
  - intros op r. unfold ReduceOp_of_kind.
    destruct (decide (op = PREMUL_SUM)); [done|]. by intros [= <-].
  - done.
  - intros r other. unfold eq_uint8, to_Kind.
    destruct (N.ltb_spec other 9).
    + split.
      * intros [= Heq]. by apply N.eqb_eq in Heq.
      * intros [_ ->]. by rewrite N.eqb_refl.
    + split; [done|]. intros [Hlt _]. lia.
  - done.
Qed.

End ReduceOpsFacts.

(** ** The type-erased value *)

Section AnyFacts.

Import Any.

Context {type_id : Type} `{!EqDecision type_id} {value : Type}.
Implicit Types (h : gmap obj (type_id * value)) (a b : any_t).

(** X25 ([any_t] and [any_cast]): the object built from a value of
    type [T] reports the type [T] and is not empty; a cast to [T] gives
    the value back, a cast to another type gives the null pointer and
    throws in its reference form; the objects that existed are
    untouched; an empty object has the type of [void] and no cast of it
    succeeds. *)
Theorem any_cast_of_value (T : type_id) (v : value) h :
  type value (any_of value T v h).1 (any_of value T v h).2 = Some T
  ∧ empty (any_of value T v h).1 = false
  ∧ any_cast value T (any_of value T v h).1 (any_of value T v h).2
    = Some v
  ∧ (∀ T', T' ≠ T →
           any_cast_ptr value T' (Some (any_of value T v h).1)
             (any_of value T v h).2 = None
           ∧ any_cast value T' (any_of value T v h).1
               (any_of value T v h).2 = None)
  ∧ (∀ o, o ∈ dom h → (any_of value T v h).2 !! o = h !! o)
  ∧ (∀ T', type value any_default h = None
           ∧ any_cast value T' any_default h = None
           ∧ any_cast_ptr value T' None h = None).
Proof.
  unfold any_of. simpl.
  assert (<[fresh (dom h) := (T, v)]> h !! fresh (dom h) = Some (T, v))
    as Hnew by apply lookup_insert_eq.
  split; [by rewrite Hnew|]. split; [done|]. split; [|split; [|split]].
  - unfold any_cast, any_cast_ptr, type. rewrite Hnew. simpl.
    destruct (decide (Some T = Some T)); [|done].
    by rewrite Hnew.
  - intros T' Hne. unfold any_cast, any_cast_ptr, type.
    rewrite Hnew. simpl.
    destruct (decide (Some T = Some T')) as [[= ->]|]; done.
  - intros o Ho. rewrite lookup_insert_ne; [done|].
    intros <-. by apply is_fresh in Ho.
  - done.
Qed.

(** X26 (copies of an [any_t] share the value): the copy constructor
    and the copy assignment copy the pointer, so a cast of the copy
    gives the very pointer a cast of the original gives, and a value
    written through it is read back from both; a move hands the pointer
    over and leaves the source empty. *)
Theorem any_copy_shares_value (T : type_id) a b (p : obj) (x : value) h :
  any_cast_ptr value T (Some a) h = Some p →
  any_cast_ptr value T (Some (any_copy a)) h = Some p
  ∧ any_cast_ptr value T (Some (assign b a)) h = Some p
  ∧ any_cast value T a (write value p x h) = Some x
  ∧ any_cast value T (assign b a) (write value p x h) = Some x
  ∧ any_cast_ptr value T (Some (any_move a).1) h = Some p
  ∧ empty (any_move a).2 = true
  ∧ (assign_move b a).1 = a ∧ empty (assign_move b a).2 = true.
Proof.
  intros Hp.
  assert (a = Some p ∧ fst <$> (h !! p) = Some T) as [-> Hty].
  { unfold any_cast_ptr in Hp.
    destruct (decide (type value a h = Some T)) as [Ht|]; [|done].
    subst a. done. }
  assert (any_cast value T (Some p) (write value p x h) = Some x) as Hx.
  { unfold any_cast, any_cast_ptr, write. simpl.
    rewrite lookup_alter_eq.
    destruct (h !! p) as [[T0 v0]|]; [|done]. simpl in *.
    destruct (decide (Some T0 = Some T)); [|done].
    rewrite lookup_alter_eq. by destruct (h !! p). }
  done.
Qed.

End AnyFacts.

Lemma any_copy_shares_value_witness :
  Any.any_cast Z 1%nat (Any.assign None (Some 0%nat))
    (Any.write Z 0%nat 5%Z (Any.any_of Z 1%nat 3%Z ∅).2)
  = Some 5%Z.
Proof.
  destruct (any_copy_shares_value (type_id := nat) (value := Z) 1%nat
              (Some 0%nat) None 0%nat 5%Z (Any.any_of Z 1%nat 3%Z ∅).2)
    as (_ & _ & _ & H & _).
  - by vm_compute.
  - exact H.
Defined.
